(** * csvjoin: the N-way CSV join engine and its expression evaluator

    A shallow embedding of [csvjoin.py].  Python lists are Rocq lists read
    with [getitem] (which raises [IndexError] out of range), exceptions are
    the [Raise] outcomes of a small error monad, and the only [while] loop
    of the program runs on fuel that is shown to be sufficient. *)

From stdpp Require Import base option list gmap strings pretty sorting.
From Stdlib Require Import Ascii ZArith Lia SpecFloat.

Local Open Scope string_scope.
Local Open Scope list_scope.
Local Open Scope nat_scope.

(** ** Outcomes of a Python computation *)

(** The exceptions the program can raise.  [UnknownColumn] is the
    [Exception('error: unknown column name (%s)' % colname)] that the code
    raises itself; the others are raised by the interpreter. *)
Inductive exn : Type :=
  | IndexError
  | TypeError
  | ValueError
  | KeyError
  | NameError (name : string)
  | SyntaxError
  | ZeroDivisionError
  | OverflowError
  | AssertionError (msg : string)
  | UnknownColumn (colname : string).

(** [OutOfFuel] is not a Python outcome: it marks a bounded loop of the
    model that ran out of steps, and is shown unreachable where it matters.
    [Unsupported] marks Python behaviour the model does not describe. *)
Inductive outcome (A : Type) : Type :=
  | Ok (a : A)
  | Raise (e : exn)
  | Unsupported
  | OutOfFuel.
Arguments Ok {A} a.
Arguments Raise {A} e.
Arguments Unsupported {A}.
Arguments OutOfFuel {A}.

#[global] Instance outcome_ret : MRet outcome := @Ok.
#[global] Instance outcome_bind : MBind outcome := λ A B f m,
  match m with
  | Ok a => f a
  | Raise e => Raise e
  | Unsupported => Unsupported
  | OutOfFuel => OutOfFuel
  end.
#[global] Instance outcome_fmap : FMap outcome := λ A B f m,
  match m with
  | Ok a => Ok (f a)
  | Raise e => Raise e
  | Unsupported => Unsupported
  | OutOfFuel => OutOfFuel
  end.

(** [l[i]] for a non-negative index. *)
Definition getitem {A} (l : list A) (i : nat) : outcome A :=
  match l !! i with
  | Some x => Ok x
  | None => Raise IndexError
  end.

(** ** Data model *)

Abbreviation row := (list string).
Abbreviation table := (list (list string)).

(** ** The join matcher: [get_match_list] *)

Section matcher.
Variable lines_list : list table.
Variable join_field_list : list nat.

(** [functools.reduce(bool.__and__, [...])]: with no initial value,
    [reduce] raises [TypeError] on an empty sequence. *)
Definition reduce_and (flags : list bool) : outcome bool :=
  match flags with
  | [] => Raise TypeError
  | b :: bs => Ok (foldl andb b bs)
  end.

Definition no_finished_list (ii : list nat) : outcome bool :=
  flags ← mapM (λ i, c ← getitem ii i;
                     lines ← getitem lines_list i;
                     mret (c <? length lines)%nat)
               (seq 0 (length ii));
  reduce_and flags.

(** The inner [for j in range(ii[i], len(lines_list[i]))] loop, run over
    the rows that are left from [j] on.  [Ok None] is the [else] branch of
    the [for]: the table is exhausted without a match. *)
Fixpoint scan (i : nat) (join_value : string) (rest : table) (j : nat)
  : outcome (option nat) :=
  match rest with
  | [] => Ok None
  | line :: rest' =>
      col ← getitem join_field_list i;
      jv ← getitem line col;
      if String.eqb jv join_value then Ok (Some j)
      else scan i join_value rest' (S j)
  end.

(** The [for i in range(1, len(lines_list))] loop.  [Ok None] is
    [match_found = False]. *)
Fixpoint for_tables (ii : list nat) (join_value : string)
    (idxs : list nat) (match_ : list nat) : outcome (option (list nat)) :=
  match idxs with
  | [] => Ok (Some match_)
  | i :: idxs' =>
      c ← getitem ii i;
      lines ← getitem lines_list i;
      found ← scan i join_value (drop c lines) c;
      match found with
      | Some j => for_tables ii join_value idxs' (match_ ++ [j])
      | None => Ok None
      end
  end.

(** One pass through the body of the [while] loop, from the cursors [ii]:
    the candidate match, if every table 1..N-1 has one. *)
Definition candidate (ii : list nat) : outcome (option (list nat)) :=
  lines0 ← getitem lines_list 0;
  c0 ← getitem ii 0;
  line ← getitem lines0 c0;
  col0 ← getitem join_field_list 0;
  join_value ← getitem line col0;
  for_tables ii join_value (seq 1 (length lines_list - 1)) [c0].

(** The state after one pass: the cursors and the match list. *)
Definition step (ii : list nat) (match_list : list (list nat))
  : outcome (list nat * list (list nat)) :=
  found ← candidate ii;
  match found with
  | None => c0 ← getitem ii 0; mret (<[0 := (c0 + 1)%nat]> ii, match_list)
  | Some match_ => mret ((λ i, i + 1) <$> match_, match_list ++ [match_])
  end.

Fixpoint while_loop (fuel : nat) (ii : list nat) (match_list : list (list nat))
  : outcome (list (list nat)) :=
  match fuel with
  | O => OutOfFuel
  | S fuel' =>
      go ← no_finished_list ii;
      if go : bool then
        '(ii', match_list') ← step ii match_list;
        while_loop fuel' ii' match_list'
      else Ok match_list
  end.

(** The loop moves the cursor of table 0 by one in every pass, so one
    more step than table 0 has rows is enough. *)
Definition fuel_for : nat := S (length (default [] (lines_list !! 0))).

Definition get_match_list : outcome (list (list nat)) :=
  while_loop fuel_for (replicate (length lines_list) 0%nat) [].

End matcher.

(** *** The matcher as the specification words it

    "Transition rule, run until the cursor for table 0 reaches the end of
    its table": the same pass, under a guard that looks at table 0 only. *)

Section matcher_until_table0.
Variable lines_list : list table.
Variable join_field_list : list nat.

Definition table0_unfinished (ii : list nat) : outcome bool :=
  c0 ← getitem ii 0;
  lines0 ← getitem lines_list 0;
  mret (c0 <? length lines0)%nat.

Fixpoint until_table0_end (fuel : nat) (ii : list nat)
    (match_list : list (list nat)) : outcome (list (list nat)) :=
  match fuel with
  | O => OutOfFuel
  | S fuel' =>
      go ← table0_unfinished ii;
      if go : bool then
        '(ii', match_list') ← step lines_list join_field_list ii match_list;
        until_table0_end fuel' ii' match_list'
      else Ok match_list
  end.

Definition match_list_until_table0_end : outcome (list (list nat)) :=
  until_table0_end (fuel_for lines_list)
    (replicate (length lines_list) 0%nat) [].

End matcher_until_table0.

(** ** Python strings

    A [str] is modelled as a [string] whose characters are the code points
    0..255.  The classes below are Python's for that range. *)

Definition code (c : ascii) : N := N_of_ascii c.

Definition in_range (lo hi : N) (c : ascii) : bool :=
  ((lo <=? code c) && (code c <=? hi))%N.

(** [\d] of [re] on [str] patterns: the decimal digits. *)
Definition is_digit (c : ascii) : bool := in_range 48 57 c.

Definition is_ascii_letter (c : ascii) : bool :=
  in_range 65 90 c || in_range 97 122 c.

(** [\w] of [re] on [str] patterns: the alphanumeric characters
    ([str.isalnum]) and the underscore. *)
Definition is_word (c : ascii) : bool :=
  is_digit c || is_ascii_letter c || (code c =? 95)%N
  || (code c =? 170)%N || (code c =? 178)%N || (code c =? 179)%N
  || (code c =? 181)%N || (code c =? 185)%N || (code c =? 186)%N
  || in_range 188 190 c || in_range 192 214 c || in_range 216 246 c
  || in_range 248 255 c.

(** [str.isspace]: the white space that [str.strip] removes. *)
Definition is_space (c : ascii) : bool :=
  in_range 9 13 c || in_range 28 32 c || (code c =? 133)%N
  || (code c =? 160)%N.

(** The white space that [int] skips at both ends of its argument: the
    [isspace] of C in the ASCII range (so not the separators 28..31), and
    the white space beyond that range, which [int] first turns into
    blanks. *)
Definition is_int_space (c : ascii) : bool :=
  in_range 9 13 c || (code c =? 32)%N || (code c =? 133)%N
  || (code c =? 160)%N.

Definition chars (s : string) : list ascii := String.list_ascii_of_string s.
Definition str_of (l : list ascii) : string := String.string_of_list_ascii l.

(** [s[:i]], [s[j:]] and [s[i:j]] for indices inside the string. *)
Definition str_take (i : nat) (s : string) : string := str_of (take i (chars s)).
Definition str_drop (j : nat) (s : string) : string := str_of (drop j (chars s)).
Definition str_slice (i j : nat) (s : string) : string :=
  str_of (take (j - i) (drop i (chars s))).

(** [s.split(c)] for a separator of one character: never empty. *)
Fixpoint split_go (sep : ascii) (cur : list ascii) (s : list ascii)
    : list string :=
  match s with
  | [] => [str_of (reverse cur)]
  | c :: s' =>
      if Ascii.eqb c sep then str_of (reverse cur) :: split_go sep [] s'
      else split_go sep (c :: cur) s'
  end.

Definition split (sep : ascii) (s : string) : list string :=
  split_go sep [] (chars s).

(** [l.index(x)]: the first position of [x], or [ValueError]. *)
Fixpoint index_from (x : string) (l : list string) (k : nat) : outcome nat :=
  match l with
  | [] => Raise ValueError
  | y :: l' => if String.eqb y x then Ok k else index_from x l' (S k)
  end.

Definition index (l : list string) (x : string) : outcome nat :=
  index_from x l 0.

(** [l[i]] for any integer: negative indices count from the end. *)
Definition getitem_int {A} (l : list A) (i : Z) : outcome A :=
  if (0 <=? i)%Z then getitem l (Z.to_nat i)
  else if (- Z.of_nat (length l) <=? i)%Z
       then getitem l (Z.to_nat (Z.of_nat (length l) + i))
       else Raise IndexError.

(** *** [int(s)]

    White space is skipped at both ends; then comes an optional sign and
    decimal digits, with single underscores allowed between digits.
    Anything else is a [ValueError].  Interpreters since 3.11 refuse more
    than 4300 digits; the model leaves such strings undescribed. *)

Definition max_str_digits : nat := 4300.

Definition digit_value (c : ascii) : Z := Z.of_N (code c) - 48.

(** Digits with single underscores between them; [prev] tells whether the
    previous character was a digit. *)
Fixpoint digits_value (acc : Z) (prev : bool) (s : list ascii) : option Z :=
  match s with
  | [] => if prev then Some acc else None
  | c :: s' =>
      if is_digit c then digits_value (10 * acc + digit_value c) true s'
      else if (code c =? 95)%N then
        if prev then
          match s' with
          | [] => None
          | _ => digits_value acc false s'
          end
        else None
      else None
  end.

Fixpoint drop_while {A} (p : A → bool) (l : list A) : list A :=
  match l with
  | [] => []
  | x :: l' => if p x then drop_while p l' else l
  end.

Definition strip (s : list ascii) : list ascii :=
  reverse (drop_while is_space (reverse (drop_while is_space s))).

Definition int_strip (s : list ascii) : list ascii :=
  reverse (drop_while is_int_space (reverse (drop_while is_int_space s))).

Definition int (s : string) : outcome Z :=
  let body := int_strip (chars s) in
  let '(neg, ds) :=
    match body with
    | c :: ds => if (code c =? 45)%N then (true, ds)
                 else if (code c =? 43)%N then (false, ds)
                 else (false, body)
    | [] => (false, body)
    end in
  if (max_str_digits <? length (filter (λ c, is_digit c = true) ds))%nat
  then Unsupported
  else match digits_value 0 false ds with
       | Some z => Ok (if neg : bool then - z else z)%Z
       | None => Raise ValueError
       end.

(** ** The column resolver *)

Fixpoint take_while {A} (p : A → bool) (l : list A) : list A :=
  match l with
  | [] => []
  | x :: l' => if p x then x :: take_while p l' else []
  end.

(** The length of the match of [COLUMN_NAME_RE = r'\d+\:[\w\d_]+'] at the
    head of [s], if there is one.  Both repetitions are greedy, and giving
    characters back never helps: the character after the digits must be the
    colon, and the one after a shorter name would still be a word
    character. *)
Definition match_column_name (s : list ascii) : option nat :=
  let ds := take_while is_digit s in
  match ds, drop (length ds) s with
  | _ :: _, c :: rest =>
      if (code c =? 58)%N then
        match take_while is_word rest with
        | [] => None
        | ws => Some (length ds + 1 + length ws)
        end
      else None
  | _, _ => None
  end.

(** [re.match(r'^%s$' % COLUMN_NAME_RE, colname) is not None]: [$] matches
    at the end of the string and also just before a newline that ends it. *)
Definition is_column_name (colname : string) : bool :=
  match match_column_name (chars colname) with
  | Some n =>
      match drop n (chars colname) with
      | [] => true
      | [c] => (code c =? 10)%N
      | _ => false
      end
  | None => false
  end.

Definition parse_column_name (colname : string)
    (colnames_list : list (list string)) : outcome (Z * nat) :=
  match split ":" colname with
  | [i; field] =>
      i ← int i;
      names ← getitem_int colnames_list i;
      k ← index names field;
      mret (i, k)
  | _ => Raise ValueError
  end.

(** [try: ... except ValueError: raise Exception('error: unknown column
    name (%s)' % colname)]. *)
Definition except_ValueError {A} (colname : string) (o : outcome A)
    : outcome A :=
  match o with
  | Raise ValueError => Raise (UnknownColumn colname)
  | _ => o
  end.

(** ** The expression evaluator *)

(** The spans of [re.finditer(COLUMN_NAME_RE, colname)]: the leftmost
    matches, none overlapping.  [skip] counts the characters still inside
    the match found last. *)
Fixpoint finditer_go (s : list ascii) (pos skip : nat) : list (nat * nat) :=
  match s with
  | [] => []
  | _ :: s' =>
      match skip with
      | S skip' => finditer_go s' (S pos) skip'
      | O =>
          match match_column_name s with
          | Some n => (pos, pos + n) :: finditer_go s' (S pos) (n - 1)
          | None => finditer_go s' (S pos) 0
          end
      end
  end.

Definition finditer (colname : string) : list (nat * nat) :=
  finditer_go (chars colname) 0 0.

(** [self.pars_] is one pair for a simple column and a list of pairs for a
    formula. *)
Inductive pars : Type :=
  | ParsPair (p : Z * nat)
  | ParsList (l : list (Z * nat)).

Record Expression : Type := {
  expr_ : string;
  pars_ : pars
}.

Definition Expression_init (colname : string)
    (colnames_list : list (list string)) : outcome Expression :=
  if is_column_name colname then
    p ← except_ValueError colname (parse_column_name colname colnames_list);
    mret {| expr_ := ""; pars_ := ParsPair p |}
  else
    let pos_list := finditer colname in
    l ← mapM (λ '(i, j),
                let group := str_slice i j colname in
                except_ValueError group
                  (parse_column_name group colnames_list))
             pos_list;
    mret {| expr_ := foldl (λ colname '(i, j),
                              str_take i colname +:+ "{}" +:+ str_drop j colname)
                           colname (reverse pos_list);
            pars_ := ParsList l |}.

(** *** [str.format] with positional arguments

    The templates of [Expression] hold the replacement field [{}]; doubled
    braces stand for themselves.  A field that is not empty is left
    undescribed. *)
Fixpoint format (template : list ascii) (args : list string) : outcome string :=
  match template with
  | [] => Ok ""
  | c :: rest =>
      if (code c =? 123)%N then
        match rest with
        | [] => Raise ValueError
        | d :: rest' =>
            if (code d =? 125)%N then
              match args with
              | [] => Raise IndexError
              | a :: args' => s ← format rest' args'; mret (a +:+ s)
              end
            else if (code d =? 123)%N then
              s ← format rest' args; mret (String c s)
            else Unsupported
        end
      else if (code c =? 125)%N then
        match rest with
        | d :: rest' =>
            if (code d =? 125)%N then s ← format rest' args; mret (String c s)
            else Raise ValueError
        | [] => Raise ValueError
        end
      else s ← format rest args; mret (String c s)
  end.

(** *** Floats

    A [float] is an IEEE 754 binary64 number, as the standard library
    specifies it in [SpecFloat]: a signed zero, a signed infinity, a NaN,
    or a finite number [m * 2^e] with its sign.  The operations round to
    the nearest float, ties going to the one with an even mantissa. *)

Definition float_prec : Z := 53.
Definition float_emax : Z := 1024.

(** [float(z)] for an integer, which the mixed operations apply to their
    integer operand: the nearest float, and [OverflowError] when the
    integer is too large to have one. *)
Definition float_of_int (z : Z) : outcome spec_float :=
  match binary_normalize float_prec float_emax z 0 false with
  | S754_infinity _ => Raise OverflowError
  | f => Ok f
  end.

(** [a / b] on integers: the float nearest to the quotient of the two
    integers (not the quotient of their nearest floats). *)
Definition int_true_divide (a b : Z) : outcome spec_float :=
  match a, b with
  | _, Z0 => Raise ZeroDivisionError
  | Z0, _ => Ok (S754_zero (b <? 0)%Z)
  | _, _ =>
      match SFdiv float_prec float_emax
              (S754_finite (a <? 0)%Z (Z.to_pos (Z.abs a)) 0)
              (S754_finite (b <? 0)%Z (Z.to_pos (Z.abs b)) 0) with
      | S754_infinity _ => Raise OverflowError
      | q => Ok q
      end
  end.

(** The value of a decimal float literal with the digits [d] and the
    exponent [k]: the float nearest to [d * 10^k]; beyond the largest float
    it is [inf]. *)
Definition float_of_decimal (d k : Z) : spec_float :=
  match d with
  | Zpos n =>
      if (0 <=? k)%Z
      then binary_normalize float_prec float_emax (d * 10 ^ k) 0 false
      else SFdiv float_prec float_emax
             (S754_finite false n 0)
             (S754_finite false (Z.to_pos (10 ^ (- k))) 0)
  | _ => S754_zero false
  end.

(** [repr] of a float, which [str] returns too: the shortest decimal
    digits that read back as the same float and, among these, the nearest
    to it.

    A number [n * 2^a * 10^b] is the triple [(n, a, b)]. *)
Definition scaled_compare (x y : Z * Z * Z) : comparison :=
  let '(n1, a1, b1) := x in
  let '(n2, a2, b2) := y in
  let a := Z.min a1 a2 in
  let b := Z.min b1 b2 in
  (n1 * 2 ^ (a1 - a) * 10 ^ (b1 - b) ?= n2 * 2 ^ (a2 - a) * 10 ^ (b2 - b))%Z.

(** The position of the decimal point of [m * 2^e]: the [p] with
    [10^(p-1) <= m * 2^e < 10^p]. *)
Definition decimal_point (m : positive) (e : Z) : Z :=
  let bits := (Zpos (digits2_pos m) + e)%Z in
  let p0 := (((bits - 1) * 30103) `div` 100000)%Z in
  default (p0 + 3)%Z
    (head (filter (λ p, scaled_compare (Zpos m, e, 0%Z) (1%Z, 0%Z, p) = Lt)
                  [p0 - 1; p0; p0 + 1; p0 + 2]%Z)).

(** Whether [d * 10^k] reads back as the float [m * 2^e]: it lies between
    the midpoints to the two neighbours of the float, which count when the
    mantissa is even.  Below a power of two the neighbour is nearer. *)
Definition reads_back (m : positive) (e : Z) (d k : Z) : bool :=
  let lo :=
    if (Zpos m =? 2 ^ 52)%Z && (-1074 <? e)%Z
    then (4 * Zpos m - 1, e - 2, 0)%Z
    else (2 * Zpos m - 1, e - 1, 0)%Z in
  let hi := (2 * Zpos m + 1, e - 1, 0)%Z in
  let inside (c : comparison) :=
    match c with
    | Lt => true
    | Eq => Z.even (Zpos m)
    | Gt => false
    end in
  inside (scaled_compare lo (d, 0%Z, k))
  && inside (scaled_compare (d, 0%Z, k) hi).

(** The digits [d] and the exponent [k] of the shortest decimal [d * 10^k]
    that reads back as [m * 2^e], tried with [n], [n + 1], ... digits. *)
Fixpoint shortest_digits (fuel : nat) (m : positive) (e p n : Z) : Z * Z :=
  let k := (p - n)%Z in
  let below :=
    ((Zpos m * 2 ^ Z.max e 0 * 10 ^ Z.max (- k) 0)
       `div` (2 ^ Z.max (- e) 0 * 10 ^ Z.max k 0))%Z in
  let above := (below + 1)%Z in
  let found :=
    if reads_back m e below k then
      if reads_back m e above k then
        match scaled_compare (2 * Zpos m, e, 0)%Z (2 * below + 1, 0, k)%Z with
        | Lt => Some below
        | Gt => Some above
        | Eq => Some (if Z.even below then below else above)
        end
      else Some below
    else if reads_back m e above k then Some above
    else None in
  match found, fuel with
  | Some d, _ => (d, k)
  | None, S fuel' => shortest_digits fuel' m e p (n + 1)
  | None, O => (below, k)
  end.

Fixpoint strip_zeros (fuel : nat) (d k : Z) : Z * Z :=
  match fuel with
  | S fuel' =>
      if (d `mod` 10 =? 0)%Z && negb (d =? 0)%Z
      then strip_zeros fuel' (d `div` 10)%Z (k + 1)%Z
      else (d, k)
  | O => (d, k)
  end.

Definition zeros (n : Z) : string := str_of (replicate (Z.to_nat n) "0"%char).

(** The digits are written with a point (and [.0] after an integer) when
    the point stands after the fourth digit behind it at most and after
    sixteen digits at most, and with an exponent of two digits or more
    otherwise. *)
Definition repr_finite (m : positive) (e : Z) : string :=
  let p := decimal_point m e in
  let '(d, k) :=
    let '(d, k) := shortest_digits 17 m e p 1 in strip_zeros 400 d k in
  let ds := pretty d in
  let n := Z.of_nat (String.length ds) in
  let decpt := (k + n)%Z in
  if (-4 <? decpt)%Z && (decpt <=? 16)%Z then
    if (decpt <=? 0)%Z then "0." +:+ zeros (- decpt) +:+ ds
    else if (n <=? decpt)%Z then ds +:+ zeros (decpt - n) +:+ ".0"
    else str_take (Z.to_nat decpt) ds +:+ "." +:+ str_drop (Z.to_nat decpt) ds
  else
    let x := (decpt - 1)%Z in
    str_take 1 ds +:+ (if (1 <? n)%Z then "." +:+ str_drop 1 ds else "")
      +:+ "e" +:+ (if (x <? 0)%Z then "-" else "+")
      +:+ (if (Z.abs x <? 10)%Z then "0" else "") +:+ pretty (Z.abs x).

Definition float_repr (f : spec_float) : string :=
  match f with
  | S754_zero s => if s then "-0.0" else "0.0"
  | S754_infinity s => if s then "-inf" else "inf"
  | S754_nan => "nan"
  | S754_finite s m e => (if s then "-" else "") +:+ repr_finite m e
  end.

(** *** [eval] on arithmetic

    The fragment of Python expressions made of integer and float literals,
    [True] and [False], names, parentheses, the unary [+] and [-] and the
    binary [+ - * / // % ** ^].  Whatever lies outside (imaginary literals,
    strings, calls, comparisons, names that are bound where [eval] runs,
    the operators [// % **] on floats, text that is not an expression) is
    [Unsupported]. *)

Inductive binop : Type := Add | Sub | Mult | Div | FloorDiv | Mod | Pow | BitXor.
Inductive unop : Type := UAdd | USub.

Inductive token : Type :=
  | TNum (z : Z)
  | TFloat (f : spec_float)
  | TBool (b : bool)
  | TName (name : string)
  | TOp (o : binop)
  | TLParen
  | TRParen.

Inductive expr : Type :=
  | ENum (z : Z)
  | EFloat (f : spec_float)
  | EBool (b : bool)
  | EName (name : string)
  | EUn (o : unop) (e : expr)
  | EBin (o : binop) (e1 e2 : expr).

Inductive value : Type :=
  | VInt (z : Z)
  | VFloat (f : spec_float)
  | VBool (b : bool).

(** The names that are bound where [Expression.run] calls [eval]: its
    locals, the globals of the module, the builtins and the keywords (the
    names that start with an underscore are left aside).  Their values are
    outside the fragment. *)
Definition bound_names : list string :=
  [ "self"; "lines"; "vals";
    "argparse"; "functools"; "re"; "sys"; "default_values";
    "YSCALE_VALUES"; "COLUMN_NAME_RE"; "Expression";
    "is_column_name"; "parse_column_name"; "read_data"; "parse_csv";
    "get_field_list"; "get_match_list"; "get_options"; "main";
    "abs"; "aiter"; "all"; "anext"; "any"; "ascii"; "bin"; "bool";
    "breakpoint"; "bytearray"; "bytes"; "callable"; "chr"; "classmethod";
    "compile"; "complex"; "copyright"; "credits"; "delattr"; "dict"; "dir";
    "divmod"; "enumerate"; "eval"; "exec"; "exit"; "filter"; "float";
    "format"; "frozenset"; "getattr"; "globals"; "hasattr"; "hash"; "help";
    "hex"; "id"; "input"; "int"; "isinstance"; "issubclass"; "iter"; "len";
    "license"; "list"; "locals"; "map"; "max"; "memoryview"; "min"; "next";
    "object"; "oct"; "open"; "ord"; "pow"; "print"; "property"; "quit";
    "range"; "repr"; "reversed"; "round"; "set"; "setattr"; "slice";
    "sorted"; "staticmethod"; "str"; "sum"; "super"; "tuple"; "type";
    "vars"; "zip";
    "and"; "as"; "assert"; "async"; "await"; "break"; "class"; "continue";
    "def"; "del"; "elif"; "else"; "except"; "finally"; "for"; "from";
    "global"; "if"; "import"; "in"; "is"; "lambda"; "nonlocal"; "not"; "or";
    "pass"; "raise"; "return"; "try"; "while"; "with"; "yield";
    "True"; "False"; "None"; "Ellipsis"; "NotImplemented";
    "ArithmeticError"; "AssertionError"; "AttributeError"; "BaseException";
    "BaseExceptionGroup"; "BlockingIOError"; "BrokenPipeError";
    "BufferError"; "BytesWarning"; "ChildProcessError";
    "ConnectionAbortedError"; "ConnectionError"; "ConnectionRefusedError";
    "ConnectionResetError"; "DeprecationWarning"; "EOFError";
    "EncodingWarning"; "EnvironmentError"; "Exception"; "ExceptionGroup";
    "FileExistsError"; "FileNotFoundError"; "FloatingPointError";
    "FutureWarning"; "GeneratorExit"; "IOError"; "ImportError";
    "ImportWarning"; "IndentationError"; "IndexError"; "InterruptedError";
    "IsADirectoryError"; "KeyError"; "KeyboardInterrupt"; "LookupError";
    "MemoryError"; "ModuleNotFoundError"; "NameError"; "NotADirectoryError";
    "NotImplementedError"; "OSError"; "OverflowError";
    "PendingDeprecationWarning"; "PermissionError"; "ProcessLookupError";
    "PythonFinalizationError"; "RecursionError"; "ReferenceError";
    "ResourceWarning"; "RuntimeError"; "RuntimeWarning";
    "StopAsyncIteration"; "StopIteration"; "SyntaxError"; "SyntaxWarning";
    "SystemError"; "SystemExit"; "TabError"; "TimeoutError"; "TypeError";
    "UnboundLocalError"; "UnicodeDecodeError"; "UnicodeEncodeError";
    "UnicodeError"; "UnicodeTranslateError"; "UnicodeWarning"; "UserWarning";
    "ValueError"; "Warning"; "WindowsError"; "ZeroDivisionError" ].

(** A character of a name; a name that the model describes starts with a
    letter. *)
Definition is_name_char (c : ascii) : bool :=
  is_ascii_letter c || is_digit c || (code c =? 95)%N.

(** A character of a number or of a name (or the dot of a float or of an
    attribute). *)
Definition is_word_char (c : ascii) : bool :=
  is_digit c || is_ascii_letter c || (code c =? 95)%N || (code c =? 46)%N.

Definition digits_to_Z (w : list ascii) : Z :=
  foldl (λ acc c, 10 * acc + digit_value c)%Z 0%Z w.

(** **** Number literals

    [digit (["_"] digit)*] at the head of [w], for the digits [p]: the
    digits, and what follows them. *)
Fixpoint digitpart_go (p : ascii → bool) (w : list ascii)
    : list ascii * list ascii :=
  match w with
  | c :: w' =>
      if p c then let '(ds, rest) := digitpart_go p w' in (c :: ds, rest)
      else if (code c =? 95)%N then
        match w' with
        | d :: _ => if p d then digitpart_go p w' else ([], w)
        | [] => ([], w)
        end
      else ([], w)
  | [] => ([], [])
  end.

Definition digitpart (p : ascii → bool) (w : list ascii)
    : option (list ascii * list ascii) :=
  match w with
  | c :: _ => if p c then Some (digitpart_go p w) else None
  | [] => None
  end.

Definition is_hex_digit (c : ascii) : bool :=
  is_digit c || in_range 65 70 c || in_range 97 102 c.
Definition is_oct_digit (c : ascii) : bool := in_range 48 55 c.
Definition is_bin_digit (c : ascii) : bool := in_range 48 49 c.

Definition hex_digit_value (c : ascii) : Z :=
  if is_digit c then digit_value c
  else if in_range 97 102 c then Z.of_N (code c) - 87
  else Z.of_N (code c) - 55.

(** What follows [0x], [0o] or [0b]: [(["_"] digit)+]. *)
Definition radix_literal (base : Z) (p : ascii → bool) (w : list ascii)
    : option Z :=
  let w :=
    match w with
    | c :: w' => if (code c =? 95)%N then w' else w
    | [] => w
    end in
  match digitpart p w with
  | Some (ds, []) =>
      Some (foldl (λ acc c, base * acc + hex_digit_value c)%Z 0%Z ds)
  | _ => None
  end.

Definition is_exponent_mark (c : ascii) : bool :=
  (code c =? 101)%N || (code c =? 69)%N.

(** What follows the [e] of a float: [["+" | "-"] digitpart]. *)
Definition exponent (w : list ascii) : option Z :=
  let '(neg, w) :=
    match w with
    | c :: w' => if (code c =? 45)%N then (true, w')
                 else if (code c =? 43)%N then (false, w')
                 else (false, w)
    | [] => (false, w)
    end in
  match digitpart is_digit w with
  | Some (ds, []) => Some (if neg : bool then - digits_to_Z ds else digits_to_Z ds)%Z
  | _ => None
  end.

(** What follows the mantissa of a float, whose digits before and after
    the point are [ipart] and [fpart]: nothing, or an exponent. *)
Definition float_tail (ipart fpart : list ascii) (w : list ascii)
    : option spec_float :=
  let d := digits_to_Z (ipart ++ fpart) in
  match w with
  | [] => Some (float_of_decimal d (- Z.of_nat (length fpart)))
  | c :: w' =>
      if is_exponent_mark c then
        k ← exponent w';
        Some (float_of_decimal d (k - Z.of_nat (length fpart)))
      else None
  end.

(** What follows the point of a float: digits, which can be left out after
    an integer part, and the tail. *)
Definition fraction (ipart : list ascii) (w : list ascii) : option spec_float :=
  match digitpart is_digit w with
  | Some (fpart, rest) => float_tail ipart fpart rest
  | None =>
      match ipart with
      | [] => None
      | _ => float_tail ipart [] w
      end
  end.

Inductive literal : Type :=
  | LInt (z : Z)
  | LFloat (f : spec_float).

(** A number literal.  A decimal integer has no leading zero, unless it
    has zeros only, and (for interpreters since 3.11) 4300 digits at most;
    the integers in base 16, 8 and 2 and the floats have no such limits.
    Imaginary literals are left out. *)
Definition number_literal (w : list ascii) : option literal :=
  match w with
  | [] => None
  | c :: w' =>
      if (code c =? 46)%N then LFloat <$> fraction [] w'
      else
        let radix :=
          match w' with
          | x :: w'' =>
              if negb (code c =? 48)%N then None
              else if (code x =? 120)%N || (code x =? 88)%N
              then Some (radix_literal 16 is_hex_digit w'')
              else if (code x =? 111)%N || (code x =? 79)%N
              then Some (radix_literal 8 is_oct_digit w'')
              else if (code x =? 98)%N || (code x =? 66)%N
              then Some (radix_literal 2 is_bin_digit w'')
              else None
          | [] => None
          end in
        match radix with
        | Some z => LInt <$> z
        | None =>
            match digitpart is_digit w with
            | Some (ds, []) =>
                if (negb (code c =? 48)%N
                    || forallb (λ d, (code d =? 48)%N) ds)
                   && (length ds <=? max_str_digits)
                then Some (LInt (digits_to_Z ds))
                else None
            | Some (ds, x :: rest) =>
                if (code x =? 46)%N then LFloat <$> fraction ds rest
                else LFloat <$> float_tail ds [] (x :: rest)
            | None => None
            end
        end
  end.

(** The token of a word: a maximal run of word characters, with the sign
    of the exponent if it is a float.  A name that the model lets [eval]
    look up starts with a letter, is made of letters, digits and
    underscores, and is not bound. *)
Definition classify (w : list ascii) : outcome token :=
  match w with
  | [] => Unsupported
  | c :: w' =>
      if is_digit c || (code c =? 46)%N then
        match number_literal w with
        | Some (LInt z) => Ok (TNum z)
        | Some (LFloat f) => Ok (TFloat f)
        | None => Unsupported
        end
      else if String.eqb (str_of w) "True" then Ok (TBool true)
      else if String.eqb (str_of w) "False" then Ok (TBool false)
      else if is_ascii_letter c
              && forallb is_name_char w'
              && negb (bool_decide (str_of w ∈ bound_names))
      then Ok (TName (str_of w))
      else Unsupported
  end.

(** Whether [w] is the mantissa of a float with an exponent: a digit part
    or a point float. *)
Definition is_mantissa (w : list ascii) : bool :=
  let all_digits (w : list ascii) :=
    match digitpart is_digit w with
    | Some (_, []) => true
    | _ => false
    end in
  match w with
  | [] => false
  | c :: w' =>
      if (code c =? 46)%N then all_digits w'
      else
        match digitpart is_digit w with
        | Some (_, []) => true
        | Some (_, x :: rest) =>
            (code x =? 46)%N
            && match rest with
               | [] => true
               | _ => all_digits rest
               end
        | None => false
        end
  end.

(** Whether a sign that comes after the word read so far (held reversed)
    and before [s] is the sign of an exponent: the word is a mantissa and
    an [e], and a digit follows the sign. *)
Definition exponent_sign (word s : list ascii) : bool :=
  match word, s with
  | e :: m, d :: _ => is_exponent_mark e && is_digit d && is_mantissa (reverse m)
  | _, _ => false
  end.

(** The tokens of the text; [word] holds, reversed, the word being read. *)
Definition flush (word : list ascii) (rest : outcome (list token))
    : outcome (list token) :=
  match word with
  | [] => rest
  | _ => t ← classify (reverse word); ts ← rest; mret (t :: ts)
  end.

Fixpoint lex (s : list ascii) (word : list ascii) : outcome (list token) :=
  match s with
  | [] => flush word (Ok [])
  | c :: s' =>
      if is_word_char c then lex s' (c :: word)
      else
        let op (o : binop) (s : list ascii) :=
          flush word (ts ← lex s []; mret (TOp o :: ts)) in
        if (code c =? 32)%N || (code c =? 9)%N then flush word (lex s' [])
        else if (code c =? 43)%N then
          if exponent_sign word s' then lex s' (c :: word) else op Add s'
        else if (code c =? 45)%N then
          if exponent_sign word s' then lex s' (c :: word) else op Sub s'
        else if (code c =? 37)%N then op Mod s'
        else if (code c =? 94)%N then op BitXor s'
        else if (code c =? 40)%N then
          flush word (ts ← lex s' []; mret (TLParen :: ts))
        else if (code c =? 41)%N then
          flush word (ts ← lex s' []; mret (TRParen :: ts))
        else if (code c =? 42)%N then
          match s' with
          | d :: s'' => if (code d =? 42)%N then op Pow s'' else op Mult s'
          | [] => op Mult s'
          end
        else if (code c =? 47)%N then
          match s' with
          | d :: s'' => if (code d =? 47)%N then op FloorDiv s'' else op Div s'
          | [] => op Div s'
          end
        else Unsupported
  end.

(** The parser is the operator-precedence method: it reads the tokens once,
    keeping the operators that wait for their right operand on [ops] and the
    operands read so far on [out].  Python's grammar has, from the loosest
    to the tightest, [^], then [+ -], then [* / // %], then the unary
    [+ -], then [**], which groups to the right and takes a unary operator
    in its exponent. *)

Inductive stack_op : Type :=
  | SParen
  | SUn (o : unop)
  | SBin (o : binop).

Definition prec_bin (o : binop) : nat :=
  match o with
  | BitXor => 1
  | Add | Sub => 2
  | Mult | Div | FloorDiv | Mod => 3
  | Pow => 5
  end.

Definition prec (o : stack_op) : nat :=
  match o with
  | SParen => 0
  | SUn _ => 4
  | SBin o => prec_bin o
  end.

(** Whether the operator [t] on the stack takes its operands before the
    binary operator [o] that arrives. *)
Definition binds_before (o : binop) (t : stack_op) : bool :=
  (prec_bin o <? prec t)
  || ((prec_bin o =? prec t) && negb (match o with Pow => true | _ => false end)).

Definition apply_op (o : stack_op) (out : list expr) : option (list expr) :=
  match o, out with
  | SUn u, e :: out' => Some (EUn u e :: out')
  | SBin b, e2 :: e1 :: out' => Some (EBin b e1 e2 :: out')
  | _, _ => None
  end.

(** Take from the stack, down to the nearest parenthesis, the operators
    that satisfy [p]. *)
Fixpoint reduce (p : stack_op → bool) (ops : list stack_op) (out : list expr)
    : option (list stack_op * list expr) :=
  match ops with
  | [] => Some ([], out)
  | SParen :: _ => Some (ops, out)
  | o :: ops' =>
      if p o then out' ← apply_op o out; reduce p ops' out'
      else Some (ops, out)
  end.

Fixpoint shunt (ts : list token) (ops : list stack_op) (out : list expr)
    (operand : bool) : outcome expr :=
  match ts with
  | [] =>
      if operand then Unsupported
      else match reduce (λ _, true) ops out with
           | Some ([], [e]) => Ok e
           | _ => Unsupported
           end
  | t :: ts' =>
      let atom (e : expr) :=
        if operand then shunt ts' ops (e :: out) false else Unsupported in
      match t with
      | TNum z => atom (ENum z)
      | TFloat f => atom (EFloat f)
      | TBool b => atom (EBool b)
      | TName name => atom (EName name)
      | TLParen =>
          if operand then shunt ts' (SParen :: ops) out true else Unsupported
      | TRParen =>
          if operand then Unsupported
          else match reduce (λ _, true) ops out with
               | Some (SParen :: ops', out') => shunt ts' ops' out' false
               | _ => Unsupported
               end
      | TOp o =>
          if operand then
            match o with
            | Add => shunt ts' (SUn UAdd :: ops) out true
            | Sub => shunt ts' (SUn USub :: ops) out true
            | _ => Unsupported
            end
          else match reduce (binds_before o) ops out with
               | Some (ops', out') => shunt ts' (SBin o :: ops') out' true
               | None => Unsupported
               end
      end
  end.

Definition parse (text : string) : outcome expr :=
  ts ← lex (chars text) [];
  shunt ts [] [] true.

(** [bool] is a subclass of [int]. *)
Definition as_int (v : value) : Z :=
  match v with
  | VInt z => z
  | VBool b => if b then 1 else 0
  | VFloat _ => 0
  end.

Definition eval_unop (o : unop) (v : value) : value :=
  match o, v with
  | UAdd, VFloat f => VFloat f
  | USub, VFloat f => VFloat (SFopp f)
  | UAdd, _ => VInt (as_int v)
  | USub, _ => VInt (- as_int v)
  end.

(** The operators on two integers.  [/] is the true division, and yields a
    float; [**] with a negative exponent does too, and is outside the
    fragment, except where it raises. *)
Definition int_binop (o : binop) (v1 v2 : value) : outcome value :=
  let a := as_int v1 in
  let b := as_int v2 in
  match o with
  | Add => Ok (VInt (a + b))
  | Sub => Ok (VInt (a - b))
  | Mult => Ok (VInt (a * b))
  | Div => VFloat <$> int_true_divide a b
  | FloorDiv => if (b =? 0)%Z then Raise ZeroDivisionError else Ok (VInt (a `div` b))
  | Mod => if (b =? 0)%Z then Raise ZeroDivisionError else Ok (VInt (a `mod` b))
  | Pow =>
      if (0 <=? b)%Z then Ok (VInt (a ^ b))
      else if (a =? 0)%Z then Raise ZeroDivisionError else Unsupported
  | BitXor =>
      match v1, v2 with
      | VBool x, VBool y => Ok (VBool (xorb x y))
      | _, _ => Ok (VInt (Z.lxor a b))
      end
  end.

Definition is_zero (f : spec_float) : bool :=
  match f with
  | S754_zero _ => true
  | _ => false
  end.

(** [x / y] on floats: a division by zero raises, where IEEE 754 has an
    infinity or a NaN. *)
Definition float_div (x y : spec_float) : outcome spec_float :=
  if is_zero y then Raise ZeroDivisionError
  else Ok (SFdiv float_prec float_emax x y).

(** The operators on two floats.  [+ - * /] never overflow into an
    exception: the result is then an infinity. *)
Definition float_binop (o : binop) (x y : spec_float) : outcome value :=
  match o with
  | Add => Ok (VFloat (SFadd float_prec float_emax x y))
  | Sub => Ok (VFloat (SFsub float_prec float_emax x y))
  | Mult => Ok (VFloat (SFmul float_prec float_emax x y))
  | Div => VFloat <$> float_div x y
  | FloorDiv | Mod => if is_zero y then Raise ZeroDivisionError else Unsupported
  | Pow => Unsupported
  | BitXor => Raise TypeError
  end.

(** When one operand is a float, the other is made one first. *)
Definition eval_binop (o : binop) (v1 v2 : value) : outcome value :=
  match v1, v2 with
  | VFloat x, VFloat y => float_binop o x y
  | VFloat x, _ =>
      match o with
      | BitXor => Raise TypeError
      | _ => y ← float_of_int (as_int v2); float_binop o x y
      end
  | _, VFloat y =>
      match o with
      | BitXor => Raise TypeError
      | _ => x ← float_of_int (as_int v1); float_binop o x y
      end
  | _, _ => int_binop o v1 v2
  end.

(** The left operand is evaluated before the right one. *)
Fixpoint eval_expr (e : expr) : outcome value :=
  match e with
  | ENum z => Ok (VInt z)
  | EFloat f => Ok (VFloat f)
  | EBool b => Ok (VBool b)
  | EName name => Raise (NameError name)
  | EUn o e => v ← eval_expr e; mret (eval_unop o v)
  | EBin o e1 e2 =>
      v1 ← eval_expr e1; v2 ← eval_expr e2; eval_binop o v1 v2
  end.

Definition eval (text : string) : outcome value :=
  e ← parse text; eval_expr e.

(** [str] of a result; as in [int], more than 4300 digits are left out. *)
Definition str (v : value) : outcome string :=
  match v with
  | VBool b => Ok (if b then "True" else "False")
  | VFloat f => Ok (float_repr f)
  | VInt z =>
      if (10 ^ Z.of_nat max_str_digits <=? Z.abs z)%Z then Unsupported
      else Ok (pretty z)
  end.

(** *** [Expression.run] *)

Definition cell_of (lines : list row) (p : Z * nat) : outcome string :=
  line ← getitem_int lines p.1; getitem line p.2.

Definition run (self : Expression) (lines : list row) : outcome string :=
  if String.eqb (expr_ self) "" then
    match pars_ self with
    | ParsPair p => cell_of lines p
    | ParsList [] => Raise IndexError
    | ParsList (_ :: _) => Raise TypeError
    end
  else
    match pars_ self with
    | ParsPair _ => Raise TypeError
    | ParsList l =>
        vals ← mapM (cell_of lines) l;
        text ← format (chars (expr_ self)) vals;
        v ← eval text;
        str v
    end.

(** ** [get_field_list] *)

Definition one_entry_per_file : string :=
  "join list must contain 1 entry per input files".
Definition entries_for_each_file : string :=
  "join list must contain entries for each of the input files".

(** The loop [for join in join_list] that fills the dictionary
    [join_columns].  In [i, join_columns[i] = parse_column_name(...)] the
    right-hand side is evaluated first. *)
Fixpoint fill_join_columns (join_list : list string)
    (colnames_list : list (list string)) (join_columns : gmap Z nat)
    : outcome (gmap Z nat) :=
  match join_list with
  | [] => Ok join_columns
  | join :: join_list' =>
      '(i, k) ← except_ValueError join (parse_column_name join colnames_list);
      fill_join_columns join_list' colnames_list (<[i := k]> join_columns)
  end.

(** The order of [item_list.sort()] on items with different keys. *)
Definition key_le (x y : Z * nat) : Prop := (x.1 ≤ y.1)%Z.

#[global] Instance key_le_dec x y : Decision (key_le x y).
Proof. unfold key_le. apply _. Defined.

(** [options.join] is [None] when [--join] is not given, and [len(None)] is
    a [TypeError]. *)
Definition get_field_list (numfiles : nat) (join_list : option (list string))
    (colnames_list : list (list string)) : outcome (list nat) :=
  match join_list with
  | None => Raise TypeError
  | Some join_list =>
      if negb (numfiles =? length join_list)
      then Raise (AssertionError one_entry_per_file)
      else
        join_columns ← fill_join_columns join_list colnames_list ∅;
        if negb (bool_decide
                   (list_to_set (Z.of_nat <$> seq 0 numfiles)
                    =@{gset Z} dom join_columns))
        then Raise (AssertionError entries_for_each_file)
        else
          let item_list :=
            merge_sort key_le (map_to_list join_columns) in
          Ok (item_list.*2)
  end.

(** ** [main]

    [main] is modelled from the point where the input files have been read
    and parsed: [inputs] holds, for each input file, the column names and
    the lines that [parse_csv] returned.  The output file is taken to open.

    What [main] has done when it ends is kept in the state: the match list
    once [get_match_list] has returned it, and the text written to the
    output file once that file is open. *)

Record progress : Type := {
  matched : option (list (list nat));
  written : option (list string)
}.

Definition started : progress := {| matched := None; written := None |}.

Definition M (A : Type) : Type := progress → progress * outcome A.

Definition lift {A} (o : outcome A) : M A := λ st, (st, o).

Definition then_ {A B} (m : M A) (f : A → M B) : M B := λ st,
  match m st with
  | (st', Ok a) => f a st'
  | (st', Raise e) => (st', Raise e)
  | (st', Unsupported) => (st', Unsupported)
  | (st', OutOfFuel) => (st', OutOfFuel)
  end.

Notation "x ←! m ; k" := (then_ m (λ x, k))
  (at level 20, m at level 100, k at level 200, only parsing).

Definition set_match_list (match_list : list (list nat)) : M unit := λ st,
  ({| matched := Some match_list; written := written st |}, Ok ()).

Definition open_outfile : M unit := λ st,
  ({| matched := matched st; written := Some [] |}, Ok ()).

(** [fout.write(s)]; on a file that is not open it is a [ValueError]. *)
Definition write (s : string) : M unit := λ st,
  match written st with
  | Some out => ({| matched := matched st; written := Some (out ++ [s]) |}, Ok ())
  | None => (st, Raise ValueError)
  end.

Fixpoint for_each {A} (l : list A) (body : A → M unit) : M unit :=
  match l with
  | [] => lift (Ok ())
  | x :: l' => _ ←! body x; for_each l' body
  end.

(** [','.join(out_cols)] *)
Fixpoint join_str (sep : string) (l : list string) : string :=
  match l with
  | [] => ""
  | [s] => s
  | s :: l' => s +:+ sep +:+ join_str sep l'
  end.

Definition newline : string := String (ascii_of_nat 10) "".

(** The body of [for row_list in match_list]. *)
Definition emit_row (lines_list : list table) (expr_list : list Expression)
    (row_list : list nat) : M unit :=
  lines ←! lift (mapM (λ '(i, l), getitem l i) (zip row_list lines_list));
  out_cols ←! lift (mapM (λ expr, run expr lines) expr_list);
  write (join_str "," out_cols +:+ newline).

Definition main (inputs : list (list string * table))
    (join : option (list string)) (out_cols : list string) : M unit :=
  let colnames_list := inputs.*1 in
  let lines_list := inputs.*2 in
  join_field_list ←! lift (get_field_list (length inputs) join colnames_list);
  match_list ←! lift (get_match_list lines_list join_field_list);
  _ ←! set_match_list match_list;
  expr_list ←! lift (mapM (λ colname, Expression_init colname colnames_list)
                          out_cols);
  _ ←! open_outfile;
  for_each match_list (emit_row lines_list expr_list).

(** ** [parse_csv] *)

(** [s.strip()] *)
Definition str_strip (s : string) : string := str_of (strip (chars s)).

Fixpoint is_prefix (p s : list ascii) : bool :=
  match p, s with
  | [], _ => true
  | _ :: _, [] => false
  | a :: p', b :: s' => Ascii.eqb a b && is_prefix p' s'
  end.

(** [s.startswith(prefix)] *)
Definition startswith (s prefix : string) : bool :=
  is_prefix (chars prefix) (chars s).

(** [s.split(sep)] for a separator that is a string: the pieces between
    the occurrences of [sep], which are found from left to right and do
    not overlap.  [skip] counts the characters of the occurrence just found
    that are still to be passed. *)
Fixpoint split_str_go (sep : list ascii) (skip : nat) (cur : list ascii)
    (s : list ascii) : list string :=
  match s with
  | [] => [str_of (reverse cur)]
  | c :: s' =>
      match skip with
      | S k => split_str_go sep k cur s'
      | O =>
          if is_prefix sep s
          then str_of (reverse cur) :: split_str_go sep (length sep - 1) [] s'
          else split_str_go sep 0 (c :: cur) s'
      end
  end.

(** The empty separator is a [ValueError]. *)
Definition split_str (s sep : string) : outcome (list string) :=
  match chars sep with
  | [] => Raise ValueError
  | sep' => Ok (split_str_go sep' 0 [] (chars s))
  end.

(** The lines that [parse_csv] keeps: [line and not
    line.strip().startswith('#')]. *)
Definition is_data_line (line : string) : bool :=
  negb (String.eqb line "") && negb (startswith (str_strip line) "#").

(** "look for named columns in line 0" *)
Definition named_columns (line0 sep : string) : outcome (list string) :=
  if startswith (str_strip line0) "#"
  then
    split_str (str_strip (str_drop 1 (str_strip line0))) sep
    ≫= λ column_names : list string, Ok (str_strip <$> column_names)
  else Ok [].

Definition parse_csv (raw_data sep : string)
    : outcome (list string * table) :=
  lines ← split_str raw_data newline;
  line0 ← getitem lines 0;
  column_names ← named_columns line0 sep;
  lines ← mapM (λ line, split_str line sep)
               (filter (λ line, is_data_line line = true) lines);
  Ok (column_names, (λ line : list string, str_strip <$> line) <$> lines).

(** ** Vocabulary of the statements about [parse_csv] *)

(** A cell that [parse_csv] with [sep] returns as it is written: it has no
    white space at its ends and holds neither [sep] nor a line end. *)
Definition plain_cell (sep : ascii) (cell : string) : Prop :=
  str_strip cell = cell ∧ (sep ∉ chars cell) ∧
  (ascii_of_nat 10 ∉ chars cell).

#[global] Instance plain_cell_dec sep cell : Decision (plain_cell sep cell).
Proof. unfold plain_cell. apply _. Defined.

(** A row of plain cells whose line is neither empty nor a comment: it is
    not the row of one empty cell, and its first cell does not start with
    [#]. *)
Definition plain_row (sep : ascii) (line : list string) : Prop :=
  Forall (plain_cell sep) line ∧ line ≠ [] ∧ line ≠ [""] ∧
  startswith (default "" (head line)) "#" = false.

#[global] Instance plain_row_dec sep line : Decision (plain_row sep line).
Proof. unfold plain_row. apply _. Defined.

(** The text of the output file once [main] has written the rows [lines]:
    [','.join(out_cols) + '\n'] for each of them. *)
Definition written_text (lines : table) : string :=
  foldr String.append ""
    ((λ out_cols, join_str "," out_cols +:+ newline) <$> lines).

(** ** Vocabulary of the statements about the matcher *)

(** The join cell of row [r] of table [i]:
    [lines_list[i][r][join_field_list[i]]], when all three indices are in
    range. *)
Definition join_cell (lines_list : list table) (join_field_list : list nat)
    (i r : nat) : option string :=
  lines ← lines_list !! i;
  line ← lines !! r;
  col ← join_field_list !! i;
  line !! col.

(** Every table has a join column, and every row of every table has a cell
    in the join column of its table. *)
Definition in_bounds (lines_list : list table) (join_field_list : list nat)
    : Prop :=
  length lines_list ≤ length join_field_list ∧
  Forall2 (λ (lines : table) (col : nat),
             Forall (λ line : row, col < length line) lines)
          lines_list (take (length lines_list) join_field_list).

#[global] Instance in_bounds_dec lines_list join_field_list :
  Decision (in_bounds lines_list join_field_list).
Proof. unfold in_bounds. apply _. Defined.

(** The row count of the smallest table (0 when there is no table). *)
Definition smallest_row_count (lines_list : list table) : nat :=
  match lines_list with
  | [] => 0
  | lines :: rest => foldr (λ t acc, length t `min` acc) (length lines) rest
  end.

(** [m] is a candidate found from the cursors [ii] for the join value [v]:
    one row per table, at or after that table's cursor, holding [v] in its
    join column. *)
Definition found_from (lines_list : list table) (join_field_list : list nat)
    (ii : list nat) (v : string) (m : list nat) : Prop :=
  length m = length lines_list ∧
  ∀ i r, m !! i = Some r →
    join_cell lines_list join_field_list i r = Some v ∧
    ∃ c, ii !! i = Some c ∧ c ≤ r.

(** Row by row, [m] is strictly before [m']. *)
Definition pointwise_lt (m m' : list nat) : Prop :=
  ∀ i a b, m !! i = Some a → m' !! i = Some b → a < b.

(** What the loop keeps true of its cursors and of the matches so far. *)
Record matcher_inv (lines_list : list table) (join_field_list : list nat)
    (ii : list nat) (match_list : list (list nat)) : Prop := {
  inv_length : length ii = length lines_list;
  inv_cursor : ∀ i c lines,
    ii !! i = Some c → lines_list !! i = Some lines → c ≤ length lines;
  inv_valid : ∀ m, m ∈ match_list →
    ∃ v, found_from lines_list join_field_list
           (replicate (length lines_list) 0) v m;
  inv_below : ∀ m, m ∈ match_list → pointwise_lt m ii;
  inv_sorted : ∀ p q m m', p < q →
    match_list !! p = Some m → match_list !! q = Some m' → pointwise_lt m m';
  inv_count : ∀ i c, ii !! i = Some c → length match_list ≤ c
}.

(** A computation of the model that ends the way a Python computation does:
    with a value or with an exception. *)
Definition returns_or_raises {A} (o : outcome A) : Prop :=
  match o with
  | Ok _ | Raise _ => True
  | Unsupported | OutOfFuel => False
  end.

(** Some table after table 0 has its cursor at (or past) its end. *)
Definition exhausted (lines_list : list table) (ii : list nat) : Prop :=
  ∃ i c lines, 1 ≤ i ∧ ii !! i = Some c ∧ lines_list !! i = Some lines ∧
    length lines ≤ c.

(** ** Scenario A of the specification *)

Module ScenarioA.
Definition header0 : list string := ["city"; "pop"].
Definition header1 : list string := ["city"; "area"].
Definition file0 : table := [["NYC"; "8"]; ["LA"; "4"]].
Definition file1 : table := [["LA"; "500"]; ["NYC"; "300"]].
Definition lines_list : list table := [file0; file1].
Definition colnames_list : list (list string) := [header0; header1].
End ScenarioA.

(** ** Vocabulary of the statements about expressions and [main] *)

(** A cell that holds an integer: a decimal literal, with a minus sign in
    front or not. *)
Definition int_cell (cell : string) : option Z :=
  let literal (w : list ascii) : option Z :=
    match classify w with
    | Ok (TNum z) => Some z
    | _ => None
    end in
  match chars cell with
  | c :: w => if (code c =? 45)%N then Z.opp <$> literal w else literal (c :: w)
  | [] => None
  end.

(** A cell that holds a number: the tokens of the cell are an integer or
    a float literal, with one sign in front or without. *)
Definition number_token (t : token) : option value :=
  match t with
  | TNum z => Some (VInt z)
  | TFloat f => Some (VFloat f)
  | _ => None
  end.

Definition numeric_cell (cell : string) : option value :=
  match lex (chars cell) [] with
  | Ok [t] => number_token t
  | Ok [TOp Add; t] => eval_unop UAdd <$> number_token t
  | Ok [TOp Sub; t] => eval_unop USub <$> number_token t
  | _ => None
  end.

(** The true division of two numbers: of two integers, the float nearest
    to their quotient; with a float among them, the quotient of the two
    floats.  A divisor that is zero is a [ZeroDivisionError], and an
    integer too large for a float an [OverflowError]. *)
Definition true_quotient (a b : value) : outcome spec_float :=
  match a, b with
  | VFloat x, VFloat y => float_div x y
  | VFloat x, _ => y ← float_of_int (as_int b); float_div x y
  | _, VFloat y => x ← float_of_int (as_int a); float_div x y
  | _, _ => int_true_divide (as_int a) (as_int b)
  end.

(** The parsed input files of scenario A, and its options. *)
Module ScenarioA_main.
Definition inputs : list (list string * table) :=
  [(ScenarioA.header0, ScenarioA.file0); (ScenarioA.header1, ScenarioA.file1)].
Definition join : option (list string) := Some ["0:city"; "1:city"].
Definition out_cols : list string := ["0:city"; "0:pop"; "1:area"].
End ScenarioA_main.

(** The column references of an output-column spec, in the order in which
    [Expression.__init__] resolves them. *)
Definition groups (colname : string) : list string :=
  if is_column_name colname then [colname]
  else (λ '(i, j), str_slice i j colname) <$> finditer colname.

(** The reference [group] names a file index that is no index into a list
    of [numfiles] input tables. *)
Definition file_index_out_of_range (group : string) (numfiles : nat) : Prop :=
  ∃ i field n,
    split ":" group = [i; field] ∧ int i = Ok n ∧
    (n < - Z.of_nat numfiles ∨ Z.of_nat numfiles ≤ n)%Z.

(** A cell that holds a name which is not bound where [eval] runs. *)
Definition unbound_name (cell : string) : Prop :=
  classify (chars cell) = Ok (TName cell).

#[global] Instance unbound_name_dec cell : Decision (unbound_name cell).
Proof.
  unfold unbound_name.
  destruct (classify (chars cell)) as [[z|f|b|name| | |]|e| |];
    try (right; discriminate).
  destruct (decide (name = cell)) as [->|Hne]; [by left|].
  right. intros [= H]. done.
Defined.

(** Two files joined on [k], with a cell of column [a] that is no number. *)
Module ScenarioD.
Definition inputs : list (list string * table) :=
  [(["k"; "a"], [["1"; "5"]; ["2"; "abc"]]);
   (["k"; "b"], [["1"; "3"]; ["2"; "4"]])].
Definition join : option (list string) := Some ["0:k"; "1:k"].
Definition out_cols : list string := ["0:k"; "0:a + 1:b"].
End ScenarioD.

(** The cell that the pair [p] of a column reference names in the rows of
    the match [m]: [lines_list[i][m[i]][k]] for [p = (i, k)]. *)
Definition matched_cell (lines_list : list table) (m : list nat)
    (p : Z * nat) : option string :=
  r ← m !! Z.to_nat p.1;
  t ← lines_list !! Z.to_nat p.1;
  line ← t !! r;
  line !! p.2.

(** ** Vocabulary of the statements about formulas *)

(** How a binary operator is written. *)
Definition op_text (o : binop) : string :=
  match o with
  | Add => "+"
  | Sub => "-"
  | Mult => "*"
  | Div => "/"
  | FloorDiv => "//"
  | Mod => "%"
  | Pow => "**"
  | BitXor => "^"
  end.

(** A column reference: a text that [COLUMN_NAME_RE] matches as a
    whole. *)
Definition column_reference (group : string) : Prop :=
  match_column_name (chars group) = Some (length (chars group)).

#[global] Instance column_reference_dec group : Decision (column_reference group).
Proof. unfold column_reference. apply _. Defined.

(** The braces, which [str.format] takes as the marks of a field. *)
Definition is_brace (c : ascii) : bool :=
  (code c =? 123)%N || (code c =? 125)%N.

(** The text [s], which starts at position [pos] of a column
    specification, with the spans [pos_list] replaced by the values [vals],
    one after the other. *)
Fixpoint substitute (s : list ascii) (pos : nat) (pos_list : list (nat * nat))
    (vals : list string) : list ascii :=
  match pos_list, vals with
  | (i, j) :: pos_list', v :: vals' =>
      take (i - pos) s ++ chars v
        ++ substitute (drop (j - pos) s) j pos_list' vals'
  | _, _ => s
  end.

(** The same text with a field [{}] in the place of every span. *)
Fixpoint fields (s : list ascii) (pos : nat) (pos_list : list (nat * nat))
    : list ascii :=
  match pos_list with
  | [] => s
  | (i, j) :: pos_list' =>
      take (i - pos) s ++ chars "{}" ++ fields (drop (j - pos) s) j pos_list'
  end.

(** Spans that lie between [lo] and [hi], one after the other. *)
Fixpoint spans_ok (lo hi : nat) (pos_list : list (nat * nat)) : Prop :=
  match pos_list with
  | [] => True
  | (i, j) :: pos_list' => lo ≤ i ∧ i < j ∧ j ≤ hi ∧ spans_ok j hi pos_list'
  end.

(** ** Vocabulary of the statements about the order of the search *)

(** The rows [rows], one of every table, all hold the join value [v]. *)
Definition agree_on (lines_list : list table) (join_field_list : list nat)
    (rows : list nat) (v : string) : Prop :=
  length rows = length lines_list ∧
  ∀ i r, rows !! i = Some r →
    join_cell lines_list join_field_list i r = Some v.

(** Where the search of table [i] starts once the matches of [match_list]
    are made: one row past the last match, or at row 0. *)
Definition cursor_after (match_list : list (list nat)) (i : nat) : nat :=
  match last match_list with
  | None => 0
  | Some m => default 0 (m !! i) + 1
  end.

(** Row [r0] of table 0 has no partner from the rows [cur]: its join value
    is in no row, at or after row [cur i], of some other table [i]. *)
Definition without_partner (lines_list : list table)
    (join_field_list : list nat) (cur : nat → nat) (r0 : nat) : Prop :=
  ∃ v i, join_cell lines_list join_field_list 0 r0 = Some v ∧
    1 ≤ i < length lines_list ∧
    ∀ r, cur i ≤ r → join_cell lines_list join_field_list i r ≠ Some v.

(** The match [m] is the first one from the rows [cur]: it has one row per
    table, all with the same join value; in every table after table 0 no
    row from [cur i] up to the row of [m] holds that value; and no row of
    table 0 from [cur 0] up to the row of [m] has a partner. *)
Record first_match (lines_list : list table) (join_field_list : list nat)
    (cur : nat → nat) (m : list nat) : Prop := {
  first_length : length m = length lines_list;
  first_value : ∃ v, ∀ i r, m !! i = Some r →
    join_cell lines_list join_field_list i r = Some v ∧ cur i ≤ r;
  first_row : ∀ i r v r', 1 ≤ i → m !! i = Some r →
    join_cell lines_list join_field_list i r = Some v → cur i ≤ r' < r →
    ∃ v', join_cell lines_list join_field_list i r' = Some v' ∧ v' ≠ v;
  first_row0 : ∀ r0 r0', m !! 0 = Some r0 → cur 0 ≤ r0' < r0 →
    without_partner lines_list join_field_list cur r0'
}.

(** What the loop keeps true of the order in which it searches: the cursors
    of the tables after table 0 are where the last match left them, the
    rows of table 0 between the last match and its cursor have no partner,
    and every match is the first one after the matches before it. *)
Record search_inv (lines_list : list table) (join_field_list : list nat)
    (ii : list nat) (match_list : list (list nat)) : Prop := {
  search_length : length ii = length lines_list;
  search_cursor : ∀ i, 1 ≤ i < length lines_list →
    ii !! i = Some (cursor_after match_list i);
  search_cursor0 : ∀ c0, ii !! 0 = Some c0 →
    cursor_after match_list 0 ≤ c0 ∧
    ∀ r0, cursor_after match_list 0 ≤ r0 < c0 →
      without_partner lines_list join_field_list (cursor_after match_list) r0;
  search_matches : ∀ p m, match_list !! p = Some m →
    first_match lines_list join_field_list
      (cursor_after (take p match_list)) m
}.

(** The tokens of one text, then those of another. *)
Definition then_tokens (m r : outcome (list token)) : outcome (list token) :=
  ts1 ← m; ts2 ← r; mret (ts1 ++ ts2).

(* ================================================================== *)
(** * Theorems *)

(** ** Facts about the error monad and list access *)

Lemma bind_Ok {A B} (m : outcome A) (f : A → outcome B) (b : B) :
  m ≫= f = Ok b ↔ ∃ a, m = Ok a ∧ f a = Ok b.
Proof.
  destruct m; simpl; split; try (intros [a [Ha _]]; discriminate Ha);
    try discriminate; eauto.
  intros [a' [[= ->] Hf]]; exact Hf.
Qed.

Lemma getitem_Ok {A} (l : list A) (i : nat) (x : A) :
  getitem l i = Ok x ↔ l !! i = Some x.
Proof. unfold getitem. destruct (l !! i); split; congruence. Qed.

Lemma Ok_bind {A B} (a : A) (f : A → outcome B) : Ok a ≫= f = f a.
Proof. reflexivity. Qed.

(** Run a [getitem] whose result is known. *)
Ltac read_item H :=
  rewrite (proj2 (getitem_Ok _ _ _) H), !Ok_bind; cbv beta.

Lemma getitem_lt {A} (l : list A) (i : nat) :
  (i < length l)%nat → ∃ x, getitem l i = Ok x.
Proof.
  intros Hi. destruct (lookup_lt_is_Some_2 l i Hi) as [x Hx].
  exists x. by apply getitem_Ok.
Qed.

Lemma bind_returns_or_raises {A B} (m : outcome A) (f : A → outcome B) :
  returns_or_raises m → (∀ a, m = Ok a → returns_or_raises (f a)) →
  returns_or_raises (m ≫= f).
Proof. destruct m; simpl; auto. Qed.

Lemma getitem_returns_or_raises {A} (l : list A) (i : nat) :
  returns_or_raises (getitem l i).
Proof. unfold getitem. by destruct (l !! i). Qed.

Lemma mapM_Ok {A B} (f : A → outcome B) (l : list A) (k : list B) :
  mapM f l = Ok k ↔ Forall2 (λ x y, f x = Ok y) l k.
Proof.
  revert k. induction l as [|x l IH]; intros k; simpl.
  - split; [intros [= <-]; constructor | by intros ->%Forall2_nil_inv_l].
  - split.
    + intros (y & Hy & H)%bind_Ok. apply bind_Ok in H as (k' & Hk' & [= <-]).
      constructor; [done|]. by apply IH.
    + intros (y & k' & Hy & Hk' & ->)%Forall2_cons_inv_l.
      change (f x ≫= (λ y, mapM f l ≫= (λ k, Ok (y :: k))) = Ok (y :: k')).
      rewrite Hy. simpl. apply IH in Hk'. by rewrite Hk'.
Qed.

Lemma mapM_returns_or_raises {A B} (f : A → outcome B) (l : list A) :
  (∀ x, returns_or_raises (f x)) → returns_or_raises (mapM f l).
Proof.
  intros Hf. induction l as [|x l IH]; simpl; [done|].
  apply bind_returns_or_raises; [done|]. intros y _.
  apply bind_returns_or_raises; [done|]. by intros k _.
Qed.

#[local] Hint Resolve getitem_returns_or_raises : core.

(** ** The join matcher *)

Section matcher_facts.
Variable lines_list : list table.
Variable join_field_list : list nat.

Local Abbreviation cell := (join_cell lines_list join_field_list).
Local Abbreviation N := (length lines_list).

Lemma join_cell_Some i r v :
  cell i r = Some v ↔
  ∃ lines line col, lines_list !! i = Some lines ∧ lines !! r = Some line ∧
    join_field_list !! i = Some col ∧ line !! col = Some v.
Proof.
  unfold join_cell. split.
  - intros H.
    destruct (lines_list !! i) as [lines|] eqn:E1; simpl in H; [|done].
    destruct (lines !! r) as [line|] eqn:E2; simpl in H; [|done].
    destruct (join_field_list !! i) as [col|] eqn:E3; simpl in H; [|done].
    eauto 10.
  - intros (lines & line & col & -> & E2 & -> & E4). simpl.
    rewrite E2. simpl. exact E4.
Qed.

Lemma join_cell_row_lt i r v lines :
  cell i r = Some v → lines_list !! i = Some lines → r < length lines.
Proof.
  intros (lines' & line & col & E1 & E2 & _)%join_cell_Some E.
  rewrite E in E1. injection E1 as <-. by eapply lookup_lt_Some.
Qed.

(** The scan returns the first row at or after [j] that holds the value. *)
Lemma scan_Some i v rest j k :
  scan join_field_list i v rest j = Ok (Some k) →
  j ≤ k ∧ ∃ line col, rest !! (k - j) = Some line ∧
    join_field_list !! i = Some col ∧ line !! col = Some v.
Proof.
  revert j. induction rest as [|line rest IH]; intros j H; simpl in H.
  - discriminate.
  - apply bind_Ok in H as (col & Hcol%getitem_Ok & H).
    apply bind_Ok in H as (jv & Hjv%getitem_Ok & H).
    destruct (String.eqb jv v) eqn:E.
    + injection H as <-. apply String.eqb_eq in E as ->.
      split; [lia|]. exists line, col. by rewrite Nat.sub_diag.
    + apply IH in H as (Hle & line' & col' & Hl & Hc & Hv).
      split; [lia|]. exists line', col'.
      replace (k - j) with (S (k - S j)) by lia. done.
Qed.

Lemma for_tables_Some ii v idxs m m' :
  for_tables lines_list join_field_list ii v idxs m = Ok (Some m') →
  ∃ js, m' = m ++ js ∧
    Forall2 (λ i r, cell i r = Some v ∧ ∃ c, ii !! i = Some c ∧ c ≤ r)
            idxs js.
Proof.
  revert m. induction idxs as [|i idxs IH]; intros m H; simpl in H.
  - injection H as <-. exists []. by rewrite app_nil_r.
  - apply bind_Ok in H as (c & Hc%getitem_Ok & H).
    apply bind_Ok in H as (lines & Hl%getitem_Ok & H).
    apply bind_Ok in H as (found & Hscan & H).
    destruct found as [r|]; [|discriminate].
    apply IH in H as (js & -> & Hjs).
    exists (r :: js). split; [by rewrite <- app_assoc|].
    constructor; [|done].
    apply scan_Some in Hscan as (Hle & line & col & Hrow & Hcol & Hv).
    split; [|eauto].
    apply join_cell_Some. exists lines, line, col. repeat split; try done.
    rewrite lookup_drop in Hrow.
    by replace (c + (r - c)) with r in Hrow by lia.
Qed.

Lemma candidate_Some ii m :
  candidate lines_list join_field_list ii = Ok (Some m) →
  (∃ v, found_from lines_list join_field_list ii v m) ∧
  ∃ c0 lines0, ii !! 0 = Some c0 ∧ m !! 0 = Some c0 ∧
    lines_list !! 0 = Some lines0 ∧ c0 < length lines0.
Proof.
  unfold candidate. intros H.
  apply bind_Ok in H as (lines0 & Hl0%getitem_Ok & H).
  apply bind_Ok in H as (c0 & Hc0%getitem_Ok & H).
  apply bind_Ok in H as (line & Hline%getitem_Ok & H).
  apply bind_Ok in H as (col0 & Hcol0%getitem_Ok & H).
  apply bind_Ok in H as (v & Hv%getitem_Ok & H).
  apply for_tables_Some in H as (js & -> & Hjs).
  assert (HN : N = S (N - 1)).
  { apply lookup_lt_Some in Hl0. lia. }
  split.
  - exists v. split.
    + apply Forall2_length in Hjs. rewrite length_seq in Hjs.
      simpl. lia.
    + intros i r Hi. destruct i as [|i]; simpl in Hi.
      * injection Hi as <-. split; [|eauto].
        apply join_cell_Some. eauto 10.
      * destruct (Forall2_lookup_r _ _ _ _ _ Hjs Hi) as (i' & Hi' & Hcell).
        apply lookup_seq in Hi' as [-> _]. exact Hcell.
  - exists c0, lines0. repeat split; try done. by eapply lookup_lt_Some.
Qed.

Lemma candidate_Ok_cursor ii found :
  candidate lines_list join_field_list ii = Ok found →
  ∃ c0 lines0, ii !! 0 = Some c0 ∧ lines_list !! 0 = Some lines0 ∧
    c0 < length lines0.
Proof.
  unfold candidate. intros H.
  apply bind_Ok in H as (lines0 & Hl0%getitem_Ok & H).
  apply bind_Ok in H as (c0 & Hc0%getitem_Ok & H).
  apply bind_Ok in H as (line & Hline%getitem_Ok & _).
  exists c0, lines0. repeat split; try done. by eapply lookup_lt_Some.
Qed.

Lemma found_from_origin ii v m :
  found_from lines_list join_field_list ii v m →
  found_from lines_list join_field_list (replicate N 0) v m.
Proof.
  intros [Hlen Hm]. split; [done|]. intros i r Hi.
  destruct (Hm i r Hi) as [Hcell _]. split; [done|].
  exists 0. split; [|lia]. apply lookup_replicate_2.
  apply lookup_lt_Some in Hi. lia.
Qed.

Lemma matcher_inv_init : matcher_inv lines_list join_field_list (replicate N 0) [].
Proof.
  split.
  - apply length_replicate.
  - intros i c lines [-> _]%lookup_replicate _. lia.
  - intros m Hm. by apply elem_of_nil in Hm.
  - intros m Hm. by apply elem_of_nil in Hm.
  - intros p q m m' _ Hp. by rewrite lookup_nil in Hp.
  - intros i c _. simpl. lia.
Qed.

(** One pass keeps the invariant and moves the cursor of table 0 by one. *)
Lemma step_inv ii match_list ii' match_list' :
  matcher_inv lines_list join_field_list ii match_list →
  step lines_list join_field_list ii match_list = Ok (ii', match_list') →
  matcher_inv lines_list join_field_list ii' match_list' ∧
  ∃ c0, ii !! 0 = Some c0 ∧ ii' !! 0 = Some (c0 + 1).
Proof.
  intros Inv H. unfold step in H.
  apply bind_Ok in H as (found & Hcand & H).
  destruct found as [m|].
  - injection H as <- <-.
    apply candidate_Some in Hcand
      as ((v & Hfrom) & c0 & lines0 & Hc0 & Hm0 & Hl0 & Hlt).
    pose proof Hfrom as [Hlen Hm].
    split; [|exists c0; split; [done|]; by rewrite list_lookup_fmap, Hm0].
    split.
    + by rewrite length_fmap.
    + intros i c lines Hi Hl. rewrite list_lookup_fmap in Hi.
      destruct (m !! i) as [r|] eqn:Er; [|done]. injection Hi as <-.
      destruct (Hm i r Er) as [Hcell _].
      pose proof (join_cell_row_lt _ _ _ _ Hcell Hl). lia.
    + intros m' [Hin | ->%list_elem_of_singleton]%elem_of_app.
      * by apply (inv_valid _ _ _ _ Inv).
      * exists v. by eapply found_from_origin.
    + intros m' [Hin | ->%list_elem_of_singleton]%elem_of_app;
        intros i a b Ha Hb; rewrite list_lookup_fmap in Hb;
        destruct (m !! i) as [r|] eqn:Er; try done; injection Hb as <-.
      * destruct (Hm i r Er) as [_ (c & Hc & Hle)].
        pose proof (inv_below _ _ _ _ Inv m' Hin i a c Ha Hc). lia.
      * injection Ha as <-. lia.
    + intros p q m1 m2 Hpq Hp Hq.
      destruct (decide (q < length match_list)) as [Hq'|Hq'].
      * rewrite lookup_app_l in Hp, Hq by lia.
        exact (inv_sorted _ _ _ _ Inv p q m1 m2 Hpq Hp Hq).
      * rewrite lookup_app_r in Hq by lia.
        apply list_lookup_singleton_Some in Hq as [Hq <-].
        rewrite lookup_app_l in Hp by lia.
        intros i a b Ha Hb. destruct (Hm i b Hb) as [_ (c & Hc & Hle)].
        apply list_elem_of_lookup_2 in Hp.
        pose proof (inv_below _ _ _ _ Inv m1 Hp i a c Ha Hc). lia.
    + intros i c Hi. rewrite list_lookup_fmap in Hi.
      destruct (m !! i) as [r|] eqn:Er; [|done]. injection Hi as <-.
      destruct (Hm i r Er) as [_ (c & Hc & Hle)].
      pose proof (inv_count _ _ _ _ Inv i c Hc).
      rewrite length_app. simpl. lia.
  - apply candidate_Ok_cursor in Hcand as (c0 & lines0 & Hc0 & Hl0 & Hlt).
    apply bind_Ok in H as (c0' & Hc0'%getitem_Ok & H).
    rewrite Hc0 in Hc0'. injection Hc0' as <-. injection H as <- <-.
    assert (H0 : 0 < length ii) by (by eapply lookup_lt_Some).
    split; [|exists c0; split; [done|]; by apply list_lookup_insert_eq].
    split.
    + rewrite length_insert. apply (inv_length _ _ _ _ Inv).
    + intros i c lines Hi Hl.
      apply list_lookup_insert_Some in Hi as [(<- & <- & _) | (Hne & Hi)].
      * rewrite Hl0 in Hl. injection Hl as <-. lia.
      * by eapply (inv_cursor _ _ _ _ Inv).
    + apply (inv_valid _ _ _ _ Inv).
    + intros m Hin i a b Ha Hb.
      apply list_lookup_insert_Some in Hb as [(<- & <- & _) | (Hne & Hb)].
      * pose proof (inv_below _ _ _ _ Inv m Hin 0 a c0 Ha Hc0). lia.
      * by eapply (inv_below _ _ _ _ Inv).
    + apply (inv_sorted _ _ _ _ Inv).
    + intros i c Hi.
      apply list_lookup_insert_Some in Hi as [(<- & <- & _) | (Hne & Hi)].
      * pose proof (inv_count _ _ _ _ Inv 0 c0 Hc0). lia.
      * by eapply (inv_count _ _ _ _ Inv).
Qed.

Lemma while_loop_inv fuel ii match_list res :
  matcher_inv lines_list join_field_list ii match_list →
  while_loop lines_list join_field_list fuel ii match_list = Ok res →
  ∃ ii', matcher_inv lines_list join_field_list ii' res.
Proof.
  revert ii match_list.
  induction fuel as [|fuel IH]; intros ii match_list Inv H; simpl in H.
  - discriminate.
  - apply bind_Ok in H as (go & _ & H). destruct go.
    + apply bind_Ok in H as ([ii' match_list'] & Hstep & H).
      eapply IH; [|exact H]. by eapply step_inv.
    + injection H as <-. eauto.
Qed.

Lemma until_table0_end_inv fuel ii match_list res :
  matcher_inv lines_list join_field_list ii match_list →
  until_table0_end lines_list join_field_list fuel ii match_list = Ok res →
  ∃ ii', matcher_inv lines_list join_field_list ii' res.
Proof.
  revert ii match_list.
  induction fuel as [|fuel IH]; intros ii match_list Inv H; simpl in H.
  - discriminate.
  - apply bind_Ok in H as (go & _ & H). destruct go.
    + apply bind_Ok in H as ([ii' match_list'] & Hstep & H).
      eapply IH; [|exact H]. by eapply step_inv.
    + injection H as <-. eauto.
Qed.

Lemma get_match_list_inv res :
  get_match_list lines_list join_field_list = Ok res →
  ∃ ii, matcher_inv lines_list join_field_list ii res.
Proof. apply while_loop_inv, matcher_inv_init. Qed.

(** *** The guard of the loop *)

Lemma foldl_andb_true b bs :
  foldl andb b bs = true ↔ b = true ∧ Forall (λ x, x = true) bs.
Proof.
  revert b. induction bs as [|x bs IH]; intros b; simpl.
  - split; [by intros -> | by intros [-> _]].
  - rewrite IH, andb_true_iff, Forall_cons. tauto.
Qed.

Lemma foldl_andb_false b bs :
  foldl andb b bs = false → ∃ i, (b :: bs) !! i = Some false.
Proof.
  revert b. induction bs as [|x bs IH]; intros b; simpl.
  - intros ->. by exists 0.
  - intros [i Hi]%IH. destruct i as [|i]; simpl in Hi.
    + injection Hi as [-> | ->]%andb_false_iff; [by exists 0 | by exists 1].
    + by exists (S (S i)).
Qed.

Lemma no_finished_list_flags ii flags :
  mapM (λ i, c ← getitem ii i; lines ← getitem lines_list i;
             mret (c <? length lines)) (seq 0 (length ii)) = Ok flags →
  length flags = length ii ∧
  ∀ i b, flags !! i = Some b →
    ∃ c lines, ii !! i = Some c ∧ lines_list !! i = Some lines ∧
      b = (c <? length lines).
Proof.
  intros H%mapM_Ok. split.
  - apply Forall2_length in H. by rewrite length_seq in H.
  - intros i b Hb.
    destruct (Forall2_lookup_r _ _ _ _ _ H Hb) as (i' & Hi' & Hf).
    apply lookup_seq in Hi' as [-> _]. simpl in Hf.
    apply bind_Ok in Hf as (c & Hc%getitem_Ok & Hf).
    apply bind_Ok in Hf as (lines & Hl%getitem_Ok & [= <-]).
    eauto.
Qed.

(** The loop goes on only while every cursor is inside its table. *)
Lemma no_finished_list_true ii :
  no_finished_list lines_list ii = Ok true →
  ∀ i c lines, ii !! i = Some c → lines_list !! i = Some lines →
    c < length lines.
Proof.
  unfold no_finished_list. intros (flags & Hflags & Hred)%bind_Ok.
  apply no_finished_list_flags in Hflags as [Hlen Hflags].
  intros i c lines Hc Hl.
  destruct flags as [|b bs]; [discriminate|]. injection Hred as Hred.
  apply foldl_andb_true in Hred as [-> Hbs].
  assert (Hred : Forall (λ x, x = true) (true :: bs)) by by constructor.
  destruct (lookup_lt_is_Some_2 (true :: bs) i) as [x Hx].
  { rewrite Hlen. by eapply lookup_lt_Some. }
  destruct (Hflags i x Hx) as (c' & lines' & Hc' & Hl' & ->).
  rewrite Hc in Hc'. injection Hc' as <-.
  rewrite Hl in Hl'. injection Hl' as <-.
  rewrite Forall_lookup in Hred. apply Hred in Hx. by apply Nat.ltb_lt.
Qed.

(** It stops as soon as one cursor is at the end of its table. *)
Lemma no_finished_list_false ii :
  no_finished_list lines_list ii = Ok false →
  ∃ i c lines, ii !! i = Some c ∧ lines_list !! i = Some lines ∧
    length lines ≤ c.
Proof.
  unfold no_finished_list. intros (flags & Hflags & Hred)%bind_Ok.
  apply no_finished_list_flags in Hflags as [Hlen Hflags].
  destruct flags as [|b bs]; [discriminate|]. injection Hred as Hred.
  apply foldl_andb_false in Hred as [i Hi].
  destruct (Hflags i false Hi) as (c & lines & Hc & Hl & Hb).
  exists i, c, lines. repeat split; try done.
  symmetry in Hb. apply Nat.ltb_ge in Hb. lia.
Qed.

(** With one cursor per table and at least one table, the guard is
    computed without an exception. *)
Lemma no_finished_list_Ok ii :
  length ii = N → 0 < N → ∃ go, no_finished_list lines_list ii = Ok go.
Proof.
  intros Hlen HN. unfold no_finished_list.
  assert (∃ flags, flags ≠ [] ∧
    mapM (λ i, c ← getitem ii i; lines ← getitem lines_list i;
               mret (c <? length lines)) (seq 0 (length ii)) = Ok flags)
    as (flags & Hne & ->).
  { exists ((λ i, default 0 (ii !! i) <? length (default [] (lines_list !! i)))
              <$> seq 0 (length ii)).
    split.
    - rewrite Hlen. destruct (length lines_list); [lia|].
      intros Hnil. apply (f_equal length) in Hnil.
      rewrite length_fmap, length_seq in Hnil. discriminate.
    - apply mapM_Ok, Forall2_fmap_r, Forall_Forall2_diag, Forall_forall.
      intros i [_ Hi]%elem_of_seq.
      destruct (lookup_lt_is_Some_2 ii i) as [c Hc]; [lia|].
      destruct (lookup_lt_is_Some_2 lines_list i) as [lines Hl]; [lia|].
      unfold getitem, compose. rewrite Hc, Hl. done. }
  destruct flags; [done|]. simpl. eauto.
Qed.

(** *** The loop ends, with a value or with an exception *)

Lemma scan_returns_or_raises i v rest j :
  returns_or_raises (scan join_field_list i v rest j).
Proof.
  revert j. induction rest as [|line rest IH]; intros j; simpl; [done|].
  apply bind_returns_or_raises; [done|]. intros col _.
  apply bind_returns_or_raises; [done|]. intros jv _.
  by destruct (String.eqb jv v).
Qed.

Lemma for_tables_returns_or_raises ii v idxs m :
  returns_or_raises (for_tables lines_list join_field_list ii v idxs m).
Proof.
  revert m. induction idxs as [|i idxs IH]; intros m; simpl; [done|].
  apply bind_returns_or_raises; [done|]. intros c _.
  apply bind_returns_or_raises; [done|]. intros lines _.
  apply bind_returns_or_raises; [apply scan_returns_or_raises|].
  by intros [r|] _.
Qed.

Lemma step_returns_or_raises ii match_list :
  returns_or_raises (step lines_list join_field_list ii match_list).
Proof.
  unfold step, candidate.
  apply bind_returns_or_raises.
  - repeat (apply bind_returns_or_raises; [done|]; intros ? _).
    apply for_tables_returns_or_raises.
  - intros [m|] _; [done|].
    apply bind_returns_or_raises; [done|]. by intros c0 _.
Qed.

Lemma no_finished_list_returns_or_raises ii :
  returns_or_raises (no_finished_list lines_list ii).
Proof.
  unfold no_finished_list. apply bind_returns_or_raises.
  - apply mapM_returns_or_raises. intros i.
    repeat (apply bind_returns_or_raises; [done|]; intros ? _). done.
  - by intros [|b bs] _.
Qed.

Lemma table0_unfinished_returns_or_raises ii :
  returns_or_raises (table0_unfinished lines_list ii).
Proof.
  unfold table0_unfinished.
  repeat (apply bind_returns_or_raises; [done|]; intros ? _). done.
Qed.

Lemma step_cursor0 ii match_list ii' match_list' :
  step lines_list join_field_list ii match_list = Ok (ii', match_list') →
  ∃ c0 lines0, ii !! 0 = Some c0 ∧ ii' !! 0 = Some (c0 + 1) ∧
    lines_list !! 0 = Some lines0 ∧ c0 < length lines0.
Proof.
  unfold step. intros (found & Hcand & H)%bind_Ok.
  destruct found as [m|].
  - injection H as <- <-.
    apply candidate_Some in Hcand as (_ & c0 & lines0 & Hc0 & Hm0 & Hl0 & Hlt).
    exists c0, lines0. rewrite list_lookup_fmap, Hm0. done.
  - apply candidate_Ok_cursor in Hcand as (c0 & lines0 & Hc0 & Hl0 & Hlt).
    apply bind_Ok in H as (c0' & Hc0'%getitem_Ok & [= <- <-]).
    rewrite Hc0 in Hc0'. injection Hc0' as <-.
    exists c0, lines0. repeat split; try done.
    apply list_lookup_insert_eq. by eapply lookup_lt_Some.
Qed.

(** Every pass moves the cursor of table 0 one row on, so the loop needs at
    most one step more than the rows left in table 0. *)
Lemma while_loop_returns_or_raises fuel ii match_list :
  (∀ c0 lines0, ii !! 0 = Some c0 → lines_list !! 0 = Some lines0 →
     length lines0 < fuel + c0) →
  0 < fuel →
  returns_or_raises
    (while_loop lines_list join_field_list fuel ii match_list).
Proof.
  revert ii match_list.
  induction fuel as [|fuel IH]; intros ii match_list Hfuel Hpos; [lia|].
  simpl. apply bind_returns_or_raises;
    [apply no_finished_list_returns_or_raises|].
  intros [|] Hgo; [|done].
  apply bind_returns_or_raises; [apply step_returns_or_raises|].
  intros [ii' match_list'] Hstep.
  pose proof (step_cursor0 _ _ _ _ Hstep)
    as (c0 & lines0 & Hc0 & Hc0' & Hl0 & Hlt).
  specialize (Hfuel c0 lines0 Hc0 Hl0).
  apply IH; [|lia].
  intros c lines Hc Hl. rewrite Hc0' in Hc. injection Hc as <-.
  rewrite Hl0 in Hl. injection Hl as <-. lia.
Qed.

Lemma until_table0_end_returns_or_raises fuel ii match_list :
  (∀ c0 lines0, ii !! 0 = Some c0 → lines_list !! 0 = Some lines0 →
     length lines0 < fuel + c0) →
  0 < fuel →
  returns_or_raises
    (until_table0_end lines_list join_field_list fuel ii match_list).
Proof.
  revert ii match_list.
  induction fuel as [|fuel IH]; intros ii match_list Hfuel Hpos; [lia|].
  simpl. apply bind_returns_or_raises;
    [apply table0_unfinished_returns_or_raises|].
  intros [|] Hgo; [|done].
  apply bind_returns_or_raises; [apply step_returns_or_raises|].
  intros [ii' match_list'] Hstep.
  pose proof (step_cursor0 _ _ _ _ Hstep)
    as (c0 & lines0 & Hc0 & Hc0' & Hl0 & Hlt).
  specialize (Hfuel c0 lines0 Hc0 Hl0).
  apply IH; [|lia].
  intros c lines Hc Hl. rewrite Hc0' in Hc. injection Hc as <-.
  rewrite Hl0 in Hl. injection Hl as <-. lia.
Qed.

Lemma fuel_for_enough c0 lines0 :
  replicate N 0 !! 0 = Some c0 → lines_list !! 0 = Some lines0 →
  length lines0 < fuel_for lines_list + c0.
Proof. intros _ Hl. unfold fuel_for. rewrite Hl. simpl. lia. Qed.

Lemma get_match_list_returns_or_raises :
  returns_or_raises (get_match_list lines_list join_field_list).
Proof.
  apply while_loop_returns_or_raises; [apply fuel_for_enough|].
  unfold fuel_for. lia.
Qed.

Lemma match_list_until_table0_end_returns_or_raises :
  returns_or_raises (match_list_until_table0_end lines_list join_field_list).
Proof.
  apply until_table0_end_returns_or_raises; [apply fuel_for_enough|].
  unfold fuel_for. lia.
Qed.

(** *** No exception when every join column is in bounds *)

Lemma in_bounds_lookup :
  in_bounds lines_list join_field_list →
  N ≤ length join_field_list ∧
  ∀ i lines col (line : row),
    lines_list !! i = Some lines → join_field_list !! i = Some col →
    line ∈ lines → col < length line.
Proof.
  intros [Hjf Hrows]. split; [done|].
  intros i lines col line Hl Hcol Hin.
  assert (Hcol' : take N join_field_list !! i = Some col).
  { rewrite lookup_take_lt; [done|]. by eapply lookup_lt_Some. }
  pose proof (Forall2_lookup_lr _ _ _ _ _ _ Hrows Hl Hcol') as Hall.
  rewrite Forall_forall in Hall. by apply Hall.
Qed.

Lemma scan_in_bounds i v rest j col :
  join_field_list !! i = Some col →
  Forall (λ line : list string, col < length line) rest →
  ∃ found, scan join_field_list i v rest j = Ok found.
Proof.
  intros Hcol. revert j.
  induction rest as [|line rest IH]; intros j Hrest; simpl; [eauto|].
  apply Forall_cons in Hrest as [Hline Hrest].
  destruct (lookup_lt_is_Some_2 line col Hline) as [jv Hjv].
  unfold getitem. rewrite Hcol. simpl. rewrite Hjv. simpl.
  destruct (String.eqb jv v); eauto.
Qed.

Lemma for_tables_in_bounds ii v idxs m :
  in_bounds lines_list join_field_list → length ii = N →
  Forall (λ i, i < N) idxs →
  ∃ found, for_tables lines_list join_field_list ii v idxs m = Ok found.
Proof.
  intros [Hjf Hrows]%in_bounds_lookup Hlen. revert m.
  induction idxs as [|i idxs IH]; intros m Hidxs; simpl; [eauto|].
  apply Forall_cons in Hidxs as [Hi Hidxs].
  destruct (lookup_lt_is_Some_2 ii i) as [c Hc]; [lia|].
  destruct (lookup_lt_is_Some_2 lines_list i) as [lines Hl]; [lia|].
  destruct (lookup_lt_is_Some_2 join_field_list i) as [col Hcol]; [lia|].
  unfold getitem. rewrite Hc. simpl. rewrite Hl. simpl.
  destruct (scan_in_bounds i v (drop c lines) c col Hcol) as [found ->].
  { apply Forall_forall. intros line Hin.
    apply (Hrows i lines col line Hl Hcol).
    by apply (subseteq_drop c lines). }
  simpl. destruct found; eauto.
Qed.

Lemma step_in_bounds ii match_list c0 lines0 :
  in_bounds lines_list join_field_list → length ii = N →
  ii !! 0 = Some c0 → lines_list !! 0 = Some lines0 → c0 < length lines0 →
  ∃ st, step lines_list join_field_list ii match_list = Ok st.
Proof.
  intros Hin Hlen Hc0 Hl0 Hlt.
  pose proof (in_bounds_lookup Hin) as [Hjf Hrows].
  assert (HN : 0 < N) by (by eapply lookup_lt_Some).
  destruct (lookup_lt_is_Some_2 lines0 c0 Hlt) as [line Hline].
  destruct (lookup_lt_is_Some_2 join_field_list 0) as [col0 Hcol0]; [lia|].
  assert (Hcell : col0 < length line).
  { apply (Hrows 0 lines0 col0 line Hl0 Hcol0).
    by eapply list_elem_of_lookup_2. }
  destruct (lookup_lt_is_Some_2 line col0 Hcell) as [v Hv].
  destruct (for_tables_in_bounds ii v (seq 1 (N - 1)) [c0] Hin Hlen)
    as [found Hfound].
  { apply Forall_forall. intros i [_ Hi]%elem_of_seq. lia. }
  unfold step, candidate.
  read_item Hl0. read_item Hc0. read_item Hline. read_item Hcol0.
  read_item Hv. rewrite Hfound, Ok_bind.
  destruct found; eauto.
Qed.

Lemma while_loop_in_bounds fuel ii match_list e :
  in_bounds lines_list join_field_list → 0 < N →
  matcher_inv lines_list join_field_list ii match_list →
  while_loop lines_list join_field_list fuel ii match_list ≠ Raise e.
Proof.
  intros Hin HN. revert ii match_list.
  induction fuel as [|fuel IH]; intros ii match_list Inv; simpl; [done|].
  pose proof (inv_length _ _ _ _ Inv) as Hlen.
  destruct (no_finished_list_Ok ii Hlen HN) as [go Hgo]. rewrite Hgo. simpl.
  destruct go; [|done].
  destruct (lookup_lt_is_Some_2 ii 0) as [c0 Hc0]; [lia|].
  destruct (lookup_lt_is_Some_2 lines_list 0) as [lines0 Hl0]; [lia|].
  pose proof (no_finished_list_true ii Hgo 0 c0 lines0 Hc0 Hl0) as Hlt.
  destruct (step_in_bounds ii match_list c0 lines0 Hin Hlen Hc0 Hl0 Hlt)
    as [[ii' match_list'] Hstep].
  rewrite Hstep. simpl. apply IH. by eapply step_inv.
Qed.

Lemma until_table0_end_in_bounds fuel ii match_list e :
  in_bounds lines_list join_field_list → 0 < N →
  matcher_inv lines_list join_field_list ii match_list →
  until_table0_end lines_list join_field_list fuel ii match_list ≠ Raise e.
Proof.
  intros Hin HN. revert ii match_list.
  induction fuel as [|fuel IH]; intros ii match_list Inv; simpl; [done|].
  pose proof (inv_length _ _ _ _ Inv) as Hlen.
  destruct (lookup_lt_is_Some_2 ii 0) as [c0 Hc0]; [lia|].
  destruct (lookup_lt_is_Some_2 lines_list 0) as [lines0 Hl0]; [lia|].
  unfold table0_unfinished, getitem. rewrite Hc0, Hl0. simpl.
  destruct (c0 <? length lines0) eqn:Hlt; [|done].
  apply Nat.ltb_lt in Hlt.
  destruct (step_in_bounds ii match_list c0 lines0 Hin Hlen Hc0 Hl0 Hlt)
    as [[ii' match_list'] Hstep].
  rewrite Hstep. simpl. apply IH. by eapply step_inv.
Qed.

Lemma get_match_list_in_bounds :
  in_bounds lines_list join_field_list → 0 < N →
  ∃ match_list, get_match_list lines_list join_field_list = Ok match_list.
Proof.
  intros Hin HN. pose proof get_match_list_returns_or_raises as Hr.
  destruct (get_match_list lines_list join_field_list) as [ml|e| |] eqn:E;
    [eauto| |done|done].
  exfalso. eapply while_loop_in_bounds; [done|done| |exact E].
  apply matcher_inv_init.
Qed.

Lemma match_list_until_table0_end_in_bounds :
  in_bounds lines_list join_field_list → 0 < N →
  ∃ match_list,
    match_list_until_table0_end lines_list join_field_list = Ok match_list.
Proof.
  intros Hin HN.
  pose proof match_list_until_table0_end_returns_or_raises as Hr.
  destruct (match_list_until_table0_end lines_list join_field_list)
    as [ml|e| |] eqn:E; [eauto| |done|done].
  exfalso. eapply until_table0_end_in_bounds; [done|done| |exact E].
  apply matcher_inv_init.
Qed.

(** *** Stopping at the end of any table, or of table 0 only *)

(** Once a later table is exhausted no candidate is complete. *)
Lemma exhausted_no_candidate ii found :
  exhausted lines_list ii →
  candidate lines_list join_field_list ii = Ok found → found = None.
Proof.
  intros (i & c & lines & Hi & Hc & Hl & Hle) Hcand.
  destruct found as [m|]; [exfalso|done].
  apply candidate_Some in Hcand as [(v & Hlen & Hm) _].
  destruct (lookup_lt_is_Some_2 m i) as [r Hr].
  { rewrite Hlen. by eapply lookup_lt_Some. }
  destruct (Hm i r Hr) as [Hcell (c' & Hc' & Hle')].
  rewrite Hc in Hc'. injection Hc' as <-.
  pose proof (join_cell_row_lt _ _ _ _ Hcell Hl). lia.
Qed.

Lemma until_table0_end_exhausted fuel ii match_list res :
  exhausted lines_list ii →
  until_table0_end lines_list join_field_list fuel ii match_list = Ok res →
  res = match_list.
Proof.
  revert ii match_list.
  induction fuel as [|fuel IH]; intros ii match_list Hex H; simpl in H;
    [done|].
  apply bind_Ok in H as (go & _ & H). destruct go; [|by injection H].
  apply bind_Ok in H as ([ii' match_list'] & Hstep & H).
  unfold step in Hstep. apply bind_Ok in Hstep as (found & Hcand & Hstep).
  rewrite (exhausted_no_candidate ii found Hex Hcand) in Hstep.
  apply bind_Ok in Hstep as (c0 & Hc0 & [= <- <-]).
  eapply IH; [|exact H].
  destruct Hex as (i & c & lines & Hi & Hc & Hl & Hle).
  exists i, c, lines. repeat split; try done.
  rewrite list_lookup_insert_ne by lia. done.
Qed.

(** The table-0 guard holds whenever the guard of the code does; where
    only the former holds, a later table is exhausted. *)
Lemma guards_agree ii go go0 :
  no_finished_list lines_list ii = Ok go →
  table0_unfinished lines_list ii = Ok go0 →
  (go = true → go0 = true) ∧
  (go = false → go0 = true → exhausted lines_list ii).
Proof.
  intros Hgo Hgo0. unfold table0_unfinished in Hgo0.
  apply bind_Ok in Hgo0 as (c0 & Hc0%getitem_Ok & Hgo0).
  apply bind_Ok in Hgo0 as (lines0 & Hl0%getitem_Ok & [= <-]).
  split.
  - intros ->. apply Nat.ltb_lt.
    by eapply (no_finished_list_true ii Hgo 0).
  - intros -> Hlt%Nat.ltb_lt.
    apply no_finished_list_false in Hgo as (i & c & lines & Hc & Hl & Hle).
    exists i, c, lines. repeat split; try done.
    destruct i; [|lia]. rewrite Hc0 in Hc. injection Hc as <-.
    rewrite Hl0 in Hl. injection Hl as <-. lia.
Qed.

Lemma until_table0_end_while_loop fuel ii match_list res :
  matcher_inv lines_list join_field_list ii match_list →
  until_table0_end lines_list join_field_list fuel ii match_list = Ok res →
  while_loop lines_list join_field_list fuel ii match_list = Ok res.
Proof.
  revert ii match_list.
  induction fuel as [|fuel IH]; intros ii match_list Inv H; [done|].
  pose proof H as Hall. simpl in H.
  apply bind_Ok in H as (go0 & Hgo0 & H).
  assert (HN : 0 < N).
  { unfold table0_unfinished in Hgo0.
    apply bind_Ok in Hgo0 as (c0 & Hc0%getitem_Ok & _).
    apply lookup_lt_Some in Hc0. rewrite <- (inv_length _ _ _ _ Inv). done. }
  destruct (no_finished_list_Ok ii (inv_length _ _ _ _ Inv) HN) as [go Hgo].
  destruct (guards_agree ii go go0 Hgo Hgo0) as [Htrue Hfalse].
  simpl. rewrite Hgo. simpl. destruct go.
  - rewrite (Htrue eq_refl) in H.
    apply bind_Ok in H as ([ii' match_list'] & Hstep & H).
    rewrite Hstep. simpl. apply IH; [|done]. by eapply step_inv.
  - destruct go0.
    + f_equal. symmetry.
      by eapply until_table0_end_exhausted; [apply Hfalse|exact Hall].
    + done.
Qed.

End matcher_facts.

(** ** Claims about the join matcher *)

Lemma get_match_list_Ok_nonempty lines_list join_field_list match_list :
  get_match_list lines_list join_field_list = Ok match_list →
  0 < length lines_list.
Proof.
  destruct lines_list; [discriminate|]. simpl. lia.
Qed.

Lemma smallest_row_count_le (lines_list : list table) n :
  lines_list ≠ [] → Forall (λ lines : table, n ≤ length lines) lines_list →
  n ≤ smallest_row_count lines_list.
Proof.
  destruct lines_list as [|lines rest]; [done|]. intros _.
  intros [Hl Hrest]%Forall_cons. simpl.
  induction Hrest as [|t rest Ht Hrest IH]; simpl; lia.
Qed.

(** C2 (amended).  [get_match_list] stops as soon as any cursor reaches
    the end of its table.  Whenever the procedure that stops only when the
    cursor of table 0 reaches the end of table 0 yields a match list,
    [get_match_list] yields the same one; and on tables whose rows all hold
    their join column both yield a match list, the same. *)
Theorem get_match_list_until_table0_end lines_list join_field_list :
  (∀ match_list,
     match_list_until_table0_end lines_list join_field_list = Ok match_list →
     get_match_list lines_list join_field_list = Ok match_list) ∧
  (in_bounds lines_list join_field_list → lines_list ≠ [] →
   ∃ match_list,
     get_match_list lines_list join_field_list = Ok match_list ∧
     match_list_until_table0_end lines_list join_field_list = Ok match_list).
Proof.
  assert (Hto : ∀ match_list,
     match_list_until_table0_end lines_list join_field_list = Ok match_list →
     get_match_list lines_list join_field_list = Ok match_list).
  { intros match_list H. apply until_table0_end_while_loop; [|exact H].
    apply matcher_inv_init. }
  split; [exact Hto|]. intros Hin Hne.
  assert (HN : 0 < length lines_list) by (destruct lines_list; simpl; [done|lia]).
  destruct (match_list_until_table0_end_in_bounds _ _ Hin HN) as [ml Hml].
  exists ml. split; [by apply Hto | done].
Qed.

Lemma get_match_list_until_table0_end_witness :
  get_match_list ScenarioA.lines_list [0; 0] = Ok [[0; 1]] ∧
  ∃ match_list,
    get_match_list ScenarioA.lines_list [0; 0] = Ok match_list ∧
    match_list_until_table0_end ScenarioA.lines_list [0; 0] = Ok match_list.
Proof.
  split.
  - apply (proj1 (get_match_list_until_table0_end ScenarioA.lines_list [0; 0])).
    reflexivity.
  - apply (proj2 (get_match_list_until_table0_end ScenarioA.lines_list [0; 0])).
    + compute_done.
    + discriminate.
Defined.

(** C3.  The number of match tuples returned by [get_match_list] is at most
    the row count of the smallest input table; and on tables whose join
    columns are in bounds [get_match_list] does return a match list. *)
Theorem match_count_le_smallest_table lines_list join_field_list :
  (∀ match_list,
     get_match_list lines_list join_field_list = Ok match_list →
     length match_list ≤ smallest_row_count lines_list) ∧
  (in_bounds lines_list join_field_list → lines_list ≠ [] →
   ∃ match_list, get_match_list lines_list join_field_list = Ok match_list).
Proof.
  split.
  - intros match_list H.
    pose proof (get_match_list_Ok_nonempty _ _ _ H) as HN.
    apply get_match_list_inv in H as [ii Inv].
    apply smallest_row_count_le; [intros ->; simpl in HN; lia|].
    apply Forall_lookup. intros i lines Hl.
    destruct (lookup_lt_is_Some_2 ii i) as [c Hc].
    { rewrite (inv_length _ _ _ _ Inv). by eapply lookup_lt_Some. }
    pose proof (inv_count _ _ _ _ Inv i c Hc).
    pose proof (inv_cursor _ _ _ _ Inv i c lines Hc Hl). lia.
  - intros Hin Hne. apply get_match_list_in_bounds; [done|].
    destruct lines_list; simpl; [done|lia].
Qed.

Lemma match_count_le_smallest_table_witness :
  length [[0; 1]] ≤ smallest_row_count ScenarioA.lines_list ∧
  ∃ match_list, get_match_list ScenarioA.lines_list [0; 0] = Ok match_list.
Proof.
  split.
  - apply (proj1 (match_count_le_smallest_table ScenarioA.lines_list [0; 0])).
    reflexivity.
  - apply (proj2 (match_count_le_smallest_table ScenarioA.lines_list [0; 0])).
    + compute_done.
    + discriminate.
Defined.

(** C4.  Every match tuple emitted by [get_match_list] has one row index per
    table, and the join cell of table [i] at row [match[i]] is the same
    string as the join cell of table 0 at row [match[0]], for every [i]. *)
Theorem match_join_cells_equal lines_list join_field_list match_list m :
  get_match_list lines_list join_field_list = Ok match_list →
  m ∈ match_list →
  length m = length lines_list ∧
  ∃ v r0, m !! 0 = Some r0 ∧
    join_cell lines_list join_field_list 0 r0 = Some v ∧
    ∀ i, i < length lines_list →
      ∃ r, m !! i = Some r ∧ join_cell lines_list join_field_list i r = Some v.
Proof.
  intros H Hin. pose proof (get_match_list_Ok_nonempty _ _ _ H) as HN.
  apply get_match_list_inv in H as [ii Inv].
  destruct (inv_valid _ _ _ _ Inv m Hin) as (v & Hlen & Hm).
  split; [done|].
  destruct (lookup_lt_is_Some_2 m 0) as [r0 Hr0]; [lia|].
  exists v, r0. split; [done|]. split; [by apply Hm|].
  intros i Hi. destruct (lookup_lt_is_Some_2 m i) as [r Hr]; [lia|].
  exists r. split; [done|]. by apply Hm.
Qed.

Lemma match_join_cells_equal_witness :
  length [0; 1] = length ScenarioA.lines_list ∧
  ∃ v r0, [0; 1] !! 0 = Some r0 ∧
    join_cell ScenarioA.lines_list [0; 0] 0 r0 = Some v ∧
    ∀ i, i < length ScenarioA.lines_list →
      ∃ r, [0; 1] !! i = Some r ∧
        join_cell ScenarioA.lines_list [0; 0] i r = Some v.
Proof.
  apply (match_join_cells_equal ScenarioA.lines_list [0; 0] [[0; 1]]).
  - reflexivity.
  - apply list_elem_of_singleton. reflexivity.
Defined.

(** C10.  In the match list of [get_match_list] the row indices increase
    strictly in every coordinate, from each tuple to the next and so to
    every later one; hence no row of any table is in two match tuples. *)
Theorem match_rows_strictly_increase lines_list join_field_list match_list :
  get_match_list lines_list join_field_list = Ok match_list →
  (∀ k m m', match_list !! k = Some m → match_list !! (S k) = Some m' →
     ∀ i, i < length lines_list →
       ∃ a b, m !! i = Some a ∧ m' !! i = Some b ∧ a < b) ∧
  (∀ p q m m', p ≠ q → match_list !! p = Some m → match_list !! q = Some m' →
     ∀ i a b, m !! i = Some a → m' !! i = Some b → a ≠ b).
Proof.
  intros H. apply get_match_list_inv in H as [ii Inv].
  assert (Hlen : ∀ k m, match_list !! k = Some m → length m = length lines_list).
  { intros k m Hk. apply list_elem_of_lookup_2 in Hk.
    by destruct (inv_valid _ _ _ _ Inv m Hk) as (v & Hlen & _). }
  split.
  - intros k m m' Hk Hk' i Hi.
    destruct (lookup_lt_is_Some_2 m i) as [a Ha].
    { by rewrite (Hlen k m Hk). }
    destruct (lookup_lt_is_Some_2 m' i) as [b Hb].
    { by rewrite (Hlen (S k) m' Hk'). }
    exists a, b. repeat split; try done.
    apply (inv_sorted _ _ _ _ Inv k (S k) m m' ltac:(lia) Hk Hk' i a b Ha Hb).
  - intros p q m m' Hpq Hp Hq i a b Ha Hb.
    destruct (decide (p < q)) as [Hlt|Hge].
    + pose proof (inv_sorted _ _ _ _ Inv p q m m' Hlt Hp Hq i a b Ha Hb). lia.
    + assert (Hlt : q < p) by lia.
      pose proof (inv_sorted _ _ _ _ Inv q p m' m Hlt Hq Hp i b a Hb Ha). lia.
Qed.

Lemma match_rows_strictly_increase_witness :
  (∀ k m m', [[0; 1]; [1; 2]] !! k = Some m →
     [[0; 1]; [1; 2]] !! (S k) = Some m' →
     ∀ i, i < 2 → ∃ a b, m !! i = Some a ∧ m' !! i = Some b ∧ a < b) ∧
  (∀ p q m m', p ≠ q → [[0; 1]; [1; 2]] !! p = Some m →
     [[0; 1]; [1; 2]] !! q = Some m' →
     ∀ i a b, m !! i = Some a → m' !! i = Some b → a ≠ b).
Proof.
  apply (match_rows_strictly_increase
           [[["a"]; ["b"]]; [["x"]; ["a"]; ["b"]]] [0; 0]).
  reflexivity.
Defined.

(** ** Scenario A *)

(** C1.  In scenario A the join fields are column 0 of both tables, the
    matcher emits the single tuple (row 0 of table 0, row 1 of table 1), and
    the output is the single row [NYC,8,300].  After that tuple the cursor of
    table 1 is 2, past its [LA] row (row 0) and at the end of the table: the
    loop stops there, and from these cursors the row [LA] of table 0 would
    find no candidate. *)
Theorem scenario_A :
  get_field_list 2 ScenarioA_main.join ScenarioA.colnames_list = Ok [0; 0] ∧
  get_match_list ScenarioA.lines_list [0; 0] = Ok [[0; 1]] ∧
  main ScenarioA_main.inputs ScenarioA_main.join ScenarioA_main.out_cols started
    = ({| matched := Some [[0; 1]];
          written := Some ["NYC,8,300" +:+ newline] |}, Ok ()) ∧
  step ScenarioA.lines_list [0; 0] [0; 0] [] = Ok ([1; 2], [[0; 1]]) ∧
  no_finished_list ScenarioA.lines_list [1; 2] = Ok false ∧
  candidate ScenarioA.lines_list [0; 0] [1; 2] = Ok None.
Proof. repeat split; vm_compute; reflexivity. Qed.

(** ** Errors of the configuration *)

(** C6.  When the join list has not as many entries as there are input
    files, [main] ends with the [AssertionError] of [get_field_list] (the
    specification's configuration error), before any match list is computed
    and before the output file is opened.  Without the option [--join] the
    join list is [None]: [main] ends as early, but with the [TypeError] of
    [len(None)], which the condition of the assertion raises before the
    assertion can fail. *)
Theorem join_list_length_mismatch inputs out_cols :
  (∀ join_list,
     length join_list ≠ length inputs →
     main inputs (Some join_list) out_cols started
       = (started, Raise (AssertionError one_entry_per_file))) ∧
  main inputs None out_cols started = (started, Raise TypeError).
Proof.
  split; [|reflexivity].
  intros join_list Hne. unfold main, then_, lift, get_field_list.
  destruct (length inputs =? length join_list) eqn:E; [|done].
  apply Nat.eqb_eq in E. congruence.
Qed.

Lemma join_list_length_mismatch_witness :
  main ScenarioA_main.inputs (Some ["0:city"]) ScenarioA_main.out_cols started
    = (started, Raise (AssertionError one_entry_per_file)) ∧
  main ScenarioA_main.inputs None ScenarioA_main.out_cols started
    = (started, Raise TypeError).
Proof.
  split.
  - apply (proj1 (join_list_length_mismatch ScenarioA_main.inputs
                    ScenarioA_main.out_cols) ["0:city"]).
    simpl. lia.
  - apply (proj2 (join_list_length_mismatch ScenarioA_main.inputs
                    ScenarioA_main.out_cols)).
Defined.

(** ** Output columns that name a file that is not there *)

Lemma getitem_int_out_of_range {A} (l : list A) (n : Z) :
  (n < - Z.of_nat (length l) ∨ Z.of_nat (length l) ≤ n)%Z →
  getitem_int l n = Raise IndexError.
Proof.
  intros Hn. unfold getitem_int.
  destruct (0 <=? n)%Z eqn:E0.
  - apply Z.leb_le in E0. unfold getitem.
    rewrite lookup_ge_None_2; [done|lia].
  - apply Z.leb_gt in E0.
    destruct (- Z.of_nat (length l) <=? n)%Z eqn:E1; [|done].
    apply Z.leb_le in E1. lia.
Qed.

Lemma parse_column_name_out_of_range group colnames_list :
  file_index_out_of_range group (length colnames_list) →
  parse_column_name group colnames_list = Raise IndexError.
Proof.
  intros (i & field & n & Hsplit & Hint & Hn).
  unfold parse_column_name. rewrite Hsplit, Hint. simpl.
  by rewrite getitem_int_out_of_range.
Qed.

Lemma except_ValueError_returns_or_raises {A} colname (o : outcome A) :
  returns_or_raises o → returns_or_raises (except_ValueError colname o).
Proof. destruct o as [a|e| |]; try done. by destruct e. Qed.

(** [mapM] raises as soon as one element does. *)
Lemma mapM_Raise {A B} (f : A → outcome B) l1 x l2 e :
  Forall (λ y, returns_or_raises (f y)) l1 → f x = Raise e →
  ∃ e', mapM f (l1 ++ x :: l2) = Raise e'.
Proof.
  intros Hl1 Hx. induction Hl1 as [|y l1 Hy Hl1 [e' IH]]; simpl.
  - rewrite Hx. eauto.
  - destruct (f y) as [b|e0| |]; simpl; try done; [|eauto].
    rewrite IH. eauto.
Qed.

Lemma Expression_init_groups colname colnames_list :
  Expression_init colname colnames_list =
  (l ← mapM (λ group, except_ValueError group
                        (parse_column_name group colnames_list))
            (groups colname);
   if is_column_name colname then
     match l with
     | [p] => Ok {| expr_ := ""; pars_ := ParsPair p |}
     | _ => Unsupported
     end
   else
     Ok {| expr_ := foldl (λ colname '(i, j),
                             str_take i colname +:+ "{}" +:+ str_drop j colname)
                          colname (reverse (finditer colname));
           pars_ := ParsList l |}).
Proof.
  unfold Expression_init, groups. destruct (is_column_name colname).
  - simpl.
    by destruct (except_ValueError colname
                   (parse_column_name colname colnames_list)).
  - f_equal. generalize (finditer colname). intros spans.
    induction spans as [|[i j] spans IH]; simpl; [done|].
    by rewrite IH.
Qed.

Lemma Expression_init_out_of_range colname colnames_list before group after :
  groups colname = before ++ group :: after →
  Forall (λ g, returns_or_raises (parse_column_name g colnames_list)) before →
  file_index_out_of_range group (length colnames_list) →
  ∃ e, Expression_init colname colnames_list = Raise e.
Proof.
  intros Hgroups Hbefore Hrange.
  rewrite Expression_init_groups, Hgroups.
  destruct (mapM_Raise
              (λ g, except_ValueError g (parse_column_name g colnames_list))
              before group after IndexError) as [e He].
  - eapply Forall_impl; [exact Hbefore|].
    intros g Hg. by apply except_ValueError_returns_or_raises.
  - by rewrite parse_column_name_out_of_range.
  - rewrite He. eauto.
Qed.

Lemma mapM_Ok_then_Raise {A B} (f : A → outcome B) l1 k x l2 e :
  mapM f l1 = Ok k → f x = Raise e → mapM f (l1 ++ x :: l2) = Raise e.
Proof.
  revert k. induction l1 as [|y l1 IH]; intros k Hl1 Hx; simpl.
  - by rewrite Hx.
  - simpl in Hl1. apply bind_Ok in Hl1 as (b & Hy & Hl1).
    apply bind_Ok in Hl1 as (k' & Hk' & _).
    rewrite Hy. simpl. by rewrite (IH k' Hk' Hx).
Qed.

(** C5 (amended).  When an output-column spec holds a reference whose file
    index is no index into the list of input tables, constructing its
    [Expression] fails with an exception; [main] ends with that exception
    after the join fields are resolved and the match list is computed,
    before the output file is opened and before any row is evaluated. *)
Theorem out_col_file_index_out_of_range
    inputs join out_cols_before colname out_cols_after
    before group after join_field_list match_list expr_list :
  get_field_list (length inputs) join (inputs.*1) = Ok join_field_list →
  get_match_list (inputs.*2) join_field_list = Ok match_list →
  mapM (λ c, Expression_init c (inputs.*1)) out_cols_before = Ok expr_list →
  groups colname = before ++ group :: after →
  Forall (λ g, returns_or_raises (parse_column_name g (inputs.*1))) before →
  file_index_out_of_range group (length inputs) →
  ∃ e,
    Expression_init colname (inputs.*1) = Raise e ∧
    main inputs join (out_cols_before ++ colname :: out_cols_after) started
      = ({| matched := Some match_list; written := None |}, Raise e).
Proof.
  intros Hfields Hmatch Hexprs Hgroups Hbefore Hrange.
  destruct (Expression_init_out_of_range colname (inputs.*1)
              before group after Hgroups Hbefore) as [e He].
  { by rewrite length_fmap. }
  exists e. split; [done|].
  unfold main, then_, lift. rewrite Hfields, Hmatch. simpl.
  by rewrite (mapM_Ok_then_Raise _ _ _ _ _ _ Hexprs He).
Qed.

Lemma out_col_file_index_out_of_range_witness :
  ∃ e,
    Expression_init "2:city" ScenarioA.colnames_list = Raise e ∧
    main ScenarioA_main.inputs ScenarioA_main.join
         (["0:city"] ++ "2:city" :: ["1:area"]) started
      = ({| matched := Some [[0; 1]]; written := None |}, Raise e).
Proof.
  apply (out_col_file_index_out_of_range
           ScenarioA_main.inputs ScenarioA_main.join
           ["0:city"] "2:city" ["1:area"] [] "2:city" [] [0; 0] [[0; 1]]
           [{| expr_ := ""; pars_ := ParsPair (0%Z, 0) |}]).
  - reflexivity.
  - reflexivity.
  - reflexivity.
  - reflexivity.
  - constructor.
  - exists "2", "city", 2%Z. repeat split; simpl; lia.
Defined.

(** C5, as the specification states it, fails on the code: for [2:city] and
    two input files the list lookup [colnames_list[2]] raises [IndexError],
    which [except ValueError] does not catch, so the error is not the
    unknown-column error; and [main] has computed the match list by then. *)
Lemma unknown_file_index_counterexample :
  Expression_init "2:city" ScenarioA.colnames_list = Raise IndexError ∧
  (∀ c, Expression_init "2:city" ScenarioA.colnames_list
        ≠ Raise (UnknownColumn c)) ∧
  main ScenarioA_main.inputs ScenarioA_main.join ["2:city"] started
    = ({| matched := Some [[0; 1]]; written := None |}, Raise IndexError).
Proof. repeat split; try done. Qed.

(** ** Formulas: lexing the text that [format] builds *)

Lemma chars_app (a b : string) : chars (a +:+ b) = chars a ++ chars b.
Proof. induction a as [|c a IH]; simpl; [done|]. by rewrite <- IH. Qed.

Lemma str_of_chars (s : string) : str_of (chars s) = s.
Proof. apply String.string_of_list_ascii_of_string. Qed.

(** The template [{} + {}] with two cells. *)
Lemma format_sum (x y : string) :
  format (chars "{} + {}") [x; y] = Ok (x +:+ " + " +:+ y +:+ "").
Proof. reflexivity. Qed.

(** A run of word characters is read into the word. *)
Lemma lex_word w rest word :
  Forall (λ c, is_word_char c = true) w →
  lex (w ++ rest) word = lex rest (reverse w ++ word).
Proof.
  intros Hw. revert word. induction Hw as [|c w Hc Hw IH]; intros word.
  - done.
  - simpl. rewrite Hc, IH, reverse_cons, <- app_assoc. done.
Qed.

(** An integer literal is made of word characters. *)
Lemma digitpart_go_spec p w ds rest :
  digitpart_go p w = (ds, rest) →
  ∃ u, w = u ++ rest ∧ Forall (λ c, p c = true ∨ code c = 95%N) u.
Proof.
  revert ds rest. induction w as [|c w IH]; intros ds rest; simpl.
  - intros [= <- <-]. by exists [].
  - destruct (p c) eqn:Ep.
    + destruct (digitpart_go p w) as [ds' rest'] eqn:E. intros [= <- <-].
      destruct (IH _ _ eq_refl) as (u & -> & Hu).
      exists (c :: u). split; [done|]. constructor; [by left|done].
    + destruct (code c =? 95)%N eqn:Ec.
      * destruct w as [|d w']; [intros [= <- <-]; by exists []|].
        destruct (p d) eqn:Ed.
        -- intros H. destruct (IH _ _ H) as (u & Hw & Hu).
           exists (c :: u). rewrite Hw. split; [done|].
           constructor; [right; by apply N.eqb_eq|done].
        -- intros [= <- <-]. by exists [].
      * intros [= <- <-]. by exists [].
Qed.

Lemma digitpart_all p w ds :
  digitpart p w = Some (ds, []) →
  Forall (λ c, p c = true ∨ code c = 95%N) w.
Proof.
  unfold digitpart. destruct w as [|c w]; [done|].
  destruct (p c); [|done]. intros [= H].
  destruct (digitpart_go_spec p (c :: w) ds [] H) as (u & -> & Hu).
  by rewrite app_nil_r.
Qed.

Lemma word_char_digit c : is_digit c = true ∨ code c = 95%N → is_word_char c = true.
Proof.
  unfold is_word_char. intros [-> | ->]; [done|]. by rewrite orb_true_r.
Qed.

Lemma hex_digit_word_char c : is_hex_digit c = true → is_word_char c = true.
Proof. by destruct c as [[] [] [] [] [] [] [] []]. Qed.

Lemma oct_digit_digit c : is_oct_digit c = true → is_digit c = true.
Proof. by destruct c as [[] [] [] [] [] [] [] []]. Qed.

Lemma bin_digit_digit c : is_bin_digit c = true → is_digit c = true.
Proof. by destruct c as [[] [] [] [] [] [] [] []]. Qed.

Lemma radix_literal_word base p w z :
  (∀ c, p c = true → is_word_char c = true) →
  radix_literal base p w = Some z → Forall (λ c, is_word_char c = true) w.
Proof.
  intros Hp. unfold radix_literal.
  assert (Hall : ∀ u ds, digitpart p u = Some (ds, []) →
                 Forall (λ c, is_word_char c = true) u).
  { intros u ds H. eapply Forall_impl; [exact (digitpart_all _ _ _ H)|].
    intros c [Hc | Hc]; [by apply Hp|].
    unfold is_word_char. rewrite Hc. by rewrite orb_true_r. }
  destruct w as [|c w].
  - done.
  - destruct (code c =? 95)%N eqn:Ec.
    + destruct (digitpart p w) as [[ds [|]]|] eqn:E; try done. intros _.
      constructor; [|by eapply Hall].
      apply N.eqb_eq in Ec. unfold is_word_char. rewrite Ec.
      by rewrite orb_true_r.
    + destruct (digitpart p (c :: w)) as [[ds [|]]|] eqn:E; try done.
      intros _. by eapply Hall.
Qed.

Lemma number_literal_int_word w z :
  number_literal w = Some (LInt z) → Forall (λ c, is_word_char c = true) w.
Proof.
  unfold number_literal. destruct w as [|c w]; [done|].
  destruct (code c =? 46)%N; [by destruct (fraction [] w)|].
  assert (Hdec :
    match digitpart is_digit (c :: w) with
    | Some (ds, []) =>
        if (negb (code c =? 48)%N || forallb (λ d, (code d =? 48)%N) ds)
           && (length ds <=? max_str_digits)
        then Some (LInt (digits_to_Z ds)) else None
    | Some (ds, x :: rest) =>
        if (code x =? 46)%N then LFloat <$> fraction ds rest
        else LFloat <$> float_tail ds [] (x :: rest)
    | None => None
    end = Some (LInt z) → Forall (λ c, is_word_char c = true) (c :: w)).
  { destruct (digitpart is_digit (c :: w)) as [[ds [|x rest]]|] eqn:E;
      [| |done].
    - intros _. eapply Forall_impl; [exact (digitpart_all _ _ _ E)|].
      intros d. apply word_char_digit.
    - destruct (code x =? 46)%N;
        [by destruct (fraction ds rest)|by destruct (float_tail ds [] _)]. }
  assert (Hc0 : ∀ x, (code c =? 48)%N = true →
                (code x =? 120)%N || (code x =? 88)%N
                || (code x =? 111)%N || (code x =? 79)%N
                || (code x =? 98)%N || (code x =? 66)%N = true →
                is_word_char c = true ∧ is_word_char x = true).
  { intros x Hc Hx. split.
    - revert Hc. by destruct c as [[] [] [] [] [] [] [] []].
    - revert Hx. by destruct x as [[] [] [] [] [] [] [] []]. }
  destruct w as [|x w']; [exact Hdec|].
  destruct (code c =? 48)%N eqn:Ec; [|exact Hdec]. cbn [negb].
  destruct (code x =? 120)%N eqn:E1; [|destruct (code x =? 88)%N eqn:E2];
    [| |destruct (code x =? 111)%N eqn:E3; [|destruct (code x =? 79)%N eqn:E4];
        [| |destruct (code x =? 98)%N eqn:E5; [|destruct (code x =? 66)%N eqn:E6];
            [| |exact Hdec]]];
    cbn [orb];
    (destruct (radix_literal _ _ w') as [z'|] eqn:Er; [|done]; intros _;
     destruct (Hc0 x eq_refl) as [H1 H2];
       [by rewrite ?E1, ?E2, ?E3, ?E4, ?E5, ?E6, ?orb_true_r|];
     constructor; [done|]; constructor; [done|];
     eapply radix_literal_word; [|exact Er]; intros d Hd).
  all: first [ by apply hex_digit_word_char
             | apply word_char_digit; left; by apply oct_digit_digit
             | apply word_char_digit; left; by apply bin_digit_digit ].
Qed.

Lemma classify_TNum_word w z :
  classify w = Ok (TNum z) → Forall (λ c, is_word_char c = true) w.
Proof.
  unfold classify. destruct w as [|c w]; [done|].
  destruct (is_digit c || (code c =? 46)%N) eqn:Ec.
  - destruct (number_literal (c :: w)) as [[z'|f]|] eqn:E; try done.
    intros _. by eapply number_literal_int_word.
  - repeat case_match; congruence.
Qed.

(** The tokens of a text that has a blank in it: those of the text before
    the blank, then those of the text after it. *)
Lemma flush_then word m r :
  then_tokens (flush word m) r = flush word (then_tokens m r).
Proof.
  unfold flush, then_tokens. destruct word as [|c word]; [done|].
  destruct (classify (reverse (c :: word))); try done.
  destruct m; try done. simpl. by destruct r.
Qed.

Lemma op_then o m r :
  then_tokens (ts ← m; mret (TOp o :: ts)) r
  = (ts ← then_tokens m r; mret (TOp o :: ts)).
Proof. unfold then_tokens. destruct m; try done. simpl. by destruct r. Qed.

Lemma paren_then t m r :
  then_tokens (ts ← m; mret (t :: ts)) r
  = (ts ← then_tokens m r; mret (t :: ts)).
Proof. unfold then_tokens. destruct m; try done. simpl. by destruct r. Qed.

Lemma exponent_sign_blank word a rest :
  exponent_sign word (a ++ " "%char :: rest) = exponent_sign word a.
Proof.
  unfold exponent_sign. destruct word as [|e m]; [done|].
  destruct a as [|d a]; [|done]. simpl.
  by rewrite andb_false_r.
Qed.

Lemma then_tokens_nil r : then_tokens (Ok []) r = r.
Proof. by destruct r. Qed.

Lemma lex_blank_nil rest word :
  lex (" "%char :: rest) word = then_tokens (lex [] word) (lex rest []).
Proof.
  change (lex (" "%char :: rest) word) with (flush word (lex rest [])).
  change (lex [] word) with (flush word (Ok [])).
  by rewrite flush_then, then_tokens_nil.
Qed.

Lemma lex_blank_length n a rest word :
  length a ≤ n →
  lex (a ++ " "%char :: rest) word = then_tokens (lex a word) (lex rest []).
Proof.
  revert a word. induction n as [|n IH]; intros a word Hn.
  - destruct a; [|simpl in Hn; lia]. apply lex_blank_nil.
  - destruct a as [|c a]; [apply lex_blank_nil|].
    simpl in Hn. assert (Ha : length a ≤ n) by lia.
    cbn [app]. cbn [lex].
    destruct (is_word_char c); [by apply IH|].
    destruct ((code c =? 32)%N || (code c =? 9)%N).
    { rewrite flush_then. by rewrite IH. }
    destruct (code c =? 43)%N.
    { rewrite exponent_sign_blank. destruct (exponent_sign word a).
      - by apply IH.
      - rewrite flush_then, op_then. by rewrite IH. }
    destruct (code c =? 45)%N.
    { rewrite exponent_sign_blank. destruct (exponent_sign word a).
      - by apply IH.
      - rewrite flush_then, op_then. by rewrite IH. }
    destruct (code c =? 37)%N.
    { rewrite flush_then, op_then. by rewrite IH. }
    destruct (code c =? 94)%N.
    { rewrite flush_then, op_then. by rewrite IH. }
    destruct (code c =? 40)%N.
    { rewrite flush_then, paren_then. by rewrite IH. }
    destruct (code c =? 41)%N.
    { rewrite flush_then, paren_then. by rewrite IH. }
    destruct (code c =? 42)%N.
    { destruct a as [|d a].
      - cbn [app]. change (code " " =? 42)%N with false. cbv iota.
        rewrite flush_then, op_then. by rewrite (lex_blank_nil rest []).
      - cbn [app]. destruct (code d =? 42)%N.
        + rewrite flush_then, op_then. rewrite IH; [done|simpl in Ha; lia].
        + rewrite flush_then, op_then.
          by rewrite <- (IH (d :: a) []). }
    destruct (code c =? 47)%N.
    { destruct a as [|d a].
      - cbn [app]. change (code " " =? 47)%N with false. cbv iota.
        rewrite flush_then, op_then. by rewrite (lex_blank_nil rest []).
      - cbn [app]. destruct (code d =? 47)%N.
        + rewrite flush_then, op_then. rewrite IH; [done|simpl in Ha; lia].
        + rewrite flush_then, op_then.
          by rewrite <- (IH (d :: a) []). }
    done.
Qed.

Lemma lex_blank a rest word :
  lex (a ++ " "%char :: rest) word = then_tokens (lex a word) (lex rest []).
Proof. by apply (lex_blank_length (length a)). Qed.

(** A word is read as its token. *)
Lemma lex_one_word w t :
  Forall (λ c, is_word_char c = true) w → classify w = Ok t →
  lex w [] = Ok [t].
Proof.
  intros Hw Ht. rewrite <- (app_nil_r w) at 1. rewrite lex_word by done.
  rewrite app_nil_r. cbn [lex]. unfold flush.
  destruct (reverse w) as [|d w'] eqn:Erev.
  { apply (f_equal reverse) in Erev. rewrite reverse_involutive in Erev.
    by rewrite Erev in Ht. }
  by rewrite <- Erev, reverse_involutive, Ht.
Qed.

(** The tokens of an operator, with a blank after it. *)
Lemma lex_operator o (y : list ascii) :
  lex (chars (op_text o) ++ " "%char :: y) []
  = (ts ← lex y []; mret (TOp o :: ts)).
Proof. destruct o; reflexivity. Qed.

(** The tokens of the text that [format] builds from the template of two
    fields with an operator between them. *)
Lemma lex_binary o (x y : string) :
  lex (chars (x +:+ " " +:+ op_text o +:+ " " +:+ y +:+ "")) []
  = (tx ← lex (chars x) []; ty ← lex (chars y) [];
     mret (tx ++ TOp o :: ty)).
Proof.
  rewrite !chars_app. change (chars " ") with [" "%char].
  change (chars "") with (@nil ascii). rewrite app_nil_r.
  cbn [app]. rewrite lex_blank, lex_operator. unfold then_tokens.
  destruct (lex (chars x) []); try done. simpl.
  by destruct (lex (chars y) []).
Qed.

(** What a cell that holds an integer contributes to the tokens: its
    literal, after a minus sign if it has one. *)
Lemma int_cell_tokens cell a :
  int_cell cell = Some a →
  lex (chars cell) [] = Ok [TNum a] ∨
  ∃ z, a = (- z)%Z ∧ lex (chars cell) [] = Ok [TOp Sub; TNum z].
Proof.
  unfold int_cell. destruct (chars cell) as [|c w]; [done|].
  destruct (code c =? 45)%N eqn:Ec.
  - destruct (classify w) as [[z| | | | | |]| | |] eqn:Ew; try done.
    intros [= <-]. right. exists z. split; [done|].
    assert (c = "-"%char) as ->.
    { apply N.eqb_eq in Ec. unfold code in Ec.
      by rewrite <- (ascii_N_embedding c), Ec. }
    change (lex ("-"%char :: w) [])
      with (ts ← lex w []; mret (TOp Sub :: ts)).
    by rewrite (lex_one_word w (TNum z)) by eauto using classify_TNum_word.
  - destruct (classify (c :: w)) as [[z| | | | | |]| | |] eqn:Ew; try done.
    intros [= <-]. left.
    by rewrite (lex_one_word _ (TNum z)) by eauto using classify_TNum_word.
Qed.

Lemma int_cell_numeric cell a :
  int_cell cell = Some a → numeric_cell cell = Some (VInt a).
Proof.
  intros [H | (z & -> & H)]%int_cell_tokens; unfold numeric_cell;
    by rewrite H.
Qed.

(** The tokens of a cell that holds a number. *)
Lemma numeric_cell_tokens cell v :
  numeric_cell cell = Some v →
  ∃ t u, number_token t = Some u ∧
    (lex (chars cell) [] = Ok [t] ∧ v = u ∨
     lex (chars cell) [] = Ok [TOp Add; t] ∧ v = eval_unop UAdd u ∨
     lex (chars cell) [] = Ok [TOp Sub; t] ∧ v = eval_unop USub u).
Proof.
  unfold numeric_cell.
  destruct (lex (chars cell) []) as [[|t1 [|t2 [|? ?]]]| | |]; try done.
  - intros H. exists t1, v. split; [|by left].
    by destruct t1 as [| | | |[]| |].
  - destruct t1 as [| | | |[]| |]; try done;
      destruct (number_token t2) as [u|] eqn:Eu; try done;
      intros [= <-]; exists t2, u; eauto.
  - by destruct t1 as [| | | |[]| |].
Qed.

(** An operator between two cells that hold numbers, as [eval] computes it
    from the text: for the operators that bind less than the sign of a
    cell, the operation on the two numbers. *)
Lemma eval_binary_numeric o (x y : string) (a b : value) :
  o ≠ Pow → numeric_cell x = Some a → numeric_cell y = Some b →
  eval (x +:+ " " +:+ op_text o +:+ " " +:+ y +:+ "") = eval_binop o a b.
Proof.
  intros Ho (tx & ux & Hux & Hx)%numeric_cell_tokens
            (ty & uy & Huy & Hy)%numeric_cell_tokens.
  unfold eval, parse. rewrite lex_binary.
  destruct tx; try done; destruct ty; try done;
    injection Hux as <-; injection Huy as <-;
    destruct Hx as [[-> ->] | [[-> ->] | [-> ->]]];
    destruct Hy as [[-> ->] | [[-> ->] | [-> ->]]];
    destruct o; done.
Qed.

(** ** Formulas of two columns: what [run] evaluates *)

Lemma Expression_init_formula2 colname g1 g2 template colnames_list p1 p2 :
  is_column_name colname = false →
  groups colname = [g1; g2] →
  foldl (λ colname '(i, j),
           str_take i colname +:+ "{}" +:+ str_drop j colname)
        colname (reverse (finditer colname)) = template →
  parse_column_name g1 colnames_list = Ok p1 →
  parse_column_name g2 colnames_list = Ok p2 →
  Expression_init colname colnames_list
    = Ok {| expr_ := template; pars_ := ParsList [p1; p2] |}.
Proof.
  intros Hname Hgroups Htemplate H1 H2.
  rewrite Expression_init_groups, Hgroups, Hname, Htemplate. simpl.
  by rewrite H1, H2.
Qed.

Lemma format_binary o (x y : string) :
  format (chars ("{} " +:+ op_text o +:+ " {}")) [x; y]
  = Ok (x +:+ " " +:+ op_text o +:+ " " +:+ y +:+ "").
Proof. by destruct o. Qed.

(** [run] on the template of two fields with an operator between them
    evaluates the text of the two cells with the operator between them. *)
Lemma run_binary_text o p1 p2 lines x y :
  cell_of lines p1 = Ok x → cell_of lines p2 = Ok y →
  run {| expr_ := "{} " +:+ op_text o +:+ " {}"; pars_ := ParsList [p1; p2] |}
      lines
  = (v ← eval (x +:+ " " +:+ op_text o +:+ " " +:+ y +:+ ""); str v).
Proof.
  intros H1 H2.
  assert (Hvals : mapM (cell_of lines) [p1; p2] = Ok [x; y]).
  { apply mapM_Ok. by repeat constructor. }
  unfold run. cbn [expr_ pars_].
  replace (String.eqb ("{} " +:+ op_text o +:+ " {}") "") with false
    by (by destruct o).
  by rewrite Hvals, Ok_bind, format_binary, Ok_bind.
Qed.

Lemma run_binary_numeric o p1 p2 lines x y a b :
  o ≠ Pow →
  cell_of lines p1 = Ok x → cell_of lines p2 = Ok y →
  numeric_cell x = Some a → numeric_cell y = Some b →
  run {| expr_ := "{} " +:+ op_text o +:+ " {}"; pars_ := ParsList [p1; p2] |}
      lines
  = (v ← eval_binop o a b; str v).
Proof.
  intros Ho H1 H2 Hx Hy.
  by rewrite (run_binary_text o p1 p2 lines x y H1 H2),
    (eval_binary_numeric o x y a b Ho Hx Hy).
Qed.

(** ** Commutativity of the sum of two columns *)

(** The sum of two floats does not depend on their order. *)
Lemma SFadd_comm prec emax x y : SFadd prec emax x y = SFadd prec emax y x.
Proof.
  destruct x as [sx|sx| |sx mx ex], y as [sy|sy| |sy my ey]; try done;
    try (by destruct sx, sy).
  unfold SFadd. by rewrite Z.min_comm, Z.add_comm.
Qed.

(** Neither does the sum of two numbers, whatever their types are. *)
Lemma eval_binop_add_comm a b : eval_binop Add a b = eval_binop Add b a.
Proof.
  destruct a as [za|fa|ba], b as [zb|fb|bb]; simpl;
    rewrite ?(Z.add_comm za), ?(SFadd_comm _ _ fa); try done;
    try (by rewrite Z.add_comm);
    try (by destruct (float_of_int _); simpl; rewrite ?(SFadd_comm _ _ fa);
         rewrite ?(SFadd_comm _ _ fb)).
Qed.

Lemma float_of_int_returns_or_raises z :
  (∃ f, float_of_int z = Ok f) ∨ float_of_int z = Raise OverflowError.
Proof. unfold float_of_int. destruct (binary_normalize _ _ _ _ _); eauto. Qed.

(** Where the model of [str] is silent on a sum, the sum is an integer of
    more than 4300 digits. *)
Lemma sum_text_described a b :
  (v ← eval_binop Add a b; str v) = Unsupported →
  ∃ z, eval_binop Add a b = Ok (VInt z) ∧
       (10 ^ Z.of_nat max_str_digits ≤ Z.abs z)%Z.
Proof.
  assert (Hstr : ∀ z, str (VInt z) = Unsupported →
                 (10 ^ Z.of_nat max_str_digits ≤ Z.abs z)%Z).
  { intros z. unfold str.
    destruct (10 ^ Z.of_nat max_str_digits <=? Z.abs z)%Z eqn:E; [|done].
    intros _. by apply Z.leb_le. }
  destruct a as [za|fa|ba], b as [zb|fb|bb]; simpl;
    try done;
    try (by destruct (float_of_int_returns_or_raises za) as [[f ->]| ->]);
    try (by destruct (float_of_int_returns_or_raises zb) as [[f ->]| ->]);
    try (by destruct (float_of_int_returns_or_raises (if ba then 1 else 0))
              as [[f ->]| ->]);
    try (by destruct (float_of_int_returns_or_raises (if bb then 1 else 0))
              as [[f ->]| ->]);
    intros H; eexists; (split; [reflexivity|]); by apply Hstr.
Qed.

(** C9.  For a match whose cells in column [a] of file 0 and in column [b]
    of file 1 hold numbers (integer or float literals, signed or not), the
    formulas [0:a + 1:b] and [1:b + 0:a] compile, and both evaluate to the
    same result: the text of the sum of the two numbers (or the
    [OverflowError] of an integer too large to be added to a float).  The
    model is silent on that text only for an integer of more than 4300
    digits. *)
Theorem formula_add_commutes colnames_list lines pa pb x y a b :
  parse_column_name "0:a" colnames_list = Ok pa →
  parse_column_name "1:b" colnames_list = Ok pb →
  cell_of lines pa = Ok x → cell_of lines pb = Ok y →
  numeric_cell x = Some a → numeric_cell y = Some b →
  ∃ e1 e2,
    Expression_init "0:a + 1:b" colnames_list = Ok e1 ∧
    Expression_init "1:b + 0:a" colnames_list = Ok e2 ∧
    run e1 lines = (v ← eval_binop Add a b; str v) ∧
    run e2 lines = run e1 lines ∧
    (run e1 lines = Unsupported →
     ∃ z, eval_binop Add a b = Ok (VInt z) ∧
          (10 ^ Z.of_nat max_str_digits ≤ Z.abs z)%Z).
Proof.
  intros Hpa Hpb Hx Hy Ha Hb.
  exists {| expr_ := "{} + {}"; pars_ := ParsList [pa; pb] |},
         {| expr_ := "{} + {}"; pars_ := ParsList [pb; pa] |}.
  split; [by apply (Expression_init_formula2 _ "0:a" "1:b")|].
  split; [by apply (Expression_init_formula2 _ "1:b" "0:a")|].
  pose proof (run_binary_numeric Add pa pb lines x y a b) as H1.
  pose proof (run_binary_numeric Add pb pa lines y x b a) as H2.
  cbn [op_text] in H1, H2.
  change ("{} " +:+ "+" +:+ " {}") with "{} + {}" in H1, H2.
  rewrite H1, H2 by done.
  split; [done|]. split; [by rewrite eval_binop_add_comm|].
  apply sum_text_described.
Qed.

Lemma formula_add_commutes_witness :
  ∃ e1 e2,
    Expression_init "0:a + 1:b" [["k"; "a"]; ["b"]] = Ok e1 ∧
    Expression_init "1:b + 0:a" [["k"; "a"]; ["b"]] = Ok e2 ∧
    run e1 [["x"; "-8"]; ["1.5e1"]]
      = (v ← eval_binop Add (VInt (-8)) (VFloat (float_of_decimal 15 0));
         str v) ∧
    run e2 [["x"; "-8"]; ["1.5e1"]] = run e1 [["x"; "-8"]; ["1.5e1"]] ∧
    (run e1 [["x"; "-8"]; ["1.5e1"]] = Unsupported →
     ∃ z, eval_binop Add (VInt (-8)) (VFloat (float_of_decimal 15 0))
            = Ok (VInt z) ∧
          (10 ^ Z.of_nat max_str_digits ≤ Z.abs z)%Z).
Proof.
  apply (formula_add_commutes [["k"; "a"]; ["b"]] [["x"; "-8"]; ["1.5e1"]]
           (0%Z, 1) (1%Z, 0) "-8" "1.5e1");
    vm_compute; reflexivity.
Defined.

(** ** Formulas over cells that are not numbers *)







(** *** The loop that writes the rows *)




(** A row that is written adds one line to the output. *)
Lemma emit_row_Ok lines_list expr_list row_list st st' :
  emit_row lines_list expr_list row_list st = (st', Ok ()) →
  matched st' = matched st ∧
  ∀ out, written st = Some out →
    ∃ line, written st' = Some (out ++ [line]).
Proof.
  unfold emit_row, then_, lift, write.
  destruct (mapM _ (zip row_list lines_list)) as [lines|e| |]; try done.
  destruct (mapM _ expr_list) as [out_cols|e| |]; try done.
  destruct (written st) as [out|] eqn:Eout; [|done].
  intros [= <-]. simpl. split; [done|]. intros out' [= <-]. eauto.
Qed.

Lemma for_each_emit_row_Ok lines_list expr_list match_list st st' :
  for_each match_list (emit_row lines_list expr_list) st = (st', Ok ()) →
  matched st' = matched st ∧
  ∀ out, written st = Some out →
    ∃ rows, written st' = Some (out ++ rows) ∧
      length rows = length match_list.
Proof.
  revert st. induction match_list as [|row_list match_list IH]; intros st.
  - intros [= <-]. split; [done|]. intros out Hout. exists [].
    by rewrite app_nil_r.
  - simpl. unfold then_ at 1.
    destruct (emit_row lines_list expr_list row_list st)
      as [st1 [[]|e| |]] eqn:Erow; try done.
    intros Hrest. apply emit_row_Ok in Erow as [Hm1 Hw1].
    apply IH in Hrest as [Hm Hw]. split; [congruence|].
    intros out Hout. destruct (Hw1 out Hout) as [line Hline].
    destruct (Hw _ Hline) as (rows & Hrows & Hlen).
    exists (line :: rows). rewrite Hrows, <- app_assoc. simpl.
    split; [done|]. by rewrite Hlen.
Qed.




(** ** Boundary cases of the matcher *)

(** Join values are compared as text: [1], [1.0] and [01] are three
    different values. *)
Example join_values_are_text :
  get_match_list [[["1"]]; [["1.0"]; ["01"]]] [0; 0] = Ok [].
Proof. reflexivity. Qed.

(** C2, as the specification states it, fails on the code: the two
    stopping conditions can be told apart.  Row 1 of table 0 has no cell in
    the join column 1.  [get_match_list] stops after the match because
    table 1 is exhausted, and never reads that row; the procedure that goes
    on to the end of table 0 reads it and fails with [IndexError]. *)
Lemma row_without_join_cell :
  get_match_list [[["k"; "a"]; ["b"]]; [["a"]]] [1; 0] = Ok [[0; 0]] ∧
  match_list_until_table0_end [[["k"; "a"]; ["b"]]; [["a"]]] [1; 0]
    = Raise IndexError ∧
  ¬ in_bounds [[["k"; "a"]; ["b"]]; [["a"]]] [1; 0].
Proof. repeat split; try reflexivity. compute_done. Qed.

(** * Further properties of the code *)

(** ** [main]: what is written, and when *)

(** The rows of a match that [get_match_list] returned are there: the
    lookup [l[i] for i, l in zip(row_list, lines_list)] of [main] does not
    fail on it. *)
Lemma matched_rows_exist lines_list join_field_list match_list m :
  get_match_list lines_list join_field_list = Ok match_list →
  m ∈ match_list →
  ∃ lines,
    mapM (λ '(i, l), getitem l i) (zip m lines_list) = Ok lines ∧
    length lines = length lines_list.
Proof.
  intros H Hin. apply get_match_list_inv in H as [ii Inv].
  destruct (inv_valid _ _ _ _ Inv m Hin) as (v & Hlen & Hm).
  assert (Hall : Forall2 (λ (il : nat * table) (line : row),
                            getitem il.2 il.1 = Ok line)
                   (zip m lines_list)
                   ((λ il : nat * table, default [] (il.2 !! il.1))
                      <$> zip m lines_list)).
  { apply Forall2_fmap_r, Forall_Forall2_diag, Forall_forall.
    intros [r t] Hrt. apply list_elem_of_lookup in Hrt as [i Hi].
    apply lookup_zip_with_Some in Hi as (r' & t' & [= <- <-] & Hr & Ht).
    destruct (Hm i r Hr) as [Hcell _].
    pose proof (join_cell_row_lt _ _ _ _ _ _ Hcell Ht) as Hlt.
    destruct (lookup_lt_is_Some_2 t r Hlt) as [line Hline].
    simpl. unfold getitem. by rewrite Hline. }
  eexists. split.
  - apply mapM_Ok. eapply Forall2_impl; [exact Hall|].
    by intros [r t] line.
  - rewrite length_fmap, length_zip_with. lia.
Qed.

Lemma matched_rows_exist_witness :
  ∃ lines,
    mapM (λ '(i, l), getitem l i) (zip [0; 1] ScenarioA.lines_list) = Ok lines ∧
    length lines = length ScenarioA.lines_list.
Proof.
  apply (matched_rows_exist ScenarioA.lines_list [0; 0] [[0; 1]]).
  - reflexivity.
  - apply list_elem_of_singleton. reflexivity.
Defined.

(** Writing the rows keeps the output file open and the match list as it
    is, however the loop ends. *)
Lemma emit_row_written lines_list expr_list row_list st st' o out :
  emit_row lines_list expr_list row_list st = (st', o) →
  written st = Some out →
  matched st' = matched st ∧ ∃ out', written st' = Some out'.
Proof.
  unfold emit_row, then_, lift, write. intros H Hout.
  destruct (mapM _ (zip row_list lines_list)) as [lines|e| |];
    try (injection H as <- <-; eauto).
  destruct (mapM _ expr_list) as [out_cols|e| |];
    try (injection H as <- <-; eauto).
  rewrite Hout in H. injection H as <- <-. simpl. eauto.
Qed.

Lemma for_each_emit_row_written lines_list expr_list match_list st st' o out :
  for_each match_list (emit_row lines_list expr_list) st = (st', o) →
  written st = Some out →
  matched st' = matched st ∧ ∃ out', written st' = Some out'.
Proof.
  revert st out. induction match_list as [|row_list match_list IH];
    intros st out H Hout.
  - injection H as <- <-. eauto.
  - cbn [for_each] in H. unfold then_ at 1 in H.
    destruct (emit_row lines_list expr_list row_list st)
      as [st1 o1] eqn:Erow.
    destruct (emit_row_written _ _ _ _ _ _ _ Erow Hout) as [Hm [out1 Hout1]].
    destruct o1 as [[]|e| |]; try (injection H as <- <-; eauto).
    destruct (IH _ _ H Hout1) as [Hm' Hout']. split; [congruence|done].
Qed.

(** When [main] ends without an exception it has written one line for each
    match tuple that [get_match_list] returned, and no other. *)
Theorem main_writes_one_line_per_match inputs join out_cols st :
  main inputs join out_cols started = (st, Ok ()) →
  ∃ join_field_list match_list rows,
    get_field_list (length inputs) join (inputs.*1) = Ok join_field_list ∧
    get_match_list (inputs.*2) join_field_list = Ok match_list ∧
    matched st = Some match_list ∧
    written st = Some rows ∧ length rows = length match_list.
Proof.
  unfold main. unfold then_ at 1 2 3 4 5. unfold lift at 1 2 3.
  destruct (get_field_list _ _ _) as [jfl|e| |]; try done.
  destruct (get_match_list _ _) as [ml|e| |] eqn:Eml; try done.
  cbn [set_match_list started written].
  destruct (mapM _ out_cols) as [exprs|e| |]; try done.
  cbn [open_outfile matched]. intros H.
  apply for_each_emit_row_Ok in H as [Hm Hw].
  destruct (Hw [] eq_refl) as (rows & Hrows & Hlen).
  exists jfl, ml, rows. simpl in Hm, Hrows. by repeat split.
Qed.

Lemma main_writes_one_line_per_match_witness :
  ∃ join_field_list match_list rows,
    get_field_list (length ScenarioA_main.inputs) ScenarioA_main.join
      (ScenarioA_main.inputs.*1) = Ok join_field_list ∧
    get_match_list (ScenarioA_main.inputs.*2) join_field_list = Ok match_list ∧
    matched {| matched := Some [[0; 1]];
               written := Some ["NYC,8,300" +:+ newline] |} = Some match_list ∧
    written {| matched := Some [[0; 1]];
               written := Some ["NYC,8,300" +:+ newline] |} = Some rows ∧
    length rows = length match_list.
Proof.
  apply (main_writes_one_line_per_match ScenarioA_main.inputs
           ScenarioA_main.join ScenarioA_main.out_cols).
  reflexivity.
Defined.

(** [main] opens the output file only once the join list is resolved, the
    matching is done and every output column is compiled: when the output
    file has been opened, all three have succeeded, so an error in any of
    them leaves the output file untouched. *)
Theorem main_opens_output_last inputs join out_cols st o :
  main inputs join out_cols started = (st, o) →
  written st ≠ None →
  ∃ join_field_list match_list expr_list,
    get_field_list (length inputs) join (inputs.*1) = Ok join_field_list ∧
    get_match_list (inputs.*2) join_field_list = Ok match_list ∧
    mapM (λ c, Expression_init c (inputs.*1)) out_cols = Ok expr_list.
Proof.
  unfold main. unfold then_ at 1 2 3 4 5. unfold lift at 1 2 3.
  destruct (get_field_list _ _ _) as [jfl|e| |];
    try (by intros [= <- <-] Hw).
  destruct (get_match_list _ _) as [ml|e| |] eqn:Eml;
    try (by intros [= <- <-] Hw).
  cbn [set_match_list started written].
  destruct (mapM _ out_cols) as [exprs|e| |] eqn:Eexprs;
    try (by intros [= <- <-] Hw).
  intros _ _. eauto 10.
Qed.

Lemma main_opens_output_last_witness :
  ∃ join_field_list match_list expr_list,
    get_field_list (length ScenarioA_main.inputs) ScenarioA_main.join
      (ScenarioA_main.inputs.*1) = Ok join_field_list ∧
    get_match_list (ScenarioA_main.inputs.*2) join_field_list = Ok match_list ∧
    mapM (λ c, Expression_init c (ScenarioA_main.inputs.*1))
         ScenarioA_main.out_cols = Ok expr_list.
Proof.
  apply (main_opens_output_last ScenarioA_main.inputs ScenarioA_main.join
           ScenarioA_main.out_cols
           {| matched := Some [[0; 1]];
              written := Some ["NYC,8,300" +:+ newline] |} (Ok ()));
    [reflexivity|discriminate].
Defined.

Lemma for_each_emit_row_no_cols lines_list (l : list (list nat)) x out :
  (∀ m, m ∈ l →
     ∃ lines, mapM (λ '(i, t), getitem t i) (zip m lines_list) = Ok lines) →
  for_each l (emit_row lines_list [])
    {| matched := x; written := Some out |}
  = ({| matched := x; written := Some (out ++ replicate (length l) newline) |},
     Ok ()).
Proof.
  revert out. induction l as [|m l IH]; intros out Hl.
  - simpl. by rewrite app_nil_r.
  - destruct (Hl m) as [lines Hlines]; [by left|].
    cbn [for_each]. unfold then_ at 1.
    unfold emit_row at 1. unfold then_ at 1 2. unfold lift.
    rewrite Hlines. cbn [mapM mret outcome_ret written matched write].
    rewrite IH by (intros m' Hm'; apply Hl; by right).
    cbn [length replicate]. by rewrite <- app_assoc.
Qed.

(** With no output column at all, a run of [main] that ends without an
    exception has written one line for each match tuple: an empty line. *)
Theorem main_without_out_cols inputs join st :
  main inputs join [] started = (st, Ok ()) →
  ∃ join_field_list match_list,
    get_field_list (length inputs) join (inputs.*1) = Ok join_field_list ∧
    get_match_list (inputs.*2) join_field_list = Ok match_list ∧
    st = {| matched := Some match_list;
            written := Some (replicate (length match_list) newline) |}.
Proof.
  unfold main. unfold then_ at 1 2 3 4 5. unfold lift at 1 2 3.
  destruct (get_field_list _ _ _) as [jfl|e| |]; try done.
  destruct (get_match_list _ _) as [ml|e| |] eqn:Eml; try done.
  cbn [set_match_list started written mapM mret outcome_ret open_outfile
       matched].
  rewrite (for_each_emit_row_no_cols _ _ _ []).
  - intros [= <-]. by exists jfl, ml.
  - intros m Hm.
    destruct (matched_rows_exist _ _ _ m Eml Hm) as (lines & Hlines & _).
    eauto.
Qed.

Lemma main_without_out_cols_witness :
  ∃ join_field_list match_list,
    get_field_list (length ScenarioA_main.inputs) ScenarioA_main.join
      (ScenarioA_main.inputs.*1) = Ok join_field_list ∧
    get_match_list (ScenarioA_main.inputs.*2) join_field_list
      = Ok match_list ∧
    {| matched := Some [[0; 1]]; written := Some [newline] |}
    = {| matched := Some match_list;
         written := Some (replicate (length match_list) newline) |}.
Proof.
  apply (main_without_out_cols ScenarioA_main.inputs ScenarioA_main.join).
  reflexivity.
Defined.

(** ** The column resolver: which column a reference names *)

Lemma index_from_Ok x l k0 k :
  index_from x l k0 = Ok k →
  k0 ≤ k ∧ l !! (k - k0) = Some x ∧ ∀ j, j < k - k0 → l !! j ≠ Some x.
Proof.
  revert k0. induction l as [|y l IH]; intros k0 H; simpl in H; [done|].
  destruct (String.eqb y x) eqn:E.
  - injection H as <-. apply String.eqb_eq in E as ->.
    rewrite Nat.sub_diag. split; [lia|]. split; [done|]. intros j Hj. lia.
  - apply IH in H as (Hle & Hk & Hfirst).
    apply String.eqb_neq in E.
    split; [lia|]. replace (k - k0) with (S (k - S k0)) by lia.
    split; [done|]. intros [|j] Hj; simpl; [congruence|].
    apply Hfirst. lia.
Qed.

Lemma index_from_not_Ok x l k0 :
  x ∉ l → index_from x l k0 = Raise ValueError.
Proof.
  revert k0. induction l as [|y l IH]; intros k0 Hx; simpl; [done|].
  apply not_elem_of_cons in Hx as [Hne Hx].
  destruct (String.eqb y x) eqn:E; [|by apply IH].
  apply String.eqb_eq in E. congruence.
Qed.

(** A reference [i:name] that resolves names the first column called
    [name] in the header of file [i]. *)
Theorem parse_column_name_first_occurrence colname colnames_list i k :
  parse_column_name colname colnames_list = Ok (i, k) →
  ∃ file field names,
    split ":" colname = [file; field] ∧ int file = Ok i ∧
    getitem_int colnames_list i = Ok names ∧
    names !! k = Some field ∧ ∀ j, j < k → names !! j ≠ Some field.
Proof.
  unfold parse_column_name.
  destruct (split ":" colname) as [|file [|field [|? ?]]]; try done.
  intros H. apply bind_Ok in H as (i' & Hint & H).
  apply bind_Ok in H as (names & Hnames & H).
  apply bind_Ok in H as (k' & Hk & [= <- <-]).
  apply index_from_Ok in Hk as (_ & Hk & Hfirst).
  rewrite Nat.sub_0_r in Hk, Hfirst.
  exists file, field, names. by repeat split.
Qed.

Lemma parse_column_name_first_occurrence_witness :
  ∃ file field names,
    split ":" "0:pop" = [file; field] ∧ int file = Ok 0%Z ∧
    getitem_int [["pop"; "city"; "pop"]] 0%Z = Ok names ∧
    names !! 0 = Some field ∧ ∀ j, j < 0 → names !! j ≠ Some field.
Proof.
  apply (parse_column_name_first_occurrence "0:pop" [["pop"; "city"; "pop"]]).
  reflexivity.
Defined.

(** A reference fails to resolve with [ValueError] when it is not made of
    two parts around one colon, when the first part is no integer, or when
    the header of the file has no column of that name. *)
Lemma parse_column_name_unknown colname colnames_list :
  (length (split ":" colname) ≠ 2 ∨
   ∃ file field,
     split ":" colname = [file; field] ∧
     (int file = Raise ValueError ∨
      ∃ i names, int file = Ok i ∧ getitem_int colnames_list i = Ok names ∧
        field ∉ names)) →
  parse_column_name colname colnames_list = Raise ValueError.
Proof.
  unfold parse_column_name. intros [Hlen | (file & field & -> & H)].
  - by destruct (split ":" colname) as [|file [|field [|? ?]]].
  - destruct H as [-> | (i & names & -> & Hnames & Hfield)]; [done|].
    simpl. rewrite Hnames. simpl. unfold index.
    by rewrite index_from_not_Ok.
Qed.

(** An output-column spec is refused with the unknown-column error, and the
    error names the reference, when that reference is the first one not to
    resolve and the header of its file has no column of its name. *)
Theorem Expression_init_unknown_column colname colnames_list
    before group after pars file field i names :
  groups colname = before ++ group :: after →
  mapM (λ g, parse_column_name g colnames_list) before = Ok pars →
  split ":" group = [file; field] → int file = Ok i →
  getitem_int colnames_list i = Ok names → field ∉ names →
  Expression_init colname colnames_list = Raise (UnknownColumn group).
Proof.
  intros Hgroups Hbefore Hsplit Hint Hnames Hfield.
  assert (Hgroup : parse_column_name group colnames_list = Raise ValueError).
  { apply parse_column_name_unknown. right. eauto 10. }
  rewrite Expression_init_groups, Hgroups.
  rewrite (mapM_Ok_then_Raise _ before pars group after
             (UnknownColumn group)); [done| |by rewrite Hgroup].
  apply mapM_Ok. apply mapM_Ok in Hbefore.
  eapply Forall2_impl; [exact Hbefore|]. by intros g p ->.
Qed.

Lemma Expression_init_unknown_column_witness :
  Expression_init "0:pop * 1:pop" ScenarioA.colnames_list
  = Raise (UnknownColumn "1:pop").
Proof.
  apply (Expression_init_unknown_column "0:pop * 1:pop"
           ScenarioA.colnames_list ["0:pop"] "1:pop" [] [(0%Z, 1)]
           "1" "pop" 1%Z ScenarioA.header1); try reflexivity.
  compute_done.
Defined.

(** ** Pass-through columns *)

Lemma chars_str_of (l : list ascii) : chars (str_of l) = l.
Proof. apply String.list_ascii_of_string_of_list_ascii. Qed.

Lemma take_while_app {A} (p : A → bool) (l : list A) :
  take_while p l ++ drop (length (take_while p l)) l = l.
Proof.
  induction l as [|x l IH]; simpl; [done|].
  destruct (p x); simpl; [by rewrite IH|done].
Qed.

Lemma take_while_Forall {A} (p : A → bool) (l : list A) :
  Forall (λ x, p x = true) (take_while p l).
Proof.
  induction l as [|x l IH]; simpl; [constructor|].
  destruct (p x) eqn:E; by constructor.
Qed.

Lemma split_go_first sep cur ds rest :
  Forall (λ c, Ascii.eqb c sep = false) ds →
  split_go sep cur (ds ++ sep :: rest)
  = str_of (reverse cur ++ ds) :: split_go sep [] rest.
Proof.
  intros Hds. revert cur. induction Hds as [|c ds Hc Hds IH]; intros cur.
  - simpl. rewrite Ascii.eqb_refl. by rewrite app_nil_r.
  - simpl. rewrite Hc, IH, reverse_cons, <- app_assoc. done.
Qed.

Lemma is_digit_not_int_space c : is_digit c = true → is_int_space c = false.
Proof.
  unfold is_digit, is_int_space, in_range. intros H.
  apply andb_true_iff in H as [H1 H2].
  apply N.leb_le in H1, H2.
  repeat match goal with
         | |- context [(?a <=? ?b)%N] =>
             destruct (N.leb_spec a b); simpl
         | |- context [(?a =? ?b)%N] =>
             destruct (N.eqb_spec a b); simpl
         end; try done; lia.
Qed.

Lemma int_strip_digits ds :
  ds ≠ [] → Forall (λ c, is_digit c = true) ds → int_strip ds = ds.
Proof.
  intros Hne Hds. unfold int_strip.
  assert (Hhead : ∀ l, l ≠ [] → Forall (λ c, is_digit c = true) l →
                       drop_while is_int_space l = l).
  { intros [|c l] Hl Hall; [done|]. apply Forall_cons in Hall as [Hc _].
    simpl. by rewrite (is_digit_not_int_space c Hc). }
  rewrite (Hhead ds Hne Hds).
  rewrite Hhead, reverse_involutive; [done| |by apply Forall_reverse].
  intros Hrev. apply (f_equal reverse) in Hrev.
  by rewrite reverse_involutive in Hrev.
Qed.

Lemma digit_value_nonneg c : is_digit c = true → (0 ≤ digit_value c)%Z.
Proof.
  unfold is_digit, in_range, digit_value. intros H.
  apply andb_true_iff in H as [H1 _]. apply N.leb_le in H1. lia.
Qed.

Lemma digits_value_nonneg acc prev s z :
  (0 ≤ acc)%Z → digits_value acc prev s = Some z → (0 ≤ z)%Z.
Proof.
  revert acc prev. induction s as [|c s IH]; intros acc prev Hacc H;
    simpl in H.
  - destruct prev; [by injection H as <-|done].
  - destruct (is_digit c) eqn:Ec.
    + eapply IH; [|exact H]. pose proof (digit_value_nonneg c Ec). lia.
    + destruct (code c =? 95)%N; [|done]. destruct prev; [|done].
      destruct s; [done|]. by eapply IH.
Qed.

(** The file index of a column name is never negative: the text before the
    colon is made of digits. *)
Lemma column_name_index_nonneg colname colnames_list i k :
  is_column_name colname = true →
  parse_column_name colname colnames_list = Ok (i, k) → (0 ≤ i)%Z.
Proof.
  unfold is_column_name, match_column_name, parse_column_name, split.
  pose proof (take_while_app is_digit (chars colname)) as Happ.
  pose proof (take_while_Forall is_digit (chars colname)) as Hds.
  destruct (take_while is_digit (chars colname)) as [|d ds] eqn:Etw; [done|].
  destruct (drop (length (d :: ds)) (chars colname)) as [|c rest] eqn:Edrop;
    [done|].
  destruct (code c =? 58)%N eqn:Ec; [|done]. intros _.
  assert (c = ":"%char) as ->.
  { apply N.eqb_eq in Ec. unfold code in Ec.
    rewrite <- (ascii_N_embedding c), Ec. done. }
  rewrite <- Happ, split_go_first.
  2:{ eapply Forall_impl; [exact Hds|]. intros x Hx. simpl in Hx.
      apply Ascii.eqb_neq. intros ->. done. }
  rewrite app_nil_l.
  destruct (split_go ":" [] rest) as [|field [|? ?]]; try done.
  intros H. apply bind_Ok in H as (i' & Hint & H).
  apply bind_Ok in H as (names & _ & H).
  apply bind_Ok in H as (k' & _ & [= <- <-]).
  unfold int in Hint. rewrite chars_str_of, int_strip_digits in Hint by done.
  apply Forall_cons in Hds as [Hd Hds].
  assert (Hd45 : (code d =? 45)%N = false).
  { unfold is_digit, in_range in Hd. apply andb_true_iff in Hd as [H1 _].
    apply N.leb_le in H1. apply N.eqb_neq. lia. }
  assert (Hd43 : (code d =? 43)%N = false).
  { unfold is_digit, in_range in Hd. apply andb_true_iff in Hd as [H1 _].
    apply N.leb_le in H1. apply N.eqb_neq. lia. }
  rewrite Hd45, Hd43 in Hint.
  destruct (max_str_digits <? _); [done|].
  destruct (digits_value 0 false (d :: ds)) as [z|] eqn:Ez; [|done].
  injection Hint as <-. by eapply digits_value_nonneg.
Qed.

Lemma zip_rows_lookup (m : list nat) (lines_list : list table) lines j line :
  mapM (λ '(i, l), getitem l i) (zip m lines_list) = Ok lines →
  lines !! j = Some line →
  ∃ r t, m !! j = Some r ∧ lines_list !! j = Some t ∧ t !! r = Some line.
Proof.
  intros H%mapM_Ok Hj.
  destruct (Forall2_lookup_r _ _ _ _ _ H Hj) as ([r t] & Hrt & Hget).
  apply lookup_zip_with_Some in Hrt as (r' & t' & [= <- <-] & Hr & Ht).
  apply getitem_Ok in Hget. eauto.
Qed.

(** An output column that is a bare reference [i:name] yields, for a match,
    the cell of the matched row of table [i] in the column that the
    reference resolves to, as it is. *)
Theorem pass_through_returns_cell colname colnames_list e
    (m : list nat) (lines_list : list table) lines i k r t line :
  is_column_name colname = true →
  Expression_init colname colnames_list = Ok e →
  parse_column_name colname colnames_list = Ok (i, k) →
  mapM (λ '(i, l), getitem l i) (zip m lines_list) = Ok lines →
  m !! Z.to_nat i = Some r → lines_list !! Z.to_nat i = Some t →
  t !! r = Some line →
  run e lines = getitem line k.
Proof.
  intros Hname Hinit Hparse Hlines Hr Ht Hline.
  pose proof (column_name_index_nonneg _ _ _ _ Hname Hparse) as Hi.
  unfold Expression_init in Hinit. rewrite Hname, Hparse in Hinit.
  injection Hinit as <-.
  assert (Hli : lines !! Z.to_nat i = Some line).
  { destruct (lines !! Z.to_nat i) as [line'|] eqn:E.
    - destruct (zip_rows_lookup _ _ _ _ _ Hlines E)
        as (r' & t' & Hr' & Ht' & Hline').
      congruence.
    - apply lookup_ge_None in E. apply mapM_Ok, Forall2_length in Hlines.
      rewrite length_zip_with in Hlines.
      apply lookup_lt_Some in Hr, Ht. lia. }
  unfold run. cbn [expr_ pars_]. change (String.eqb "" "") with true.
  cbv iota. unfold cell_of. cbn [fst snd]. unfold getitem_int.
  rewrite (proj2 (Z.leb_le 0 i) Hi).
  by rewrite (proj2 (getitem_Ok _ _ _) Hli), Ok_bind.
Qed.

Lemma pass_through_returns_cell_witness :
  run {| expr_ := ""; pars_ := ParsPair (1%Z, 1) |} [["NYC"; "8"]; ["NYC"; "300"]]
  = getitem ["NYC"; "300"] 1.
Proof.
  apply (pass_through_returns_cell "1:area" ScenarioA.colnames_list _
           [0; 1] ScenarioA.lines_list [["NYC"; "8"]; ["NYC"; "300"]]
           1%Z 1 1 ScenarioA.file1 ["NYC"; "300"]); reflexivity.
Defined.

(** ** [get_field_list]: the join columns, by file *)

Lemma fill_join_columns_Ok join_list colnames_list m0 m :
  fill_join_columns join_list colnames_list m0 = Ok m →
  ∃ ps,
    Forall2 (λ join p, parse_column_name join colnames_list = Ok p)
            join_list ps ∧
    m = foldl (λ m (p : Z * nat), <[p.1 := p.2]> m) m0 ps.
Proof.
  revert m0. induction join_list as [|join join_list IH]; intros m0 H;
    simpl in H.
  - injection H as <-. exists []. split; [constructor|done].
  - apply bind_Ok in H as ([i k] & Hp & H).
    apply IH in H as (ps & Hps & ->).
    exists ((i, k) :: ps). split; [|done]. constructor; [|done].
    destruct (parse_column_name join colnames_list) as [p|[]| |];
      simpl in Hp; try done; congruence.
Qed.

Lemma foldl_insert_dom (ps : list (Z * nat)) (m0 : gmap Z nat) :
  dom (foldl (λ m (p : Z * nat), <[p.1 := p.2]> m) m0 ps)
  = dom m0 ∪ list_to_set (ps.*1).
Proof.
  revert m0. induction ps as [|[i k] ps IH]; intros m0; simpl.
  - set_solver.
  - rewrite IH, dom_insert_L. set_solver.
Qed.

Lemma foldl_insert_lookup_notin (ps : list (Z * nat)) (m0 : gmap Z nat) i :
  i ∉ ps.*1 →
  foldl (λ m (p : Z * nat), <[p.1 := p.2]> m) m0 ps !! i = m0 !! i.
Proof.
  revert m0. induction ps as [|[j k] ps IH]; intros m0 Hi; simpl; [done|].
  simpl in Hi. apply not_elem_of_cons in Hi as [Hne Hi].
  rewrite IH by done. by rewrite lookup_insert_ne.
Qed.

Lemma foldl_insert_lookup_in (ps : list (Z * nat)) (m0 : gmap Z nat) i k :
  NoDup (ps.*1) → (i, k) ∈ ps →
  foldl (λ m (p : Z * nat), <[p.1 := p.2]> m) m0 ps !! i = Some k.
Proof.
  revert m0. induction ps as [|[j k'] ps IH]; intros m0 Hnd Hin; simpl.
  - by apply elem_of_nil in Hin.
  - simpl in Hnd. apply NoDup_cons in Hnd as [Hj Hnd].
    apply elem_of_cons in Hin as [[= <- <-] | Hin].
    + rewrite foldl_insert_lookup_notin by done. apply lookup_insert_eq.
    + by apply IH.
Qed.

Lemma size_list_to_set_le (l : list Z) :
  size (list_to_set l : gset Z) ≤ length l.
Proof.
  induction l as [|x l IH]; [by vm_compute|].
  rewrite list_to_set_cons, size_union_alt, size_singleton. simpl.
  pose proof (subseteq_size (list_to_set l ∖ {[x]}) (list_to_set l : gset Z)
                ltac:(set_solver)). lia.
Qed.

(** A list with as many elements as its set has no element twice. *)
Lemma size_list_to_set_NoDup (l : list Z) :
  size (list_to_set l : gset Z) = length l → NoDup l.
Proof.
  induction l as [|x l IH]; [constructor|].
  rewrite list_to_set_cons. simpl. intros Hsize.
  pose proof (size_list_to_set_le l) as Hle.
  destruct (decide (x ∈ l)) as [Hx|Hx].
  - exfalso.
    assert (({[x]} ∪ list_to_set l : gset Z) = list_to_set l) as Heq
      by set_solver.
    rewrite Heq in Hsize. lia.
  - constructor; [done|]. apply IH.
    rewrite size_union, size_singleton in Hsize by set_solver. lia.
Qed.

#[local] Instance key_le_total : Total key_le.
Proof. intros x y. unfold key_le. lia. Qed.

#[local] Instance key_le_trans : Transitive key_le.
Proof. intros x y z. unfold key_le. lia. Qed.

Lemma Sorted_seq_Z a n : Sorted Z.le (Z.of_nat <$> seq a n).
Proof.
  revert a. induction n as [|n IH]; intros a; simpl; [constructor|].
  constructor; [apply IH|].
  destruct n; simpl; constructor. lia.
Qed.

(** A dictionary whose keys are the numbers below [n] lists, once its items
    are sorted, the value of key [j] at position [j]. *)
Lemma sorted_items_by_key (m : gmap Z nat) n :
  dom m = list_to_set (Z.of_nat <$> seq 0 n) →
  (merge_sort key_le (map_to_list m)).*1 = Z.of_nat <$> seq 0 n.
Proof.
  intros Hdom.
  apply (Sorted_unique Z.le).
  - apply (Sorted_fmap fst key_le Z.le); [done|].
    apply Sorted_merge_sort, _.
  - apply Sorted_seq_Z.
  - apply NoDup_Permutation.
    + rewrite merge_sort_Permutation. apply NoDup_fst_map_to_list.
    + apply NoDup_fmap_2; [apply _|apply NoDup_seq].
    + intros i. rewrite merge_sort_Permutation.
      rewrite <- (elem_of_list_to_set (C := gset Z) i (_ <$> seq 0 n)).
      rewrite <- Hdom, elem_of_dom.
      rewrite list_elem_of_fmap. split.
      * intros ([i' k] & -> & Hin). apply elem_of_map_to_list in Hin. eauto.
      * intros [k Hk]. exists (i, k). split; [done|].
        by apply elem_of_map_to_list.
Qed.

(** When [get_field_list] returns, every entry of the join list resolves,
    to a file index below the number of files, and the field list holds the
    column of the entry for file [i] at position [i], in whatever order the
    entries were given. *)
Theorem get_field_list_by_file numfiles join_list colnames_list field_list :
  get_field_list numfiles (Some join_list) colnames_list = Ok field_list →
  length field_list = numfiles ∧
  ∀ join, join ∈ join_list →
    ∃ i k, parse_column_name join colnames_list = Ok (i, k) ∧
      (0 ≤ i < Z.of_nat numfiles)%Z ∧ field_list !! Z.to_nat i = Some k.
Proof.
  unfold get_field_list.
  destruct (numfiles =? length join_list) eqn:Elen; [|done].
  apply Nat.eqb_eq in Elen. simpl. intros H.
  apply bind_Ok in H as (m & Hfill & H).
  destruct (bool_decide _) eqn:Edom; [|done].
  apply bool_decide_eq_true in Edom. injection H as <-.
  apply fill_join_columns_Ok in Hfill as (ps & Hps & Hm).
  assert (Hdom : dom m = list_to_set (ps.*1)).
  { rewrite Hm, foldl_insert_dom, dom_empty_L. set_solver. }
  assert (Hnd : NoDup (ps.*1)).
  { apply size_list_to_set_NoDup. rewrite <- Hdom, <- Edom.
    rewrite size_list_to_set by (apply NoDup_fmap_2; [apply _|apply NoDup_seq]).
    rewrite !length_fmap, length_seq.
    apply Forall2_length in Hps. lia. }
  pose proof (sorted_items_by_key m numfiles (eq_sym Edom)) as Hkeys.
  split.
  { rewrite length_fmap, <- (length_fmap fst), Hkeys.
    by rewrite length_fmap, length_seq. }
  intros join Hjoin. apply list_elem_of_lookup in Hjoin as [pos Hpos].
  destruct (Forall2_lookup_l _ _ _ _ _ Hps Hpos) as ([i k] & Hp & Hparse).
  apply list_elem_of_lookup_2 in Hp.
  exists i, k. split; [done|].
  assert (Hi : i ∈ (list_to_set (Z.of_nat <$> seq 0 numfiles) : gset Z)).
  { rewrite Edom, Hdom. apply elem_of_list_to_set, list_elem_of_fmap.
    by exists (i, k). }
  apply elem_of_list_to_set, list_elem_of_fmap in Hi as (j & -> & Hj).
  apply elem_of_seq in Hj as [_ Hj]. split; [lia|].
  assert (Hmi : m !! Z.of_nat j = Some k).
  { rewrite Hm. by apply foldl_insert_lookup_in. }
  apply elem_of_map_to_list in Hmi.
  rewrite <- (merge_sort_Permutation key_le) in Hmi.
  apply list_elem_of_lookup in Hmi as [q Hq].
  assert (Hkey : (Z.of_nat <$> seq 0 numfiles) !! q = Some (Z.of_nat j)).
  { rewrite <- Hkeys, list_lookup_fmap, Hq. done. }
  rewrite list_lookup_fmap in Hkey.
  destruct (seq 0 numfiles !! q) as [q'|] eqn:Eq; [|done].
  apply lookup_seq in Eq as [-> _]. injection Hkey as Hkey.
  apply Nat2Z.inj in Hkey as ->.
  rewrite Nat2Z.id, list_lookup_fmap, Hq. done.
Qed.

Lemma get_field_list_by_file_witness :
  length [1; 0] = 2 ∧
  ∀ join, join ∈ ["1:city"; "0:pop"] →
    ∃ i k, parse_column_name join ScenarioA.colnames_list = Ok (i, k) ∧
      (0 ≤ i < Z.of_nat 2)%Z ∧ [1; 0] !! Z.to_nat i = Some k.
Proof.
  apply (get_field_list_by_file 2 ["1:city"; "0:pop"]
           ScenarioA.colnames_list [1; 0]).
  reflexivity.
Defined.

Lemma fill_join_columns_resolved join_list colnames_list ps m0 :
  Forall2 (λ join p, parse_column_name join colnames_list = Ok p)
          join_list ps →
  fill_join_columns join_list colnames_list m0
  = Ok (foldl (λ m (p : Z * nat), <[p.1 := p.2]> m) m0 ps).
Proof.
  intros Hps. revert m0.
  induction Hps as [|join [i k] join_list ps Hp Hps IH]; intros m0; simpl;
    [done|].
  rewrite Hp. simpl. apply IH.
Qed.

(** A join list with the right number of entries, all of which resolve, is
    still refused when some input file has no entry: one entry names a file
    twice, or a file index that is negative or too large. *)
Theorem get_field_list_file_without_entry
    numfiles join_list colnames_list ps j :
  length join_list = numfiles →
  Forall2 (λ join p, parse_column_name join colnames_list = Ok p)
          join_list ps →
  j < numfiles → Z.of_nat j ∉ ps.*1 →
  get_field_list numfiles (Some join_list) colnames_list
  = Raise (AssertionError entries_for_each_file).
Proof.
  intros Hlen Hps Hj Hnot. unfold get_field_list.
  rewrite Hlen, Nat.eqb_refl. simpl.
  rewrite (fill_join_columns_resolved _ _ ps) by done. simpl.
  rewrite bool_decide_eq_false_2; [done|].
  rewrite foldl_insert_dom, dom_empty_L. intros Heq.
  apply Hnot.
  apply (elem_of_list_to_set (C := gset Z)).
  assert (Hin : Z.of_nat j ∈ (list_to_set (Z.of_nat <$> seq 0 numfiles)
                              : gset Z)).
  { apply elem_of_list_to_set, list_elem_of_fmap. exists j.
    split; [done|]. apply elem_of_seq. lia. }
  rewrite Heq in Hin. apply elem_of_union in Hin as [Hin|Hin]; [|done].
  by apply not_elem_of_empty in Hin.
Qed.

Lemma get_field_list_file_without_entry_witness :
  get_field_list 2 (Some ["0:city"; "0:pop"]) ScenarioA.colnames_list
  = Raise (AssertionError entries_for_each_file).
Proof.
  apply (get_field_list_file_without_entry 2 ["0:city"; "0:pop"]
           ScenarioA.colnames_list [(0%Z, 0); (0%Z, 1)] 1).
  - reflexivity.
  - repeat constructor.
  - lia.
  - compute_done.
Defined.

(** A join entry that does not resolve with [ValueError] (it is not of the
    form [i:name], or the header of file [i] has no column [name]) is
    refused with the unknown-column error that names the entry, when the
    entries before it resolve. *)
Theorem get_field_list_unknown_column
    numfiles before join after colnames_list ps :
  length (before ++ join :: after) = numfiles →
  Forall2 (λ join p, parse_column_name join colnames_list = Ok p) before ps →
  (length (split ":" join) ≠ 2 ∨
   ∃ file field,
     split ":" join = [file; field] ∧
     (int file = Raise ValueError ∨
      ∃ i names, int file = Ok i ∧ getitem_int colnames_list i = Ok names ∧
        field ∉ names)) →
  get_field_list numfiles (Some (before ++ join :: after)) colnames_list
  = Raise (UnknownColumn join).
Proof.
  intros Hlen Hps Hjoin%(parse_column_name_unknown _ colnames_list).
  unfold get_field_list. rewrite Hlen, Nat.eqb_refl. simpl.
  assert (Hfill : ∀ m0,
    fill_join_columns (before ++ join :: after) colnames_list m0
    = Raise (UnknownColumn join)).
  { clear Hlen. induction Hps as [|b [i k] before ps Hb Hps IH];
      intros m0; simpl.
    - by rewrite Hjoin.
    - rewrite Hb. simpl. apply IH. }
  by rewrite Hfill.
Qed.

Lemma get_field_list_unknown_column_witness :
  get_field_list 2 (Some (["0:city"] ++ "1:pop" :: []))
    ScenarioA.colnames_list
  = Raise (UnknownColumn "1:pop").
Proof.
  apply (get_field_list_unknown_column 2 ["0:city"] "1:pop" []
           ScenarioA.colnames_list [(0%Z, 0)]).
  - reflexivity.
  - repeat constructor.
  - right. exists "1", "pop". split; [reflexivity|]. right.
    exists 1%Z, ScenarioA.header1. repeat split. compute_done.
Defined.

(** ** The join matcher: termination and edge cases *)

Section matcher_more_facts.
Variable lines_list : list table.
Variable join_field_list : list nat.

Local Abbreviation N := (length lines_list).

(** Fuel beyond what the loop needs changes nothing. *)
Lemma while_loop_more_fuel fuel k ii match_list :
  returns_or_raises
    (while_loop lines_list join_field_list fuel ii match_list) →
  while_loop lines_list join_field_list (fuel + k) ii match_list
  = while_loop lines_list join_field_list fuel ii match_list.
Proof.
  revert ii match_list. induction fuel as [|fuel IH]; intros ii match_list;
    [done|].
  cbn [Nat.add while_loop].
  destruct (no_finished_list lines_list ii) as [[|]|e| |]; try done.
  rewrite !Ok_bind.
  destruct (step lines_list join_field_list ii match_list)
    as [[ii' match_list']|e| |]; try done.
  rewrite !Ok_bind. apply IH.
Qed.

Lemma no_finished_list_empty_table ii i :
  length ii = N → lines_list !! i = Some [] →
  no_finished_list lines_list ii = Ok false.
Proof.
  intros Hlen Hi.
  assert (HN : 0 < N) by (apply lookup_lt_Some in Hi; lia).
  destruct (no_finished_list_Ok lines_list ii Hlen HN) as [[|] Hgo];
    [exfalso|done].
  destruct (lookup_lt_is_Some_2 ii i) as [c Hc].
  { rewrite Hlen. by eapply lookup_lt_Some. }
  pose proof (no_finished_list_true lines_list ii Hgo i c [] Hc Hi) as Hlt.
  simpl in Hlt. lia.
Qed.

End matcher_more_facts.

(** The loop of [get_match_list] ends, with a match list or with an
    exception, within one pass more than table 0 has rows: running it
    longer gives the same result. *)
Theorem get_match_list_terminates lines_list join_field_list k :
  returns_or_raises (get_match_list lines_list join_field_list) ∧
  while_loop lines_list join_field_list (fuel_for lines_list + k)
    (replicate (length lines_list) 0) []
  = get_match_list lines_list join_field_list.
Proof.
  split; [apply get_match_list_returns_or_raises|].
  apply while_loop_more_fuel, get_match_list_returns_or_raises.
Qed.

(** Without input tables [get_match_list] fails with the [TypeError] of
    [reduce] on an empty sequence; with input tables of which one has no
    row it returns no match, and reads no cell and no join field to do
    so. *)
Theorem get_match_list_empty_table join_field_list :
  get_match_list [] join_field_list = Raise TypeError ∧
  ∀ lines_list i,
    lines_list !! i = Some [] →
    get_match_list lines_list join_field_list = Ok [].
Proof.
  split; [done|]. intros lines_list i Hi.
  unfold get_match_list, fuel_for. cbn [while_loop].
  rewrite (no_finished_list_empty_table lines_list _ i);
    [done|apply length_replicate|done].
Qed.

Lemma get_match_list_empty_table_witness :
  get_match_list [[["a"]]; []] [7; 7] = Ok [].
Proof.
  apply (proj2 (get_match_list_empty_table [7; 7]) [[["a"]]; []] 1).
  reflexivity.
Defined.

(** ** The join matcher on tables that are aligned *)

Section matcher_aligned.
Variable lines_list : list table.
Variable join_field_list : list nat.
Variable n : nat.

Local Abbreviation N := (length lines_list).

Hypothesis tables : 0 < N.
Hypothesis rows : ∀ t, t ∈ lines_list → length t = n.
Hypothesis aligned : ∀ r, r < n →
  ∃ v, ∀ i, i < N → join_cell lines_list join_field_list i r = Some v.

Lemma scan_here i v lines k line col :
  lines !! k = Some line → join_field_list !! i = Some col →
  line !! col = Some v →
  scan join_field_list i v (drop k lines) k = Ok (Some k).
Proof.
  intros Hline Hcol Hv.
  rewrite (drop_S _ _ _ Hline). simpl.
  read_item Hcol. read_item Hv. by rewrite String.eqb_refl.
Qed.

Lemma for_tables_aligned k v idxs m :
  (∀ i, i < N → join_cell lines_list join_field_list i k = Some v) →
  Forall (λ i, i < N) idxs →
  for_tables lines_list join_field_list (replicate N k) v idxs m
  = Ok (Some (m ++ replicate (length idxs) k)).
Proof.
  intros Hv Hidxs. revert m.
  induction Hidxs as [|i idxs Hi Hidxs IH]; intros m; simpl.
  - by rewrite app_nil_r.
  - destruct (proj1 (join_cell_Some _ _ _ _ _) (Hv i Hi))
      as (lines & line & col & Hl & Hline & Hcol & Hcell).
    assert (Hc : replicate N k !! i = Some k) by (by apply lookup_replicate_2).
    read_item Hc. read_item Hl.
    rewrite (scan_here i v lines k line col) by done.
    rewrite Ok_bind, IH, <- app_assoc. done.
Qed.

Lemma step_aligned k match_list :
  k < n →
  step lines_list join_field_list (replicate N k) match_list
  = Ok (replicate N (k + 1), match_list ++ [replicate N k]).
Proof.
  intros Hk. destruct (aligned k Hk) as [v Hv].
  destruct (proj1 (join_cell_Some _ _ _ _ _) (Hv 0 tables))
    as (lines0 & line & col0 & Hl0 & Hline & Hcol0 & Hcell).
  assert (Hc : replicate N k !! 0 = Some k) by (by apply lookup_replicate_2).
  unfold step, candidate.
  read_item Hl0. read_item Hc. read_item Hline. read_item Hcol0.
  read_item Hcell.
  rewrite (for_tables_aligned k v) by
    (try done; apply Forall_forall; intros i [_ Hi]%elem_of_seq; lia).
  rewrite Ok_bind, length_seq.
  change ([k] ++ replicate (N - 1) k) with (replicate (S (N - 1)) k).
  replace (S (N - 1)) with N by lia.
  by rewrite fmap_replicate.
Qed.

Lemma no_finished_list_aligned k :
  k ≤ n →
  no_finished_list lines_list (replicate N k) = Ok (bool_decide (k < n)).
Proof.
  intros Hk.
  destruct (no_finished_list_Ok lines_list (replicate N k)
              (length_replicate _ _) tables) as [go Hgo].
  rewrite Hgo. f_equal. destruct go.
  - destruct (lookup_lt_is_Some_2 lines_list 0 tables) as [t Ht].
    pose proof (no_finished_list_true _ _ Hgo 0 k t
                  (lookup_replicate_2 _ _ _ tables) Ht) as Hlt.
    rewrite (rows t) in Hlt by (by eapply list_elem_of_lookup_2).
    by rewrite bool_decide_eq_true_2.
  - apply no_finished_list_false in Hgo as (i & c & t & Hc & Ht & Hle).
    apply lookup_replicate in Hc as [-> _].
    rewrite (rows t) in Hle by (by eapply list_elem_of_lookup_2).
    rewrite bool_decide_eq_false_2; [done|lia].
Qed.

Lemma while_loop_aligned fuel k :
  k ≤ n → n - k < fuel →
  while_loop lines_list join_field_list fuel (replicate N k)
    ((λ r, replicate N r) <$> seq 0 k)
  = Ok ((λ r, replicate N r) <$> seq 0 n).
Proof.
  revert k. induction fuel as [|fuel IH]; intros k Hk Hfuel; [lia|].
  cbn [while_loop]. rewrite no_finished_list_aligned, Ok_bind by done.
  destruct (decide (k < n)) as [Hlt|Hge].
  - rewrite bool_decide_eq_true_2, step_aligned, Ok_bind by done.
    replace (((λ r, replicate N r) <$> seq 0 k) ++ [replicate N k])
      with ((λ r, replicate N r) <$> seq 0 (k + 1)).
    + apply IH; lia.
    + rewrite seq_app, fmap_app. done.
  - rewrite bool_decide_eq_false_2 by done.
    by replace k with n by lia.
Qed.

End matcher_aligned.

(** On tables that all have [n] rows and hold, row by row, the same join
    value, [get_match_list] pairs every row with the rows of the same
    number: joining a table with itself, or files sorted alike on a common
    key, loses no row, repeated keys included. *)
Theorem get_match_list_aligned lines_list join_field_list n :
  0 < length lines_list →
  (∀ t, t ∈ lines_list → length t = n) →
  (∀ r, r < n →
     ∃ v, ∀ i, i < length lines_list →
       join_cell lines_list join_field_list i r = Some v) →
  get_match_list lines_list join_field_list
  = Ok ((λ r, replicate (length lines_list) r) <$> seq 0 n).
Proof.
  intros HN Hrows Haligned. unfold get_match_list, fuel_for.
  destruct (lookup_lt_is_Some_2 lines_list 0 HN) as [t Ht].
  rewrite Ht. simpl default.
  rewrite (Hrows t) by (by eapply list_elem_of_lookup_2).
  apply (while_loop_aligned lines_list join_field_list n HN Hrows Haligned
           (S n) 0); lia.
Qed.

Lemma get_match_list_aligned_witness :
  get_match_list [[["a"]; ["a"]; ["b"]]; [["x"; "a"]; ["y"; "a"]; ["z"; "b"]]]
                 [0; 1]
  = Ok ((λ r, replicate 2 r) <$> seq 0 3).
Proof.
  apply (get_match_list_aligned
           [[["a"]; ["a"]; ["b"]]; [["x"; "a"]; ["y"; "a"]; ["z"; "b"]]]
           [0; 1] 3).
  - simpl. lia.
  - intros t Ht. repeat (apply elem_of_cons in Ht as [->|Ht]; [done|]).
    by apply elem_of_nil in Ht.
  - intros r Hr.
    destruct r as [|[|[|r]]]; [exists "a"|exists "a"|exists "b"|lia];
      intros [|[|i]] Hi; simpl in Hi; try lia; reflexivity.
Defined.

(** ** The join matcher: the order of the search *)

Section matcher_search_facts.
Variable lines_list : list table.
Variable join_field_list : list nat.

Local Abbreviation cell := (join_cell lines_list join_field_list).
Local Abbreviation N := (length lines_list).

(** The rows that a scan passes over before it finds the value hold
    another value. *)
Lemma scan_Some_before i v rest j k q :
  scan join_field_list i v rest j = Ok (Some k) → q < k - j →
  ∃ line col v', rest !! q = Some line ∧ join_field_list !! i = Some col ∧
    line !! col = Some v' ∧ v' ≠ v.
Proof.
  revert j q. induction rest as [|line rest IH]; intros j q H Hq; simpl in H.
  - discriminate.
  - apply bind_Ok in H as (col & Hcol%getitem_Ok & H).
    apply bind_Ok in H as (jv & Hjv%getitem_Ok & H).
    destruct (String.eqb jv v) eqn:E.
    + injection H as <-. lia.
    + apply String.eqb_neq in E. destruct q as [|q].
      * exists line, col, jv. repeat split; try done.
      * apply (IH (S j) q) in H; [|lia]. exact H.
Qed.

(** A scan that finds nothing has passed over every row. *)
Lemma scan_None i v rest j q line :
  scan join_field_list i v rest j = Ok None → rest !! q = Some line →
  ∃ col v', join_field_list !! i = Some col ∧ line !! col = Some v' ∧ v' ≠ v.
Proof.
  revert j q. induction rest as [|line0 rest IH]; intros j q H Hq; simpl in H.
  - by rewrite lookup_nil in Hq.
  - apply bind_Ok in H as (col & Hcol%getitem_Ok & H).
    apply bind_Ok in H as (jv & Hjv%getitem_Ok & H).
    destruct (String.eqb jv v) eqn:E; [discriminate|].
    apply String.eqb_neq in E. destruct q as [|q]; simpl in Hq.
    + injection Hq as <-. exists col, jv. repeat split; try done.
    + by apply (IH (S j) q).
Qed.

Lemma for_tables_Some_before ii v idxs m m' :
  for_tables lines_list join_field_list ii v idxs m = Ok (Some m') →
  ∃ js, m' = m ++ js ∧
    Forall2 (λ i r, ∃ c, ii !! i = Some c ∧
               ∀ r', c ≤ r' < r → ∃ v', cell i r' = Some v' ∧ v' ≠ v)
            idxs js.
Proof.
  revert m. induction idxs as [|i idxs IH]; intros m H; simpl in H.
  - injection H as <-. exists []. by rewrite app_nil_r.
  - apply bind_Ok in H as (c & Hc%getitem_Ok & H).
    apply bind_Ok in H as (lines & Hl%getitem_Ok & H).
    apply bind_Ok in H as (found & Hscan & H).
    destruct found as [r|]; [|discriminate].
    apply IH in H as (js & -> & Hjs).
    exists (r :: js). split; [by rewrite <- app_assoc|].
    constructor; [|done].
    exists c. split; [done|]. intros r' Hr'.
    assert (Hq : r' - c < r - c) by lia.
    destruct (scan_Some_before _ _ _ _ _ _ Hscan Hq)
      as (line & col & v' & Hrow & Hcol & Hv & Hne).
    exists v'. split; [|done].
    apply join_cell_Some. exists lines, line, col. repeat split; try done.
    rewrite lookup_drop in Hrow.
    by replace (c + (r' - c)) with r' in Hrow by lia.
Qed.

Lemma for_tables_None ii v idxs m :
  for_tables lines_list join_field_list ii v idxs m = Ok None →
  ∃ i c, i ∈ idxs ∧ ii !! i = Some c ∧ ∀ r, c ≤ r → cell i r ≠ Some v.
Proof.
  revert m. induction idxs as [|i idxs IH]; intros m H; simpl in H.
  - discriminate.
  - apply bind_Ok in H as (c & Hc%getitem_Ok & H).
    apply bind_Ok in H as (lines & Hl%getitem_Ok & H).
    apply bind_Ok in H as (found & Hscan & H).
    destruct found as [r|].
    + apply IH in H as (i' & c' & Hin & Hc' & Habs).
      exists i', c'. split; [apply elem_of_cons; by right|done].
    + exists i, c. split; [apply elem_of_cons; by left|]. split; [done|].
      intros r Hr (lines' & line & col & E1 & E2 & E3 & E4)%join_cell_Some.
      rewrite Hl in E1. injection E1 as <-.
      assert (Hrow : drop c lines !! (r - c) = Some line).
      { rewrite lookup_drop. by replace (c + (r - c)) with r by lia. }
      destruct (scan_None _ _ _ _ _ _ Hscan Hrow)
        as (col' & v' & Hcol' & Hv' & Hne).
      rewrite E3 in Hcol'. injection Hcol' as <-.
      rewrite E4 in Hv'. injection Hv' as <-. done.
Qed.

(** In a candidate, the row of a table after table 0 is the first one from
    the cursor of the table that holds the join value. *)
Lemma candidate_Some_before ii m i r v :
  candidate lines_list join_field_list ii = Ok (Some m) →
  1 ≤ i → m !! i = Some r → cell i r = Some v →
  ∃ c, ii !! i = Some c ∧
    ∀ r', c ≤ r' < r → ∃ v', cell i r' = Some v' ∧ v' ≠ v.
Proof.
  unfold candidate. intros H Hi Hr Hcell.
  apply bind_Ok in H as (lines0 & Hl0%getitem_Ok & H).
  apply bind_Ok in H as (c0 & Hc0%getitem_Ok & H).
  apply bind_Ok in H as (line & Hline%getitem_Ok & H).
  apply bind_Ok in H as (col0 & Hcol0%getitem_Ok & H).
  apply bind_Ok in H as (v0 & Hv0%getitem_Ok & H).
  pose proof H as (js & Hm & Hjs)%for_tables_Some.
  apply for_tables_Some_before in H as (js' & Hm' & Hbefore).
  rewrite Hm in Hm'. apply app_inv_head in Hm' as <-. subst m.
  destruct i as [|i]; [lia|]. simpl in Hr.
  destruct (Forall2_lookup_r _ _ _ _ _ Hjs Hr) as (i' & Hi' & Hv & _).
  destruct (Forall2_lookup_r _ _ _ _ _ Hbefore Hr)
    as (i'' & Hi'' & c & Hc & Hrows).
  apply lookup_seq in Hi' as [-> _]. apply lookup_seq in Hi'' as [-> _].
  assert (v0 = v) as ->.
  { assert (E : cell (S i) r = Some v0) by exact Hv. congruence. }
  exists c. split; [exact Hc|exact Hrows].
Qed.

(** When there is no candidate, the join value of the row of table 0 is
    in no row, from the cursor on, of some other table. *)
Lemma candidate_None ii :
  candidate lines_list join_field_list ii = Ok None →
  ∃ c0 v i c, ii !! 0 = Some c0 ∧ cell 0 c0 = Some v ∧ 1 ≤ i < N ∧
    ii !! i = Some c ∧ ∀ r, c ≤ r → cell i r ≠ Some v.
Proof.
  unfold candidate. intros H.
  apply bind_Ok in H as (lines0 & Hl0%getitem_Ok & H).
  apply bind_Ok in H as (c0 & Hc0%getitem_Ok & H).
  apply bind_Ok in H as (line & Hline%getitem_Ok & H).
  apply bind_Ok in H as (col0 & Hcol0%getitem_Ok & H).
  apply bind_Ok in H as (v & Hv%getitem_Ok & H).
  apply for_tables_None in H as (i & c & Hi%elem_of_seq & Hc & Habs).
  exists c0, v, i, c. split; [done|].
  split; [apply join_cell_Some; eauto 10|].
  split; [lia|done].
Qed.

Lemma cursor_after_snoc (match_list : list (list nat)) m i r :
  m !! i = Some r → cursor_after (match_list ++ [m]) i = r + 1.
Proof. intros Hr. unfold cursor_after. by rewrite last_snoc, Hr. Qed.

Lemma search_inv_init :
  search_inv lines_list join_field_list (replicate N 0) [].
Proof.
  split.
  - apply length_replicate.
  - intros i Hi. change (cursor_after [] i) with 0.
    apply lookup_replicate_2. lia.
  - intros c0 [-> _]%lookup_replicate. change (cursor_after [] 0) with 0.
    split; [lia|]. intros r0 Hr0. lia.
  - intros p m Hp. by rewrite lookup_nil in Hp.
Qed.

(** One pass keeps the invariant of the search. *)
Lemma step_search ii match_list ii' match_list' :
  search_inv lines_list join_field_list ii match_list →
  step lines_list join_field_list ii match_list = Ok (ii', match_list') →
  search_inv lines_list join_field_list ii' match_list'.
Proof.
  intros Inv H. unfold step in H.
  apply bind_Ok in H as (found & Hcand & H).
  destruct found as [m|].
  - injection H as <- <-.
    pose proof Hcand
      as ((v & Hlen & Hm) & c0 & lines0 & Hc0 & Hm0 & Hl0 & Hlt)%candidate_Some.
    assert (Hcur : ∀ i, 1 ≤ i → i < length m →
              ii !! i = Some (cursor_after match_list i)).
    { intros i Hi Hi'. apply (search_cursor _ _ _ _ Inv). lia. }
    assert (Hfm : first_match lines_list join_field_list
                    (cursor_after match_list) m).
    { split.
      - done.
      - exists v. intros i r Hr.
        destruct (Hm i r Hr) as [Hcell (c & Hc & Hle)].
        split; [done|]. destruct i as [|i].
        + destruct (search_cursor0 _ _ _ _ Inv c Hc) as [Hle0 _]. lia.
        + rewrite Hcur in Hc by (try lia; by eapply lookup_lt_Some).
          injection Hc as <-. done.
      - intros i r w r' Hi Hr Hcell Hr'.
        destruct (candidate_Some_before ii m i r w Hcand Hi Hr Hcell)
          as (c & Hc & Hbefore).
        rewrite Hcur in Hc by (try lia; by eapply lookup_lt_Some).
        injection Hc as <-. by apply Hbefore.
      - intros r0 r0' Hr0 Hr0'. rewrite Hm0 in Hr0. injection Hr0 as <-.
        destruct (search_cursor0 _ _ _ _ Inv c0 Hc0) as [_ Hskip].
        apply Hskip. lia. }
    split.
    + by rewrite length_fmap.
    + intros i Hi.
      destruct (lookup_lt_is_Some_2 m i) as [r Hr]; [lia|].
      by rewrite list_lookup_fmap, Hr, (cursor_after_snoc match_list m i r Hr).
    + intros c Hc. rewrite list_lookup_fmap, Hm0 in Hc. injection Hc as <-.
      rewrite (cursor_after_snoc match_list m 0 c0 Hm0).
      split; [lia|]. intros r0 Hr0. lia.
    + intros p m' Hp. destruct (decide (p < length match_list)) as [Hlt'|Hge].
      * rewrite lookup_app_l in Hp by lia. rewrite take_app_le by lia.
        by apply (search_matches _ _ _ _ Inv).
      * rewrite lookup_app_r in Hp by lia.
        apply list_lookup_singleton_Some in Hp as [Hp <-].
        replace p with (length match_list) by lia.
        by rewrite take_app_length.
  - apply bind_Ok in H as (c0' & Hc0'%getitem_Ok & H). injection H as <- <-.
    apply candidate_None in Hcand
      as (c0 & v & i & c & Hc0 & Hcell0 & Hi & Hc & Habs).
    rewrite Hc0 in Hc0'. injection Hc0' as <-.
    assert (H0 : 0 < length ii) by (by eapply lookup_lt_Some).
    destruct (search_cursor0 _ _ _ _ Inv c0 Hc0) as [Hle Hskip].
    split.
    + rewrite length_insert. apply (search_length _ _ _ _ Inv).
    + intros j Hj. rewrite list_lookup_insert_ne by lia.
      by apply (search_cursor _ _ _ _ Inv).
    + intros c1 Hc1. rewrite list_lookup_insert_eq in Hc1 by done.
      injection Hc1 as <-. split; [lia|]. intros r0 Hr0.
      destruct (decide (r0 = c0)) as [->|Hne].
      * unfold without_partner. exists v, i. split; [done|]. split; [done|].
        rewrite (search_cursor _ _ _ _ Inv i Hi) in Hc. injection Hc as <-.
        exact Habs.
      * apply Hskip. lia.
    + apply (search_matches _ _ _ _ Inv).
Qed.

(** The loop keeps the invariant, and it ends on a guard that is false. *)
Lemma while_loop_search fuel ii match_list res :
  search_inv lines_list join_field_list ii match_list →
  while_loop lines_list join_field_list fuel ii match_list = Ok res →
  ∃ ii', search_inv lines_list join_field_list ii' res ∧
    no_finished_list lines_list ii' = Ok false.
Proof.
  revert ii match_list.
  induction fuel as [|fuel IH]; intros ii match_list Inv H; simpl in H.
  - discriminate.
  - apply bind_Ok in H as (go & Hgo & H). destruct go.
    + apply bind_Ok in H as ([ii' match_list'] & Hstep & H).
      eapply IH; [|exact H]. by eapply step_search.
    + injection H as <-. eauto.
Qed.

Lemma get_match_list_search res :
  get_match_list lines_list join_field_list = Ok res →
  ∃ ii, search_inv lines_list join_field_list ii res ∧
    no_finished_list lines_list ii = Ok false.
Proof. apply while_loop_search, search_inv_init. Qed.

End matcher_search_facts.

(** In every table, a match takes the first row that holds its join value,
    counted from the row after the previous match (from row 0 for the first
    match): every row in between has a join cell, with another value. *)
Theorem match_rows_are_first
    lines_list join_field_list match_list p m i r v r' :
  get_match_list lines_list join_field_list = Ok match_list →
  match_list !! p = Some m → m !! i = Some r →
  join_cell lines_list join_field_list i r = Some v →
  cursor_after (take p match_list) i ≤ r' < r →
  ∃ v', join_cell lines_list join_field_list i r' = Some v' ∧ v' ≠ v.
Proof.
  intros (ii & Inv & _)%get_match_list_search Hp Hr Hcell Hr'.
  pose proof (search_matches _ _ _ _ Inv p m Hp) as Hfm.
  destruct i as [|i];
    [|apply (first_row _ _ _ _ Hfm (S i) r v r'); (done || lia)].
  destruct (first_row0 _ _ _ _ Hfm r r' Hr Hr')
    as (v' & i' & Hcell' & Hi' & Habs).
  exists v'. split; [done|]. intros ->.
  destruct (first_value _ _ _ _ Hfm) as (w & Hw).
  destruct (Hw 0 r Hr) as [Hcell0 _].
  rewrite Hcell in Hcell0. injection Hcell0 as <-.
  destruct (lookup_lt_is_Some_2 m i') as [ri Hri].
  { rewrite (first_length _ _ _ _ Hfm). lia. }
  destruct (Hw i' ri Hri) as [Hcelli Hle].
  by apply (Habs ri Hle).
Qed.

Lemma match_rows_are_first_witness :
  ∃ v', join_cell ScenarioA.lines_list [0; 0] 1 0 = Some v' ∧ v' ≠ "NYC".
Proof.
  apply (match_rows_are_first ScenarioA.lines_list [0; 0] [[0; 1]] 0 [0; 1]
           1 1 "NYC" 0); try reflexivity.
  unfold cursor_after. simpl. lia.
Defined.

(** A row of table 0 that lies between two matches (or before the first
    match) was passed over for a reason: its join value is in no row, after
    the previous match, of one of the other tables. *)
Theorem skipped_rows_have_no_partner
    lines_list join_field_list match_list p m r0 r0' :
  get_match_list lines_list join_field_list = Ok match_list →
  match_list !! p = Some m → m !! 0 = Some r0 →
  cursor_after (take p match_list) 0 ≤ r0' < r0 →
  without_partner lines_list join_field_list
    (cursor_after (take p match_list)) r0'.
Proof.
  intros (ii & Inv & _)%get_match_list_search Hp Hr0 Hr0'.
  exact (first_row0 _ _ _ _ (search_matches _ _ _ _ Inv p m Hp)
           r0 r0' Hr0 Hr0').
Qed.

Lemma skipped_rows_have_no_partner_witness :
  without_partner [[["x"]; ["a"]]; [["a"]]] [0; 0]
    (cursor_after (take 0 [[1; 0]])) 0.
Proof.
  apply (skipped_rows_have_no_partner [[["x"]; ["a"]]; [["a"]]] [0; 0]
           [[1; 0]] 0 [1; 0] 1 0); try reflexivity.
  unfold cursor_after. simpl. lia.
Defined.

(** After the last match: when every table after table 0 has rows left
    after its row of the last match, every row that table 0 has left was
    tried, and its join value is in no row left of one of the other
    tables. *)
Theorem rows_after_last_match_have_no_partner
    lines_list join_field_list match_list lines0 r0 :
  get_match_list lines_list join_field_list = Ok match_list →
  (∀ i lines, 1 ≤ i → lines_list !! i = Some lines →
     cursor_after match_list i < length lines) →
  lines_list !! 0 = Some lines0 →
  cursor_after match_list 0 ≤ r0 < length lines0 →
  without_partner lines_list join_field_list (cursor_after match_list) r0.
Proof.
  intros (ii & Inv & Hgo)%get_match_list_search Hleft Hl0 Hr0.
  apply no_finished_list_false in Hgo as (i & c & lines & Hc & Hl & Hle).
  destruct i as [|i].
  - rewrite Hl0 in Hl. injection Hl as <-.
    destruct (search_cursor0 _ _ _ _ Inv c Hc) as [_ Hskip].
    apply Hskip. lia.
  - assert (Hi : 1 ≤ S i < length lines_list).
    { apply lookup_lt_Some in Hl. lia. }
    rewrite (search_cursor _ _ _ _ Inv (S i) Hi) in Hc. injection Hc as <-.
    pose proof (Hleft (S i) lines (proj1 Hi) Hl). lia.
Qed.

Lemma rows_after_last_match_have_no_partner_witness :
  without_partner [[["a"]; ["x"]]; [["a"]; ["b"]]] [0; 0]
    (cursor_after [[0; 0]]) 1.
Proof.
  apply (rows_after_last_match_have_no_partner
           [[["a"]; ["x"]]; [["a"]; ["b"]]] [0; 0] [[0; 0]]
           [["a"]; ["x"]] 1).
  - reflexivity.
  - intros [|[|i]] lines Hi Hl; simpl in Hl; [lia| |discriminate].
    injection Hl as <-. unfold cursor_after. simpl. lia.
  - reflexivity.
  - unfold cursor_after. simpl. lia.
Defined.

(** ** [parse_csv]: white space *)

Lemma drop_while_head {A} (p : A → bool) l x l' :
  drop_while p l = x :: l' → p x = false.
Proof.
  induction l as [|y l IH]; simpl; [done|].
  destruct (p y) eqn:E; [done|]. by intros [= <- _].
Qed.

Lemma drop_while_here {A} (p : A → bool) x l :
  p x = false → drop_while p (x :: l) = x :: l.
Proof. intros H. simpl. by rewrite H. Qed.

Lemma drop_while_suffix {A} (p : A → bool) l :
  ∃ pre, l = pre ++ drop_while p l.
Proof.
  induction l as [|y l [pre IH]]; simpl; [by exists []|].
  destruct (p y); [|by exists []].
  exists (y :: pre). simpl. by f_equal.
Qed.

Lemma drop_while_snoc {A} (p : A → bool) l x :
  p x = false → ∃ t, drop_while p (l ++ [x]) = t ++ [x].
Proof.
  intros Hx. induction l as [|y l [t IH]]; simpl.
  - rewrite Hx. by exists [].
  - destruct (p y); [by exists t|]. by exists (y :: l).
Qed.

(** [strip] leaves a first character that is no white space where it is. *)
Lemma strip_cons x l : is_space x = false → ∃ l', strip (x :: l) = x :: l'.
Proof.
  intros Hx. unfold strip. rewrite (drop_while_here _ _ _ Hx), reverse_cons.
  destruct (drop_while_snoc is_space (reverse l) x Hx) as [t ->].
  exists (reverse t). by rewrite reverse_app.
Qed.

Lemma strip_head l x l' : strip l = x :: l' → is_space x = false.
Proof.
  unfold strip. intros H.
  destruct (drop_while_suffix is_space (reverse (drop_while is_space l)))
    as [pre Hpre].
  apply (f_equal reverse) in Hpre.
  rewrite reverse_involutive, reverse_app, H in Hpre. simpl in Hpre.
  by eapply drop_while_head.
Qed.

Lemma strip_last l x l' : reverse (strip l) = x :: l' → is_space x = false.
Proof. unfold strip. rewrite reverse_involutive. apply drop_while_head. Qed.

Lemma strip_fixed l :
  (∀ x l', l = x :: l' → is_space x = false) →
  (∀ x l', reverse l = x :: l' → is_space x = false) →
  strip l = l.
Proof.
  intros Hhead Hlast. unfold strip.
  assert (E : ∀ k, (∀ x k', k = x :: k' → is_space x = false) →
                   drop_while is_space k = k).
  { intros [|x k] Hk; [done|]. apply drop_while_here. by eapply Hk. }
  rewrite (E l Hhead), (E (reverse l) Hlast). apply reverse_involutive.
Qed.

Lemma strip_strip l : strip (strip l) = strip l.
Proof.
  apply strip_fixed; intros x l' H; [by eapply strip_head|by eapply strip_last].
Qed.

Lemma str_strip_strip s : str_strip (str_strip s) = str_strip s.
Proof. unfold str_strip. by rewrite chars_str_of, strip_strip. Qed.

(** ** [parse_csv]: what it returns *)

Lemma split_str_go_nonempty sep skip cur s : split_str_go sep skip cur s ≠ [].
Proof.
  revert skip cur. induction s as [|c s IH]; intros skip cur; simpl; [done|].
  destruct skip; [|apply IH]. destruct (is_prefix sep (c :: s)); [done|apply IH].
Qed.

Lemma split_str_Ok s sep : sep ≠ "" → ∃ l, split_str s sep = Ok l ∧ l ≠ [].
Proof.
  intros Hsep. unfold split_str.
  destruct (chars sep) as [|a sep'] eqn:E.
  - destruct sep; [done|discriminate].
  - eexists. split; [done|]. apply split_str_go_nonempty.
Qed.

Lemma parse_csv_returns raw_data sep :
  sep ≠ "" →
  ∃ column_names lines,
    parse_csv raw_data sep = Ok (column_names, lines) ∧
    Forall (λ name, str_strip name = name) column_names ∧
    Forall (λ line, line ≠ [] ∧ Forall (λ cell, str_strip cell = cell) line)
           lines.
Proof.
  intros Hsep. unfold parse_csv.
  destruct (split_str_Ok raw_data newline) as (ls & -> & Hls); [done|].
  destruct ls as [|line0 ls]; [done|].
  rewrite !Ok_bind. cbv beta.
  change (getitem (line0 :: ls) 0) with (Ok line0). rewrite Ok_bind.
  assert (Hnames : ∃ names, named_columns line0 sep = Ok names ∧
                     Forall (λ name, str_strip name = name) names).
  { unfold named_columns. destruct (startswith _ _).
    - destruct (split_str_Ok (str_strip (str_drop 1 (str_strip line0))) sep
                  Hsep) as (l & -> & _).
      rewrite Ok_bind. eexists. split; [done|].
      apply Forall_fmap, Forall_forall. intros x _. apply str_strip_strip.
    - exists []. split; [done|constructor]. }
  destruct Hnames as (names & -> & Hnames). rewrite Ok_bind.
  set (kept := filter _ (line0 :: ls)).
  assert (Hrows : ∃ rows, mapM (λ line, split_str line sep) kept = Ok rows ∧
                    Forall (λ r, r ≠ []) rows).
  { clearbody kept. induction kept as [|l kept (rows & IH & Hne)].
    - exists []. split; [done|constructor].
    - destruct (split_str_Ok l sep Hsep) as (r & Hr & Hrne).
      exists (r :: rows). split; [|by constructor].
      apply mapM_Ok. constructor; [done|]. by apply mapM_Ok. }
  destruct Hrows as (rows & -> & Hrows). rewrite Ok_bind.
  eexists _, _. split; [done|]. split; [done|].
  apply Forall_fmap. eapply Forall_impl; [exact Hrows|].
  intros r Hr. simpl. split.
  - by destruct r.
  - apply Forall_fmap, Forall_forall. intros x _. apply str_strip_strip.
Qed.

(** With a separator that is not empty [parse_csv] does not fail, whatever
    the text is.  The column names and the cells that it returns have no
    white space at their ends, and every row has at least one cell. *)
Theorem parse_csv_cells_stripped raw_data sep :
  sep ≠ "" →
  ∃ column_names lines,
    parse_csv raw_data sep = Ok (column_names, lines) ∧
    Forall (λ name, str_strip name = name) column_names ∧
    Forall (λ line, line ≠ [] ∧ Forall (λ cell, str_strip cell = cell) line)
           lines.
Proof. apply parse_csv_returns. Qed.

Lemma parse_csv_cells_stripped_witness :
  ∃ column_names lines,
    parse_csv ("# a, b" +:+ newline +:+ " 1 ,2 " +:+ newline) ","
      = Ok (column_names, lines) ∧
    Forall (λ name, str_strip name = name) column_names ∧
    Forall (λ line, line ≠ [] ∧ Forall (λ cell, str_strip cell = cell) line)
           lines.
Proof.
  apply (parse_csv_cells_stripped
           ("# a, b" +:+ newline +:+ " 1 ,2 " +:+ newline) ",").
  discriminate.
Defined.

(** ** [parse_csv]: reading back what [main] writes *)

Lemma split_str_go_char c cur s :
  split_str_go [c] 0 cur s = split_go c cur s.
Proof.
  revert cur. induction s as [|a s IH]; intros cur; [done|].
  simpl. rewrite andb_true_r.
  destruct (Ascii.eqb_spec c a) as [->|Hne].
  - by rewrite Ascii.eqb_refl, IH.
  - destruct (Ascii.eqb_spec a c) as [->|_]; [done|]. apply IH.
Qed.

Lemma split_str_char s c : split_str s (String c "") = Ok (split c s).
Proof. unfold split_str, split. simpl. by rewrite split_str_go_char. Qed.

Lemma notin_eqb (sep : ascii) ds :
  sep ∉ ds → Forall (λ c, Ascii.eqb c sep = false) ds.
Proof.
  intros H. apply Forall_forall. intros c Hc. apply Ascii.eqb_neq.
  by intros ->.
Qed.

Lemma split_go_last sep cur ds :
  Forall (λ c, Ascii.eqb c sep = false) ds →
  split_go sep cur ds = [str_of (reverse cur ++ ds)].
Proof.
  intros Hds. revert cur. induction Hds as [|c ds Hc Hds IH]; intros cur.
  - simpl. by rewrite app_nil_r.
  - simpl. rewrite Hc, IH, reverse_cons, <- app_assoc. done.
Qed.

Lemma chars_join_str sep cell line :
  chars (join_str sep (cell :: line))
  = chars cell ++ match line with
                  | [] => []
                  | _ => chars sep ++ chars (join_str sep line)
                  end.
Proof.
  destruct line as [|cell' line].
  - simpl. by rewrite app_nil_r.
  - change (join_str sep (cell :: cell' :: line))
      with (cell +:+ sep +:+ join_str sep (cell' :: line)).
    by rewrite !chars_app.
Qed.

Lemma split_join_str (sep : ascii) line :
  line ≠ [] → Forall (λ cell, sep ∉ chars cell) line →
  split sep (join_str (String sep "") line) = line.
Proof.
  intros Hne Hline. induction Hline as [|cell line Hcell Hline IH]; [done|].
  unfold split. rewrite chars_join_str. destruct line as [|cell' line].
  - rewrite app_nil_r, split_go_last by (by apply notin_eqb).
    simpl. by rewrite str_of_chars.
  - change (chars (String sep "")) with [sep]. simpl app at 2.
    rewrite split_go_first by (by apply notin_eqb).
    simpl. rewrite str_of_chars. f_equal. by apply IH.
Qed.

Lemma notin_join_str (c : ascii) sep line :
  c ∉ chars sep → Forall (λ cell, c ∉ chars cell) line →
  c ∉ chars (join_str sep line).
Proof.
  intros Hsep Hline. induction Hline as [|cell line Hcell Hline IH].
  - simpl. apply not_elem_of_nil.
  - rewrite chars_join_str. destruct line as [|cell' line].
    + by rewrite app_nil_r.
    + rewrite !not_elem_of_app. done.
Qed.

Lemma chars_written_text line lines :
  chars (written_text (line :: lines))
  = chars (join_str "," line) ++ ascii_of_nat 10 :: chars (written_text lines).
Proof.
  unfold written_text. rewrite fmap_cons. cbn [foldr].
  rewrite !chars_app, <- app_assoc. done.
Qed.

Lemma split_written_text lines :
  Forall (λ line, ascii_of_nat 10 ∉ chars (join_str "," line)) lines →
  split (ascii_of_nat 10) (written_text lines)
  = (join_str "," <$> lines) ++ [""].
Proof.
  intros H. induction H as [|line lines Hline H IH]; [done|].
  unfold split. rewrite chars_written_text.
  rewrite split_go_first by (by apply notin_eqb).
  rewrite reverse_nil, app_nil_l, str_of_chars, fmap_cons.
  simpl app. f_equal. exact IH.
Qed.

Lemma plain_cell_strip sep cell :
  plain_cell sep cell → strip (chars cell) = chars cell.
Proof.
  intros [H _]. apply (f_equal chars) in H. unfold str_strip in H.
  by rewrite chars_str_of in H.
Qed.

(** The line of a plain row starts with a character that is neither white
    space nor [#]. *)
Lemma plain_row_line_head line :
  plain_row "," line →
  ∃ x l, chars (join_str "," line) = x :: l ∧ is_space x = false ∧
    x ≠ "#"%char.
Proof.
  intros (Hcells & Hne & Hne' & Hhash).
  destruct line as [|cell line]; [done|].
  apply Forall_cons in Hcells as [Hcell Hcells].
  rewrite chars_join_str. simpl in Hhash.
  destruct (chars cell) as [|x l] eqn:E.
  - destruct line as [|cell' line].
    + exfalso. apply Hne'. f_equal. by rewrite <- (str_of_chars cell), E.
    + exists ","%char, (chars (join_str "," (cell' :: line))). done.
  - eexists x, _. split; [done|]. split.
    + apply (strip_head (chars cell) x l).
      by rewrite (plain_cell_strip _ _ Hcell).
    + intros ->. unfold startswith in Hhash. rewrite E in Hhash. done.
Qed.

Lemma plain_row_data_line line :
  plain_row "," line → is_data_line (join_str "," line) = true.
Proof.
  intros (x & l & E & Hx & Hhash)%plain_row_line_head.
  unfold is_data_line. apply andb_true_iff. split.
  - apply negb_true_iff, String.eqb_neq. intros H. by rewrite H in E.
  - apply negb_true_iff. unfold startswith, str_strip.
    rewrite chars_str_of, E. destruct (strip_cons x l Hx) as [l' ->].
    change (chars "#") with ["#"%char]. cbn [is_prefix].
    rewrite andb_true_r. apply Ascii.eqb_neq. congruence.
Qed.

(** What [main] writes, [parse_csv] reads back: the text of rows of plain
    cells, parsed with the separator [,], gives the same rows, and no
    column names. *)
Theorem parse_csv_written_text lines :
  Forall (plain_row ",") lines →
  parse_csv (written_text lines) "," = Ok ([], lines).
Proof.
  intros Hlines. unfold parse_csv, newline.
  rewrite split_str_char, Ok_bind, split_written_text.
  2: { eapply Forall_impl; [exact Hlines|]. intros line (Hcells & _).
       apply notin_join_str.
       - by intros [=]%list_elem_of_singleton.
       - eapply Forall_impl; [exact Hcells|]. by intros cell (_ & _ & H). }
  destruct (((join_str "," <$> lines) ++ [""]) !! 0) as [line0|] eqn:E0;
    [|by destruct lines].
  read_item E0.
  assert (Hnames : named_columns line0 "," = Ok []).
  { unfold named_columns. destruct Hlines as [|line lines' Hline _].
    - by injection E0 as <-.
    - injection E0 as <-. apply plain_row_data_line in Hline.
      unfold is_data_line in Hline.
      apply andb_true_iff in Hline as [_ Hline%negb_true_iff].
      by rewrite Hline. }
  rewrite Hnames, Ok_bind.
  assert (Hfilter : filter (λ line, is_data_line line = true)
                      ((join_str "," <$> lines) ++ [""])
                    = join_str "," <$> lines).
  { rewrite filter_app. change (filter _ [""]) with (@nil string).
    rewrite app_nil_r. clear E0 Hnames.
    induction Hlines as [|line lines' Hline _ IH]; [done|].
    rewrite fmap_cons, filter_cons_True by (by apply plain_row_data_line).
    by f_equal. }
  rewrite Hfilter.
  assert (Hrows : mapM (λ line, split_str line ",") (join_str "," <$> lines)
                  = Ok lines).
  { apply mapM_Ok, Forall2_fmap_l, Forall_Forall2_diag.
    eapply Forall_impl; [exact Hlines|]. intros line (Hcells & Hne & _).
    simpl. rewrite split_str_char. f_equal. apply split_join_str; [done|].
    eapply Forall_impl; [exact Hcells|]. by intros cell (_ & H & _). }
  rewrite Hrows, Ok_bind. do 2 f_equal.
  clear E0 Hnames Hfilter Hrows.
  induction Hlines as [|line lines' (Hcells & _) _ IH]; [done|].
  rewrite fmap_cons, IH. f_equal.
  clear IH. induction Hcells as [|cell line' (Hcell & _) _ IH]; [done|].
  by rewrite fmap_cons, Hcell, IH.
Qed.

Lemma parse_csv_written_text_witness :
  parse_csv (written_text [["NYC"; "8"; "300"]; [""; "x y"]]) ","
  = Ok ([], [["NYC"; "8"; "300"]; [""; "x y"]]).
Proof.
  apply (parse_csv_written_text [["NYC"; "8"; "300"]; [""; "x y"]]).
  compute_done.
Defined.

(** ** [parse_csv]: the lines that it passes over *)

Lemma split_go_app sep cur a b :
  split_go sep cur (a ++ sep :: b) = split_go sep cur a ++ split_go sep [] b.
Proof.
  revert cur. induction a as [|x a IH]; intros cur; simpl.
  - by rewrite Ascii.eqb_refl.
  - destruct (Ascii.eqb x sep); [|apply IH]. by rewrite IH.
Qed.

Lemma split_go_cons sep cur s : ∃ x l, split_go sep cur s = x :: l.
Proof.
  revert cur. induction s as [|c s IH]; intros cur; simpl; [eauto|].
  destruct (Ascii.eqb c sep); eauto.
Qed.

(** A line that is no data line (an empty line, or a comment) put after a
    line end of the text changes nothing of what [parse_csv] returns,
    whatever the separator is. *)
Theorem parse_csv_skips_line a line b sep :
  ascii_of_nat 10 ∉ chars line → is_data_line line = false →
  parse_csv (a +:+ newline +:+ line +:+ newline +:+ b) sep
  = parse_csv (a +:+ newline +:+ b) sep.
Proof.
  intros Hline Hskip. unfold parse_csv, newline.
  rewrite !split_str_char, !Ok_bind. unfold split.
  rewrite !chars_app.
  change (chars (String (ascii_of_nat 10) "")) with [ascii_of_nat 10].
  cbn [app]. rewrite !split_go_app.
  rewrite (split_go_last _ [] (chars line)) by (by apply notin_eqb).
  rewrite reverse_nil, app_nil_l, str_of_chars.
  destruct (split_go_cons (ascii_of_nat 10) [] (chars a)) as (x & l & ->).
  assert (Hfirst : ∀ k, getitem ((x :: l) ++ k) 0 = Ok x) by done.
  rewrite !Hfirst, !Ok_bind.
  rewrite !filter_app, (filter_cons_False _ line), filter_nil by congruence.
  done.
Qed.

Lemma parse_csv_skips_line_witness :
  parse_csv ("k,v" +:+ newline +:+ "  # note" +:+ newline +:+ "1,2") ","
  = parse_csv ("k,v" +:+ newline +:+ "1,2") ",".
Proof.
  apply (parse_csv_skips_line "k,v" "  # note" "1,2" ",");
    [compute_done|reflexivity].
Defined.

(** ** A power whose base is a negative cell *)

(** What a cell that is written with a minus sign contributes to the
    tokens: the sign, then the literal. *)
Lemma lex_negative_cell cell a :
  int_cell cell = Some a → startswith cell "-" = true →
  lex (chars cell) [] = Ok [TOp Sub; TNum (- a)].
Proof.
  intros Hcell Hminus. unfold startswith in Hminus.
  destruct (int_cell_tokens cell a Hcell) as [H | (z & -> & H)].
  - destruct (chars cell) as [|c w] eqn:Echars; [done|].
    change (chars "-") with ["-"%char] in Hminus. cbn [is_prefix] in Hminus.
    rewrite andb_true_r in Hminus. apply Ascii.eqb_eq in Hminus as <-.
    change (lex ("-"%char :: w) [])
      with (ts ← lex w []; mret (TOp Sub :: ts)) in H.
    by destruct (lex w []).
  - by rewrite Z.opp_involutive.
Qed.

Lemma eval_power_negative (x y : string) (a b : Z) :
  int_cell x = Some a → startswith x "-" = true →
  int_cell y = Some b → (0 ≤ b)%Z →
  eval (x +:+ " ** " +:+ y +:+ "") = Ok (VInt (- ((- a) ^ b))).
Proof.
  intros Hx Hminus Hy Hb. unfold eval, parse.
  change (x +:+ " ** " +:+ y +:+ "")
    with (x +:+ " " +:+ op_text Pow +:+ " " +:+ y +:+ "").
  rewrite lex_binary, (lex_negative_cell x a Hx Hminus).
  destruct (int_cell_tokens y b Hy) as [-> | (zy & -> & ->)];
    cbn -[Z.leb Z.pow Z.opp Z.eqb];
    by rewrite (proj2 (Z.leb_le _ _) Hb).
Qed.

(** The cells are put into the formula as text, without parentheses.  So in
    [0:a ** 1:b] a cell of column [a] that is written with a minus sign is
    not the base of the power: [**] binds more than the sign, and the
    result is the power of the absolute value, negated ([-2 ** 2] is
    [-4]). *)
Theorem power_of_negative_cell colnames_list lines pa pb x y a b :
  parse_column_name "0:a" colnames_list = Ok pa →
  parse_column_name "1:b" colnames_list = Ok pb →
  cell_of lines pa = Ok x → cell_of lines pb = Ok y →
  int_cell x = Some a → startswith x "-" = true →
  int_cell y = Some b → (0 ≤ b)%Z →
  ∃ e,
    Expression_init "0:a ** 1:b" colnames_list = Ok e ∧
    run e lines = str (VInt (- ((- a) ^ b))).
Proof.
  intros Hpa Hpb Hx Hy Ha Hminus Hb Hb0.
  exists {| expr_ := "{} ** {}"; pars_ := ParsList [pa; pb] |}.
  split; [by apply (Expression_init_formula2 _ "0:a" "1:b")|].
  assert (Hvals : mapM (cell_of lines) [pa; pb] = Ok [x; y]).
  { apply mapM_Ok. by repeat constructor. }
  unfold run. cbn [expr_ pars_].
  change (String.eqb "{} ** {}" "") with false. cbv iota.
  rewrite Hvals, Ok_bind, (format_binary Pow), Ok_bind.
  change (x +:+ " " +:+ op_text Pow +:+ " " +:+ y +:+ "")
    with (x +:+ " ** " +:+ y +:+ "").
  by rewrite (eval_power_negative x y a b Ha Hminus Hb Hb0).
Qed.

Lemma power_of_negative_cell_witness :
  ∃ e,
    Expression_init "0:a ** 1:b" [["a"]; ["b"]] = Ok e ∧
    run e [["-2"]; ["2"]] = str (VInt (- ((- -2) ^ 2))).
Proof.
  apply (power_of_negative_cell [["a"]; ["b"]] [["-2"]; ["2"]]
           (0%Z, 0) (1%Z, 0) "-2" "2" (-2)%Z 2%Z); try reflexivity.
  lia.
Defined.

(** ** From the text of the files to the match list *)

Lemma parse_csv_all_return raw_list sep :
  sep ≠ "" →
  ∃ inputs : list (list string * table),
    mapM (λ raw_data, parse_csv raw_data sep) raw_list = Ok inputs ∧
    length inputs = length raw_list ∧
    Forall (λ lines : table, Forall (λ line, 0 < length line) lines)
           (inputs.*2).
Proof.
  intros Hsep. induction raw_list as [|raw raw_list (inputs & IH & Hlen & Hall)].
  - exists []. by repeat split.
  - destruct (parse_csv_returns raw sep Hsep)
      as (names & lines & Hparse & _ & Hlines).
    exists ((names, lines) :: inputs). split; [|split].
    + apply mapM_Ok. constructor; [done|]. by apply mapM_Ok.
    + simpl. by rewrite Hlen.
    + rewrite fmap_cons. constructor; [|done]. simpl.
      eapply Forall_impl; [exact Hlines|]. intros [|cell line] [Hne _]; [done|].
      simpl. lia.
Qed.

(** Joining files on their first column cannot fail: whatever the texts of
    the input files are, [parse_csv] (with a separator that is not empty)
    returns tables on which [get_match_list], with column 0 as the join
    column of every file, returns a match list. *)
Theorem join_on_first_column raw_list sep :
  sep ≠ "" → raw_list ≠ [] →
  ∃ inputs match_list,
    mapM (λ raw_data, parse_csv raw_data sep) raw_list = Ok inputs ∧
    get_match_list (inputs.*2) (replicate (length inputs) 0) = Ok match_list.
Proof.
  intros Hsep Hne.
  destruct (parse_csv_all_return raw_list sep Hsep)
    as (inputs & Hparse & Hlen & Hall).
  assert (HN : 0 < length (inputs.*2)).
  { rewrite length_fmap, Hlen. destruct raw_list; [done|simpl; lia]. }
  destruct (get_match_list_in_bounds (inputs.*2)
              (replicate (length inputs) 0)) as [match_list Hml]; [|done|eauto].
  split.
  - by rewrite length_replicate, length_fmap.
  - rewrite length_fmap, take_replicate, Nat.min_id.
    apply Forall2_replicate_r; [by rewrite length_fmap|exact Hall].
Qed.

Lemma join_on_first_column_witness :
  ∃ inputs match_list,
    mapM (λ raw_data, parse_csv raw_data ",")
         ["k,v" +:+ newline +:+ "x"; ""] = Ok inputs ∧
    get_match_list (inputs.*2) (replicate (length inputs) 0) = Ok match_list.
Proof.
  apply (join_on_first_column ["k,v" +:+ newline +:+ "x"; ""] ",");
    discriminate.
Defined.

(** ** [parse_csv] with an empty separator *)

Lemma mapM_split_empty (l : list string) :
  mapM (λ line, split_str line "") l
  = match l with [] => Ok [] | _ => Raise ValueError end.
Proof. by destruct l. Qed.

(** The header and the rows are computed from the same lines, whatever the
    separator is. *)
Lemma parse_csv_lines raw_data :
  ∃ line0 ls, ∀ sep,
    parse_csv raw_data sep
    = (column_names ← named_columns line0 sep;
       lines ← mapM (λ line, split_str line sep)
                    (filter (λ line, is_data_line line = true) (line0 :: ls));
       Ok (column_names, (λ line : list string, str_strip <$> line) <$> lines)).
Proof.
  unfold parse_csv.
  destruct (split_str_Ok raw_data newline) as (ls & -> & Hls); [done|].
  destruct ls as [|line0 ls]; [done|]. by exists line0, ls.
Qed.

(** With the empty separator [parse_csv] returns only on a text that has
    nothing to parse, neither a line of names nor a data line: such a text
    gives no names and no rows with every separator.  On every other text
    it fails with the [ValueError] of [split]. *)
Theorem parse_csv_empty_separator raw_data :
  (parse_csv raw_data "" = Ok ([], []) ∧
   ∀ sep, parse_csv raw_data sep = Ok ([], [])) ∨
  (parse_csv raw_data "" = Raise ValueError ∧
   ∀ sep, parse_csv raw_data sep ≠ Ok ([], [])).
Proof.
  destruct (parse_csv_lines raw_data) as (line0 & ls & Hparse).
  rewrite (Hparse "").
  set (kept := filter _ (line0 :: ls)) in Hparse |- *. clearbody kept.
  unfold named_columns in Hparse |- *.
  destruct (startswith (str_strip line0) "#") eqn:Ehash.
  - right. split; [done|]. intros sep. rewrite Hparse.
    destruct (decide (sep = "")) as [->|Hsep]; [done|].
    destruct (split_str_Ok (str_strip (str_drop 1 (str_strip line0))) sep
                Hsep) as ([|name names] & -> & Hnames); [done|].
    rewrite !Ok_bind. by destruct (mapM _ kept).
  - rewrite !Ok_bind. destruct kept as [|line kept].
    + left. split; [done|]. intros sep. by rewrite Hparse.
    + right. rewrite mapM_split_empty. split; [done|]. intros sep.
      rewrite Hparse, Ok_bind.
      destruct (decide (sep = "")) as [->|Hsep];
        [by rewrite mapM_split_empty|].
      destruct (mapM (λ line, split_str line sep) (line :: kept))
        as [rows| | |] eqn:Erows; try done.
      apply mapM_Ok in Erows.
      apply Forall2_cons_inv_l in Erows as (r & rows' & _ & _ & ->).
      done.
Qed.

(** ** The template of a formula *)

Lemma length_take_while {A} (p : A → bool) l :
  length (take_while p l) ≤ length l.
Proof. induction l as [|x l IH]; simpl; [done|]. destruct (p x); simpl; lia. Qed.

Lemma match_column_name_bounds s n :
  match_column_name s = Some n → 0 < n ≤ length s.
Proof.
  unfold match_column_name.
  pose proof (take_while_app is_digit s) as Hs.
  destruct (take_while is_digit s) as [|d ds]; [done|].
  destruct (drop (length (d :: ds)) s) as [|c rest]; [done|].
  destruct (code c =? 58)%N; [|done].
  pose proof (length_take_while is_word rest) as Hw.
  destruct (take_while is_word rest) as [|w ws]; [done|].
  intros [= <-]. rewrite <- Hs, length_app. simpl in *. lia.
Qed.

Lemma finditer_go_ok s pos skip lo :
  lo ≤ pos + skip → skip ≤ length s →
  spans_ok lo (pos + length s) (finditer_go s pos skip).
Proof.
  revert pos skip lo. induction s as [|c s IH]; intros pos skip lo Hlo Hskip;
    [done|].
  cbn [finditer_go]. destruct skip as [|skip].
  - destruct (match_column_name (c :: s)) as [n|] eqn:E.
    + apply match_column_name_bounds in E. simpl in E. simpl.
      repeat split; try lia.
      replace (pos + S (length s)) with (S pos + length s) by lia.
      apply IH; lia.
    + simpl. replace (pos + S (length s)) with (S pos + length s) by lia.
      apply IH; lia.
  - simpl. replace (pos + S (length s)) with (S pos + length s) by lia.
    simpl in Hskip. apply IH; lia.
Qed.

Lemma chars_str_take i s : chars (str_take i s) = take i (chars s).
Proof. apply chars_str_of. Qed.

Lemma chars_str_drop j s : chars (str_drop j s) = drop j (chars s).
Proof. apply chars_str_of. Qed.

Lemma template_chars p s spans :
  spans_ok (length p) (length p + length s) spans →
  chars (foldr (λ (x : nat * nat) acc,
                  let '(i, j) := x in
                  str_take i acc +:+ "{}" +:+ str_drop j acc)
               (str_of (p ++ s)) spans)
  = p ++ fields s (length p) spans.
Proof.
  revert p s. induction spans as [|[i j] spans IH]; intros p s Hok.
  - simpl. apply chars_str_of.
  - destruct Hok as (Hlo & Hij & Hhi & Hok). cbn [foldr fields].
    rewrite !chars_app, chars_str_take, chars_str_drop.
    assert (Hlen : length (p ++ take (j - length p) s) = j).
    { rewrite length_app, length_take. lia. }
    replace (p ++ s)
      with ((p ++ take (j - length p) s) ++ drop (j - length p) s)
      by (by rewrite <- app_assoc, take_drop).
    rewrite (IH (p ++ take (j - length p) s) (drop (j - length p) s)).
    2: { rewrite Hlen, length_drop.
         replace (j + (length s - (j - length p))) with (length p + length s)
           by lia.
         done. }
    rewrite Hlen.
    rewrite (take_app_le _ _ i) by lia.
    rewrite (take_app_ge p) by lia.
    rewrite take_take.
    replace ((i - length p) `min` (j - length p)) with (i - length p) by lia.
    rewrite drop_app_ge by lia. rewrite Hlen, Nat.sub_diag, drop_0.
    by rewrite <- !app_assoc.
Qed.

Lemma str_of_app a b : str_of (a ++ b) = str_of a +:+ str_of b.
Proof. induction a as [|c a IH]; simpl; [done|]. by rewrite IH. Qed.

Lemma format_plain t rest args :
  Forall (λ c, is_brace c = false) t →
  format (t ++ rest) args = (s ← format rest args; mret (str_of t +:+ s)).
Proof.
  intros Ht. induction Ht as [|c t Hc Ht IH].
  - simpl. by destruct (format rest args).
  - apply orb_false_iff in Hc as [H1 H2].
    cbn [app format]. rewrite H1, H2, IH.
    by destruct (format rest args).
Qed.

Lemma format_fields s pos spans vals :
  Forall (λ c, is_brace c = false) s → length vals = length spans →
  format (fields s pos spans) vals = Ok (str_of (substitute s pos spans vals)).
Proof.
  revert s pos vals. induction spans as [|[i j] spans IH];
    intros s pos vals Hs Hlen.
  - destruct vals; [|done]. cbn [fields substitute].
    rewrite <- (app_nil_r s) at 1. rewrite (format_plain s [] []) by done.
    cbn [format]. rewrite Ok_bind. f_equal.
    change "" with (str_of []) at 1. by rewrite <- str_of_app, app_nil_r.
  - destruct vals as [|v vals]; [done|]. cbn [fields substitute].
    rewrite format_plain by (by apply Forall_take).
    change (format (chars "{}" ++ ?r) (v :: vals))
      with (s ← format r vals; mret (v +:+ s)).
    rewrite IH by (by apply Forall_drop || (simpl in Hlen; lia)).
    simpl. by rewrite !str_of_app, str_of_chars.
Qed.

Lemma foldl_reverse {A B} (f : A → B → A) a l :
  foldl f a (reverse l) = foldr (λ x acc, f acc x) a l.
Proof.
  induction l as [|x l IH]; [done|].
  by rewrite reverse_cons, foldl_app, IH.
Qed.

Lemma fields_nonempty s pos spans : s ≠ [] → fields s pos spans ≠ [].
Proof.
  destruct spans as [|[i j] spans]; [done|]. intros _. cbn [fields].
  destruct (take (i - pos) s); done.
Qed.

(** What a formula computes.  For an output column that is not a single
    column reference, is not empty and holds no brace, [Expression.__init__]
    keeps one pair for every column reference (the matches of
    [COLUMN_NAME_RE], from left to right): the pair that the text of the
    reference resolves to.  [Expression.run] evaluates the text of the
    specification in which every reference is replaced by the cell of its
    pair; the text around the references is kept as it is. *)
Theorem formula_run_substitutes colname colnames_list e :
  is_column_name colname = false → colname ≠ "" →
  Forall (λ c, is_brace c = false) (chars colname) →
  Expression_init colname colnames_list = Ok e →
  ∃ ps, pars_ e = ParsList ps ∧
    Forall2 (λ '(i, j) p,
               parse_column_name (str_slice i j colname) colnames_list = Ok p)
            (finditer colname) ps ∧
    ∀ lines, run e lines =
      (vals ← mapM (cell_of lines) ps;
       v ← eval (str_of (substitute (chars colname) 0 (finditer colname)
                                    vals));
       str v).
Proof.
  intros Hname Hne Hplain Hinit.
  rewrite Expression_init_groups, Hname in Hinit.
  apply bind_Ok in Hinit as (ps & Hps & [= <-]).
  exists ps. split; [done|]. split.
  { apply mapM_Ok in Hps. unfold groups in Hps. rewrite Hname in Hps.
    apply Forall2_fmap_l in Hps. eapply Forall2_impl; [exact Hps|].
    intros [i j] p. unfold compose.
    by destruct (parse_column_name (str_slice i j colname) colnames_list)
      as [?|[]| |]. }
  intros lines.
  assert (Hlen : length ps = length (finditer colname)).
  { apply mapM_Ok, Forall2_length in Hps. unfold groups in Hps.
    rewrite Hname, length_fmap in Hps. done. }
  assert (Hfields : chars (foldl (λ colname '(i, j),
                     str_take i colname +:+ "{}" +:+ str_drop j colname)
                   colname (reverse (finditer colname)))
                  = fields (chars colname) 0 (finditer colname)).
  { rewrite foldl_reverse.
    rewrite <- (str_of_chars colname) at 1.
    apply (template_chars [] (chars colname)).
    apply (finditer_go_ok (chars colname) 0 0 0); lia. }
  unfold run. cbn [expr_ pars_].
  destruct (String.eqb_spec
              (foldl (λ colname '(i, j),
                        str_take i colname +:+ "{}" +:+ str_drop j colname)
                     colname (reverse (finditer colname))) "") as [E|_].
  { exfalso. rewrite E in Hfields. symmetry in Hfields.
    apply fields_nonempty in Hfields; [done|].
    intros Hc. apply Hne. by rewrite <- (str_of_chars colname), Hc. }
  destruct (mapM (cell_of lines) ps) as [vals| | |] eqn:Evals; try done.
  rewrite !Ok_bind, Hfields, format_fields; [done|done|].
  apply mapM_Ok, Forall2_length in Evals. lia.
Qed.

Lemma formula_run_substitutes_witness :
  ∃ ps,
    pars_ {| expr_ := "{} * ({} + 2)";
             pars_ := ParsList [(0%Z, 0); (1%Z, 0)] |} = ParsList ps ∧
    Forall2 (λ '(i, j) p,
               parse_column_name (str_slice i j "0:a * (1:b + 2)")
                                 [["a"]; ["b"]] = Ok p)
            (finditer "0:a * (1:b + 2)") ps ∧
    ∀ lines,
      run {| expr_ := "{} * ({} + 2)";
             pars_ := ParsList [(0%Z, 0); (1%Z, 0)] |} lines =
      (vals ← mapM (cell_of lines) ps;
       v ← eval (str_of (substitute (chars "0:a * (1:b + 2)") 0
                                    (finditer "0:a * (1:b + 2)") vals));
       str v).
Proof.
  apply (formula_run_substitutes "0:a * (1:b + 2)" [["a"]; ["b"]]);
    [reflexivity|discriminate|compute_done|reflexivity].
Defined.

(** ** Formulas of two columns *)

Lemma take_while_all {A} (p : A → bool) l :
  length (take_while p l) = length l → take_while p l = l.
Proof.
  induction l as [|x l IH]; simpl; [done|].
  destruct (p x); simpl; [|done]. intros [= H]. by rewrite IH.
Qed.

Lemma take_while_app_stop {A} (p : A → bool) l x rest :
  Forall (λ c, p c = true) l → p x = false →
  take_while p (l ++ x :: rest) = l.
Proof.
  intros Hl Hx. induction Hl as [|c l Hc Hl IH]; simpl.
  - by rewrite Hx.
  - by rewrite Hc, IH.
Qed.

Lemma take_while_app_nil {A} (p : A → bool) l :
  Forall (λ c, p c = true) l → take_while p l = l.
Proof.
  intros Hl. induction Hl as [|c l Hc Hl IH]; simpl; [done|].
  by rewrite Hc, IH.
Qed.

(** A column reference is digits, a colon and word characters. *)
Lemma column_reference_parts group :
  column_reference group →
  ∃ ds ws, chars group = ds ++ ":"%char :: ws ∧ ds ≠ [] ∧ ws ≠ [] ∧
    Forall (λ c, is_digit c = true) ds ∧ Forall (λ c, is_word c = true) ws.
Proof.
  unfold column_reference, match_column_name.
  pose proof (take_while_app is_digit (chars group)) as Happ.
  pose proof (take_while_Forall is_digit (chars group)) as Hds.
  destruct (take_while is_digit (chars group)) as [|d ds]; [done|].
  destruct (drop (length (d :: ds)) (chars group)) as [|c rest]; [done|].
  destruct (code c =? 58)%N eqn:Ec; [|done].
  assert (c = ":"%char) as ->.
  { apply N.eqb_eq in Ec. unfold code in Ec.
    rewrite <- (ascii_N_embedding c), Ec. done. }
  pose proof (take_while_Forall is_word rest) as Hws.
  pose proof (length_take_while is_word rest) as Hlen.
  destruct (take_while is_word rest) as [|w ws] eqn:Ew; [done|].
  intros [= H]. rewrite <- Happ in H. rewrite length_app in H. simpl in H.
  assert (Hall : take_while is_word rest = rest).
  { apply take_while_all. rewrite Ew. simpl in *. lia. }
  exists (d :: ds), (w :: ws). rewrite <- Happ. repeat split; try done.
  by rewrite <- Hall, Ew.
Qed.

Lemma is_digit_not_colon c : is_digit c = true → c ≠ ":"%char.
Proof. by intros H ->. Qed.

Lemma match_column_name_parts ds ws rest :
  ds ≠ [] → ws ≠ [] →
  Forall (λ c, is_digit c = true) ds → Forall (λ c, is_word c = true) ws →
  match rest with [] => True | c :: _ => is_word c = false end →
  match_column_name (ds ++ ":"%char :: ws ++ rest)
  = Some (length ds + 1 + length ws).
Proof.
  intros Hds Hws Hd Hw Hrest. unfold match_column_name.
  cbv zeta.
  rewrite (take_while_app_stop is_digit ds ":"%char (ws ++ rest)) by done.
  destruct ds as [|d ds'] eqn:Eds; [done|]. rewrite <- Eds.
  rewrite drop_app_length.
  change (code ":" =? 58)%N with true. cbv iota.
  assert (Htw : take_while is_word (ws ++ rest) = ws).
  { destruct rest as [|c rest].
    - rewrite app_nil_r. by apply take_while_app_nil.
    - by apply take_while_app_stop. }
  rewrite Htw. by destruct ws.
Qed.

Lemma match_column_name_app group rest :
  column_reference group →
  match rest with [] => True | c :: _ => is_word c = false end →
  match_column_name (chars group ++ rest) = Some (length (chars group)).
Proof.
  intros (ds & ws & -> & Hds & Hws & Hd & Hw)%column_reference_parts Hrest.
  rewrite <- app_assoc. simpl app.
  rewrite (match_column_name_parts ds ws rest) by done.
  rewrite length_app. simpl. f_equal. lia.
Qed.

Lemma finditer_go_skip a rest pos :
  finditer_go (a ++ rest) pos (length a) = finditer_go rest (pos + length a) 0.
Proof.
  revert pos. induction a as [|c a IH]; intros pos; simpl.
  - rewrite Nat.add_0_r. by destruct rest.
  - rewrite IH. f_equal. lia.
Qed.

Lemma match_column_name_other c rest :
  is_digit c = false → match_column_name (c :: rest) = None.
Proof. intros H. unfold match_column_name. simpl. by rewrite H. Qed.

Lemma finditer_go_other c rest pos :
  is_digit c = false →
  finditer_go (c :: rest) pos 0 = finditer_go rest (S pos) 0.
Proof.
  intros H. cbn [finditer_go]. by rewrite (match_column_name_other c rest H).
Qed.

(** A column reference that is followed by no word character is one match
    of [COLUMN_NAME_RE]. *)
Lemma finditer_go_reference group rest pos :
  column_reference group →
  match rest with [] => True | c :: _ => is_word c = false end →
  finditer_go (chars group ++ rest) pos 0
  = (pos, pos + length (chars group))
      :: finditer_go rest (pos + length (chars group)) 0.
Proof.
  intros Hg Hrest.
  pose proof (match_column_name_app group rest Hg Hrest) as Hm.
  unfold column_reference in Hg.
  destruct (chars group) as [|c G] eqn:E; [done|].
  change ((c :: G) ++ rest) with (c :: (G ++ rest)) in *.
  cbn [finditer_go]. rewrite Hm. cbn [length].
  replace (S (length G) - 1) with (length G) by lia.
  rewrite finditer_go_skip. do 2 f_equal. lia.
Qed.

(** ** [get_field_list]: the order of the join list *)

Lemma foldl_insert_Permutation (ps ps' : list (Z * nat)) (m0 : gmap Z nat) :
  NoDup (ps.*1) → ps ≡ₚ ps' →
  foldl (λ m (p : Z * nat), <[p.1 := p.2]> m) m0 ps
  = foldl (λ m (p : Z * nat), <[p.1 := p.2]> m) m0 ps'.
Proof.
  intros Hnd Hperm. apply map_eq. intros i.
  assert (Hnd' : NoDup (ps'.*1)) by (by rewrite <- Hperm).
  destruct (decide (i ∈ ps.*1)) as [Hin|Hnotin].
  - apply list_elem_of_fmap in Hin as ([i' k] & Hi & Hin).
    simpl in Hi. subst i.
    rewrite (foldl_insert_lookup_in ps m0 i' k) by done.
    rewrite (foldl_insert_lookup_in ps' m0 i' k); [done|done|].
    by rewrite <- Hperm.
  - rewrite !foldl_insert_lookup_notin; [done| |done].
    by rewrite <- Hperm.
Qed.

(** The entries of the join list can be given in any order: a join list
    that [get_field_list] accepts gives the same field list however its
    entries are arranged. *)
Theorem get_field_list_any_order
    numfiles join_list join_list' colnames_list field_list :
  join_list ≡ₚ join_list' →
  get_field_list numfiles (Some join_list) colnames_list = Ok field_list →
  get_field_list numfiles (Some join_list') colnames_list = Ok field_list.
Proof.
  intros Hperm. unfold get_field_list. rewrite <- (Permutation_length Hperm).
  destruct (numfiles =? length join_list) eqn:Elen; [|done].
  apply Nat.eqb_eq in Elen. simpl. intros H.
  apply bind_Ok in H as (m & Hfill & H).
  destruct (bool_decide _) eqn:Edom; [|done].
  pose proof Edom as Edom'. apply bool_decide_eq_true in Edom'.
  apply fill_join_columns_Ok in Hfill as (ps & Hps & Hm).
  assert (Hnd : NoDup (ps.*1)).
  { apply size_list_to_set_NoDup.
    assert (Hdom : dom m = list_to_set (ps.*1)).
    { rewrite Hm, foldl_insert_dom, dom_empty_L. set_solver. }
    rewrite <- Hdom, <- Edom'.
    rewrite size_list_to_set by (apply NoDup_fmap_2; [apply _|apply NoDup_seq]).
    rewrite !length_fmap, length_seq.
    apply Forall2_length in Hps. lia. }
  set (resolve := λ join : string,
         match parse_column_name join colnames_list with
         | Ok p => p
         | _ => (0%Z, 0)
         end).
  assert (Hall : ∀ l, l ⊆ join_list →
            Forall2 (λ join p, parse_column_name join colnames_list = Ok p)
                    l (resolve <$> l)).
  { intros l Hl. apply Forall2_fmap_r, Forall_Forall2_diag, Forall_forall.
    intros join Hjoin. apply Hl in Hjoin.
    apply list_elem_of_lookup in Hjoin as [pos Hpos].
    destruct (Forall2_lookup_l _ _ _ _ _ Hps Hpos) as (p & _ & Hparse).
    unfold resolve, compose. by rewrite Hparse. }
  assert (Hps_eq : ps = resolve <$> join_list).
  { pose proof (Hall join_list (reflexivity _)) as Hps'.
    clear -Hps Hps'. revert Hps'. generalize (resolve <$> join_list).
    induction Hps as [|join p l ps Hp Hps IH]; intros ps' Hps'.
    - by apply Forall2_nil_inv_l in Hps'.
    - apply Forall2_cons_inv_l in Hps' as (p' & ps'' & Hp' & Hps'' & ->).
      f_equal; [congruence|by apply IH]. }
  rewrite (fill_join_columns_resolved join_list' colnames_list
             (resolve <$> join_list')).
  2: { apply Hall. intros join. by rewrite Hperm. }
  rewrite Ok_bind.
  rewrite <- (foldl_insert_Permutation ps (resolve <$> join_list') ∅ Hnd)
    by (by rewrite Hps_eq, Hperm).
  by rewrite <- Hm, Edom.
Qed.

Lemma get_field_list_any_order_witness :
  get_field_list 2 (Some ["1:city"; "0:city"]) ScenarioA.colnames_list
  = Ok [0; 0].
Proof.
  apply (get_field_list_any_order 2 ["0:city"; "1:city"] ["1:city"; "0:city"]
           ScenarioA.colnames_list [0; 0]); [|reflexivity].
  apply perm_swap.
Defined.

(** ** The join matcher on tables in the same order *)

(** Where a row of table 0 lies among the matches. *)
Lemma row_among_matches (ml : list (list nat)) r0 :
  (∀ m, m ∈ ml → ∃ r, m !! 0 = Some r) →
  (∃ p m r, ml !! p = Some m ∧ m !! 0 = Some r ∧
     cursor_after (take p ml) 0 ≤ r0 ≤ r) ∨
  cursor_after ml 0 ≤ r0.
Proof.
  induction ml as [|m ml IH] using rev_ind; intros Hall.
  - right. unfold cursor_after. simpl. lia.
  - destruct IH as [(p & m' & r & Hp & Hr & Hle) | Hafter].
    { intros m' Hm'. apply Hall, elem_of_app. by left. }
    + left. exists p, m', r. pose proof (lookup_lt_Some _ _ _ Hp).
      rewrite lookup_app_l, take_app_le by lia. done.
    + destruct (Hall m) as [r Hr]; [apply elem_of_app; right; by left|].
      destruct (decide (r0 ≤ r)) as [Hle|Hgt].
      * left. exists (length ml), m, r.
        rewrite lookup_app_r, Nat.sub_diag, take_app_length by lia. done.
      * right. rewrite (cursor_after_snoc ml m 0 r Hr). lia.
Qed.

(** The complete join.  When the join values that all tables share come in
    the same order in every table, and none of them twice in a table (as in
    files that are sorted on a key), [get_match_list] misses nothing: every
    choice of one row per table, all with the same join value, is in the
    match list. *)
Theorem join_is_complete lines_list join_field_list match_list rows v :
  get_match_list lines_list join_field_list = Ok match_list →
  (∀ t t' w,
     agree_on lines_list join_field_list t w →
     agree_on lines_list join_field_list t' w → t = t') →
  (∀ t t' w w' a a',
     agree_on lines_list join_field_list t w →
     agree_on lines_list join_field_list t' w' →
     t !! 0 = Some a → t' !! 0 = Some a' → a < a' → pointwise_lt t t') →
  agree_on lines_list join_field_list rows v →
  rows ∈ match_list.
Proof.
  intros Hml Hunique Horder [Hlen Hrows].
  pose proof (get_match_list_Ok_nonempty _ _ _ Hml) as HN.
  destruct (get_match_list_search _ _ _ Hml) as (ii & Inv & Hstop).
  destruct (lookup_lt_is_Some_2 rows 0) as [r0 Hr0]; [lia|].
  pose proof (Hrows 0 r0 Hr0) as Hv0.
  assert (Hfirst : ∀ p m, match_list !! p = Some m →
            first_match lines_list join_field_list
              (cursor_after (take p match_list)) m)
    by apply (search_matches _ _ _ _ Inv).
  assert (Hagree : ∀ cur m,
            first_match lines_list join_field_list cur m →
            ∃ w, agree_on lines_list join_field_list m w).
  { intros cur m Hfm. destruct (first_value _ _ _ _ Hfm) as (w & Hw).
    exists w. split; [apply (first_length _ _ _ _ Hfm)|].
    intros i r Hr. by destruct (Hw i r Hr). }
  (* A match before row [r0] of table 0 is before [rows] in every table. *)
  assert (Hbefore : ∀ (ml : list (list nat)) m' i ri,
            last ml = Some m' →
            first_match lines_list join_field_list
              (cursor_after (take (length ml - 1) ml)) m' →
            cursor_after ml 0 ≤ r0 → rows !! i = Some ri →
            cursor_after ml i ≤ ri).
  { intros ml m' i ri Hlast Hfm Hle Hri.
    unfold cursor_after in Hle |- *. rewrite Hlast in Hle |- *.
    destruct (Hagree _ _ Hfm) as (v' & Hm').
    destruct (lookup_lt_is_Some_2 m' 0) as [a Ha].
    { rewrite (first_length _ _ _ _ Hfm). lia. }
    destruct (lookup_lt_is_Some_2 m' i) as [b Hb].
    { rewrite (first_length _ _ _ _ Hfm), <- Hlen. by eapply lookup_lt_Some. }
    rewrite Ha in Hle. rewrite Hb. simpl in *.
    assert (Hlt : a < r0) by lia.
    pose proof (Horder m' rows v' v a r0 Hm' (conj Hlen Hrows) Ha Hr0 Hlt
                  i b ri Hb Hri).
    lia. }
  assert (Hbefore' : ∀ p i ri, p ≤ length match_list →
            cursor_after (take p match_list) 0 ≤ r0 → rows !! i = Some ri →
            cursor_after (take p match_list) i ≤ ri).
  { intros p i ri Hp Hle Hri. destruct p as [|p].
    - unfold cursor_after. simpl. lia.
    - destruct (lookup_lt_is_Some_2 match_list p) as [m' Hm']; [lia|].
      apply (Hbefore _ m'); try done.
      + rewrite (take_S_r _ _ _ Hm'). apply last_snoc.
      + rewrite length_take.
        replace (S p `min` length match_list - 1) with p by lia.
        rewrite take_take. replace (p `min` S p) with p by lia.
        by apply Hfirst. }
  assert (Hno : ∀ p, p ≤ length match_list →
            cursor_after (take p match_list) 0 ≤ r0 →
            ¬ without_partner lines_list join_field_list
                (cursor_after (take p match_list)) r0).
  { intros p Hp Hle (w & i & Hw & Hi & Habs).
    rewrite Hv0 in Hw. injection Hw as <-.
    destruct (lookup_lt_is_Some_2 rows i) as [ri Hri]; [lia|].
    apply (Habs ri); [by apply Hbefore'|by apply Hrows]. }
  destruct (row_among_matches match_list r0)
    as [(p & m & r & Hp & Hr & Hle) | Hafter].
  { intros m [p Hp]%list_elem_of_lookup.
    apply lookup_lt_is_Some_2. rewrite (first_length _ _ _ _ (Hfirst p m Hp)).
    lia. }
  - pose proof (Hfirst p m Hp) as Hfm.
    pose proof (lookup_lt_Some _ _ _ Hp) as Hplt.
    destruct (decide (r0 = r)) as [->|Hne].
    + assert (rows = m) as ->; [|by eapply list_elem_of_lookup_2].
      destruct (Hagree _ _ Hfm) as (v' & Hm).
      assert (v' = v) as ->.
      { destruct Hm as [_ Hm]. pose proof (Hm 0 r Hr). congruence. }
      by apply (Hunique rows m v).
    + exfalso. apply (Hno p); [lia|lia|].
      apply (first_row0 _ _ _ _ Hfm r r0 Hr). lia.
  - exfalso.
    apply no_finished_list_false in Hstop as (i & c & lines & Hc & Hl & Hle).
    destruct i as [|i].
    + destruct (search_cursor0 _ _ _ _ Inv c Hc) as [_ Hskip].
      apply (Hno (length match_list)); rewrite ?firstn_all; try done.
      apply Hskip. split; [done|].
      pose proof (join_cell_row_lt _ _ _ _ _ _ Hv0 Hl). lia.
    + assert (Hi : 1 ≤ S i < length lines_list).
      { apply lookup_lt_Some in Hl. lia. }
      rewrite (search_cursor _ _ _ _ Inv (S i) Hi) in Hc. injection Hc as <-.
      destruct (lookup_lt_is_Some_2 rows (S i)) as [ri Hri]; [lia|].
      pose proof (Hbefore' (length match_list) (S i) ri) as Hb.
      rewrite firstn_all in Hb. specialize (Hb (le_n _) Hafter Hri).
      pose proof (join_cell_row_lt _ _ _ _ _ _ (Hrows _ _ Hri) Hl). lia.
Qed.

Lemma join_is_complete_witness :
  get_match_list [[["a"]; ["b"]; ["c"]]; [["b"]; ["c"]; ["d"]]] [0; 0]
    = Ok [[1; 0]; [2; 1]] ∧
  [2; 1] ∈ [[1; 0]; [2; 1]].
Proof.
  split; [reflexivity|].
  apply (join_is_complete
           [[["a"]; ["b"]; ["c"]]; [["b"]; ["c"]; ["d"]]] [0; 0]
           [[1; 0]; [2; 1]] [2; 1] "c").
  - reflexivity.
  - intros [|r0 [|r1 [|? ?]]] [|r0' [|r1' [|? ?]]] w [Hl H] [Hl' H'];
      try discriminate.
    pose proof (H 0 r0 eq_refl) as C0. pose proof (H 1 r1 eq_refl) as C1.
    pose proof (H' 0 r0' eq_refl) as C0'. pose proof (H' 1 r1' eq_refl) as C1'.
    clear H H'.
    destruct r0 as [|[|[|r0]]], r1 as [|[|[|r1]]]; vm_compute in C0, C1;
      try congruence;
      destruct r0' as [|[|[|r0']]], r1' as [|[|[|r1']]];
      vm_compute in C0', C1'; congruence.
  - intros [|r0 [|r1 [|? ?]]] [|r0' [|r1' [|? ?]]] w w' a a' [Hl H] [Hl' H']
      [= <-] [= <-] Hlt; try discriminate.
    pose proof (H 0 r0 eq_refl) as C0. pose proof (H 1 r1 eq_refl) as C1.
    pose proof (H' 0 r0' eq_refl) as C0'. pose proof (H' 1 r1' eq_refl) as C1'.
    clear H H'.
    destruct r0 as [|[|[|r0]]], r1 as [|[|[|r1]]]; vm_compute in C0, C1;
      try congruence;
      destruct r0' as [|[|[|r0']]], r1' as [|[|[|r1']]];
      vm_compute in C0', C1'; try congruence; try lia;
      intros [|[|i]] x y Hx Hy; simpl in Hx, Hy; try discriminate;
      injection Hx as <-; injection Hy as <-; lia.
  - split; [reflexivity|].
    intros [|[|i]] r Hr; vm_compute in Hr; [| |discriminate];
      injection Hr as <-; reflexivity.
Defined.


(** ** [main]: the rows that it writes *)

Lemma emit_row_Ok_cells lines_list expr_list row_list st st' out :
  emit_row lines_list expr_list row_list st = (st', Ok ()) →
  written st = Some out →
  ∃ lines cells,
    mapM (λ '(i, l), getitem l i) (zip row_list lines_list) = Ok lines ∧
    mapM (λ expr, run expr lines) expr_list = Ok cells ∧
    matched st' = matched st ∧
    written st' = Some (out ++ [join_str "," cells +:+ newline]).
Proof.
  unfold emit_row, then_, lift, write.
  destruct (mapM _ (zip row_list lines_list)) as [lines|e| |] eqn:Elines;
    try done.
  destruct (mapM (λ expr, run expr lines) expr_list) as [cells|e| |]
    eqn:Ecells; try done.
  intros H Hout. rewrite Hout in H. injection H as <-. simpl.
  exists lines, cells. by repeat split.
Qed.

Lemma for_each_emit_row_Ok_cells lines_list expr_list match_list st st' out :
  for_each match_list (emit_row lines_list expr_list) st = (st', Ok ()) →
  written st = Some out →
  ∃ rows,
    Forall2 (λ row_list cells, ∃ lines,
               mapM (λ '(i, l), getitem l i) (zip row_list lines_list)
                 = Ok lines ∧
               mapM (λ expr, run expr lines) expr_list = Ok cells)
            match_list rows ∧
    written st'
    = Some (out ++ ((λ cells, join_str "," cells +:+ newline) <$> rows)).
Proof.
  revert st out. induction match_list as [|row_list match_list IH];
    intros st out H Hout.
  - injection H as <-. exists []. split; [constructor|].
    by rewrite app_nil_r.
  - cbn [for_each] in H. unfold then_ at 1 in H.
    destruct (emit_row lines_list expr_list row_list st)
      as [st1 [[]|e| |]] eqn:Erow; try done.
    destruct (emit_row_Ok_cells _ _ _ _ _ _ Erow Hout)
      as (lines & cells & Hlines & Hcells & _ & Hout1).
    destruct (IH _ _ H Hout1) as (rows & Hrows & Hout').
    exists (cells :: rows). split; [constructor; eauto|].
    rewrite Hout', <- app_assoc. done.
Qed.

Lemma Expression_init_column colname colnames_list e :
  is_column_name colname = true →
  Expression_init colname colnames_list = Ok e →
  ∃ p, parse_column_name colname colnames_list = Ok p ∧ (0 ≤ p.1)%Z ∧
    e = {| expr_ := ""; pars_ := ParsPair p |}.
Proof.
  intros Hname Hinit. unfold Expression_init in Hinit. rewrite Hname in Hinit.
  apply bind_Ok in Hinit as ([i k] & Hp & [= <-]).
  destruct (parse_column_name colname colnames_list) as [p|[]| |] eqn:E;
    simpl in Hp; try done.
  injection Hp as ->. exists (i, k). repeat split; try done.
  by eapply column_name_index_nonneg.
Qed.

Lemma run_column lines_list m lines p cell :
  (0 ≤ p.1)%Z →
  mapM (λ '(i, l), getitem l i) (zip m lines_list) = Ok lines →
  run {| expr_ := ""; pars_ := ParsPair p |} lines = Ok cell →
  matched_cell lines_list m p = Some cell.
Proof.
  intros Hi Hlines. unfold run. cbn [expr_ pars_].
  change (String.eqb "" "") with true. cbv iota.
  unfold cell_of, getitem_int. rewrite (proj2 (Z.leb_le 0 _) Hi).
  intros H. apply bind_Ok in H as (line & Hline%getitem_Ok & Hcell%getitem_Ok).
  destruct (zip_rows_lookup _ _ _ _ _ Hlines Hline)
    as (r & t & Hr & Ht & Htr).
  unfold matched_cell. rewrite Hr. simpl. rewrite Ht. simpl. rewrite Htr.
  done.
Qed.

(** What [main] writes.  When all output columns are plain column
    references and [main] ends without an exception, every reference
    resolves, and the output has one line for each match, in the order of
    the match list: the cells that the references name in the rows of the
    match, joined by [,]. *)
Theorem main_writes_matched_cells inputs join out_cols st :
  Forall (λ colname, is_column_name colname = true) out_cols →
  main inputs join out_cols started = (st, Ok ()) →
  ∃ join_field_list match_list ps rows,
    get_field_list (length inputs) join (inputs.*1) = Ok join_field_list ∧
    get_match_list (inputs.*2) join_field_list = Ok match_list ∧
    Forall2 (λ colname p, parse_column_name colname (inputs.*1) = Ok p)
            out_cols ps ∧
    Forall2 (λ m cells,
               Forall2 (λ p cell, matched_cell (inputs.*2) m p = Some cell)
                       ps cells)
            match_list rows ∧
    written st = Some ((λ cells, join_str "," cells +:+ newline) <$> rows).
Proof.
  intros Hcols. unfold main. unfold then_ at 1 2 3 4 5. unfold lift at 1 2 3.
  destruct (get_field_list _ _ _) as [jfl|e| |]; try done.
  destruct (get_match_list _ _) as [ml|e| |] eqn:Eml; try done.
  cbn [set_match_list started written].
  destruct (mapM _ out_cols) as [exprs|e| |] eqn:Eexprs; try done.
  cbn [open_outfile matched]. intros H.
  destruct (for_each_emit_row_Ok_cells _ _ _ _ _ [] H eq_refl)
    as (rows & Hrows & Hout).
  apply mapM_Ok in Eexprs.
  assert (Hps : ∃ ps,
    Forall2 (λ colname p, parse_column_name colname (inputs.*1) = Ok p)
            out_cols ps ∧
    Forall2 (λ p e, (0 ≤ p.1)%Z ∧ e = {| expr_ := ""; pars_ := ParsPair p |})
            ps exprs).
  { clear -Hcols Eexprs.
    induction Eexprs as [|colname e out_cols exprs He _ IH].
    - exists []. split; constructor.
    - apply Forall_cons in Hcols as [Hname Hcols].
      destruct (IH Hcols) as (ps & Hps & Hes).
      destruct (Expression_init_column _ _ _ Hname He) as (p & Hp & Hi & ->).
      exists (p :: ps). split; constructor; done. }
  destruct Hps as (ps & Hps & Hes).
  exists jfl, ml, ps, rows. repeat split; try done.
  eapply Forall2_impl; [exact Hrows|].
  intros m cells (lines & Hlines & Hcells). apply mapM_Ok in Hcells.
  clear -Hes Hlines Hcells. revert cells Hcells.
  induction Hes as [|p e ps exprs [Hi ->] _ IH]; intros cells Hcells.
  - apply Forall2_nil_inv_l in Hcells as ->. constructor.
  - apply Forall2_cons_inv_l in Hcells as (cell & cells' & Hcell & Hcells & ->).
    constructor; [|by apply IH]. by eapply run_column.
Qed.

Lemma main_writes_matched_cells_witness :
  ∃ join_field_list match_list ps rows,
    get_field_list (length ScenarioA_main.inputs) ScenarioA_main.join
      (ScenarioA_main.inputs.*1) = Ok join_field_list ∧
    get_match_list (ScenarioA_main.inputs.*2) join_field_list
      = Ok match_list ∧
    Forall2 (λ colname p,
               parse_column_name colname (ScenarioA_main.inputs.*1) = Ok p)
            ScenarioA_main.out_cols ps ∧
    Forall2 (λ m cells,
               Forall2 (λ p cell,
                          matched_cell (ScenarioA_main.inputs.*2) m p
                          = Some cell)
                       ps cells)
            match_list rows ∧
    written {| matched := Some [[0; 1]];
               written := Some ["NYC,8,300" +:+ newline] |}
    = Some ((λ cells, join_str "," cells +:+ newline) <$> rows).
Proof.
  apply (main_writes_matched_cells ScenarioA_main.inputs ScenarioA_main.join
           ScenarioA_main.out_cols).
  - repeat constructor.
  - reflexivity.
Defined.
